(** * roboLiga2019: the navigation control loop of [tmk/Main.py]

    A shallow embedding of the PID regulator, the geometry helpers, the
    target selector and the body of the main loop, followed by the
    properties of the specification that concern them.

    Numbers.  The program computes with Python floats.  They are modelled
    by the real numbers [R]: arithmetic is exact, [math.inf] is a separate
    value ([xreal]), and a division whose divisor is zero raises
    [ZeroDivisionError] as it does in Python.  Where a property would not
    survive the rounding of the floats (the shift of a heading by a full
    turn in [get_angle], [point_transpose], [test_delay]) the code is
    modelled once more with every operation rounded ([Rounded]), and the
    property is stated up to the rounding error.  NaN, overflow and
    underflow are outside the model.

    Time.  [time()] reads the wall clock.  Every reading the program makes
    is an explicit input of the function that makes it. *)

From Stdlib Require Import Reals Lra Lia ZArith List String Bool.
Import ListNotations.

#[local] Open Scope R_scope.

(** ** Comparisons on floats as booleans *)

Definition Rltb (a b : R) : bool := if Rlt_dec a b then true else false.
Definition Rgtb (a b : R) : bool := Rltb b a.
Definition Reqb (a b : R) : bool := if Req_dec_T a b then true else false.

(** [math.inf] and [float("inf")]: a float that is either finite or
    positive infinity. *)
Inductive xreal : Type :=
| Fin (r : R)
| PInf.

(** [a < b] for a finite [a]. *)
Definition xltb (a : R) (b : xreal) : bool :=
  match b with
  | Fin r => Rltb a r
  | PInf => true
  end.

(** [a > b] for a finite [b]. *)
Definition xgtb (a : xreal) (b : R) : bool :=
  match a with
  | Fin r => Rgtb r b
  | PInf => true
  end.

(** [round(x)] on a float: the nearest integer, ties to the even one. *)
Definition py_round (v : R) : Z :=
  let f := Zfloor v in
  let d := v - IZR f in
  if Rltb d (1 / 2) then f
  else if Rltb (1 / 2) d then (f + 1)%Z
  else if Z.even f then f else (f + 1)%Z.

(** ** Exceptions *)

Inductive exn : Type :=
| TypeError          (* [None] subscripted or used as a number *)
| AttributeError     (* an attribute of [None] *)
| NameError          (* a global read before its first assignment *)
| IndexError         (* [popleft] on an empty deque *)
| ZeroDivisionError.

Inductive result (A : Type) : Type :=
| Ok (a : A)
| Raise (e : exn).
Arguments Ok {A} a.
Arguments Raise {A} e.

Definition bind {A B : Type} (m : result A) (f : A -> result B) : result B :=
  match m with
  | Ok a => f a
  | Raise e => Raise e
  end.

Notation "x <- m ;; k" := (bind m (fun x => k))
  (at level 61, m at next level, right associativity).
Notation "' p <- m ;; k" := (bind m (fun p => k))
  (at level 61, p pattern, m at next level, right associativity).

(** Using a variable that holds [None] where a value is needed. *)
Definition deref {A : Type} (o : option A) : result A :=
  match o with
  | Some a => Ok a
  | None => Raise TypeError
  end.

(** Reading the attributes [.x], [.y] of a variable that may hold [None]. *)
Definition attrs {A : Type} (o : option A) : result A :=
  match o with
  | Some a => Ok a
  | None => Raise AttributeError
  end.

(** Reading a global that may not have been assigned yet. *)
Definition global {A : Type} (o : option A) : result A :=
  match o with
  | Some a => Ok a
  | None => Raise NameError
  end.

(** ** class PID *)

Module PID.

Record t : Type := mk {
  _setpoint : R;
  _kp : R;
  _ki : option R;
  _kd : option R;
  _integral_limit : option R;
  _error : option R;
  _time : option R;
  _integral : option R;
  _value : option R
}.

(** [__init__] *)
Definition init (setpoint kp : R) (ki kd integral_limit : option R) : t :=
  mk setpoint kp ki kd integral_limit None None None None.

Definition keep {A : Type} (new : option A) (old : A) : A :=
  match new with
  | Some v => v
  | None => old
  end.

Definition keep_opt {A : Type} (new old : option A) : option A :=
  match new with
  | Some v => Some v
  | None => old
  end.

Definition reset (self : t) (setpoint kp ki kd integral_limit : option R) : t :=
  mk (keep setpoint (_setpoint self))
     (keep kp (_kp self))
     (keep_opt ki (_ki self))
     (keep_opt kd (_kd self))
     (keep_opt integral_limit (_integral_limit self))
     None None None None.

(** [reset()] with no argument. *)
Definition reset0 (self : t) : t := reset self None None None None None.

(** [update]; [now] is the value [time()] returns inside the call. *)
Definition update (self : t) (now : R) (measurement : R) : result (t * R) :=
  match _value self with
  | None =>
      let error := _setpoint self - measurement in
      Ok (mk (_setpoint self) (_kp self) (_ki self) (_kd self)
             (_integral_limit self)
             (Some error) (Some now) (Some 0) (Some measurement),
          _kp self * error)
  | Some _ =>
      let time_now := now in
      last_time <- deref (_time self) ;;
      let delta_time := time_now - last_time in
      let error := _setpoint self - measurement in
      let p := _kp self * error in
      '(integral, i) <-
        match _ki self with
        | None => Ok (_integral self, 0)
        | Some ki =>
            acc <- deref (_integral self) ;;
            let acc := acc + error * delta_time in
            let i := ki * acc in
            let i :=
              match _integral_limit self with
              | None => i
              | Some lim => Rmax (Rmin i lim) ((-1) * lim)
              end in
            Ok (Some acc, i)
        end ;;
      d <-
        match _kd self with
        | None => Ok 0
        | Some kd =>
            last_error <- deref (_error self) ;;
            if Reqb delta_time 0 then Raise ZeroDivisionError
            else Ok (kd * (error - last_error) / delta_time)
        end ;;
      Ok (mk (_setpoint self) (_kp self) (_ki self) (_kd self)
             (_integral_limit self)
             (Some error) (Some time_now) integral (Some measurement),
          p + i + d)
  end.

(** The regulator has run at least once since construction or reset:
    all four pieces of running state are present. *)
Definition initialized (self : t) : Prop :=
  exists e tm acc v,
    _error self = Some e /\ _time self = Some tm /\
    _integral self = Some acc /\ _value self = Some v.

(** The regulator is fresh: no running state. *)
Definition fresh (self : t) : Prop :=
  _error self = None /\ _time self = None /\
  _integral self = None /\ _value self = None.

(** A regulator with a derivative gain that has been called once at
    clock [5]. *)
Definition pid_called_once : t :=
  mk 0 1 None (Some 2) None (Some (0 - 1)) (Some 5) (Some 0) (Some 1).

End PID.

(** ** class Point and the geometry helpers *)

Record Point : Type := mkPoint { x : R; y : R }.

(** [math.atan2(dy, dx)]: the angle of the vector [(dx, dy)], in
    [(-PI, PI]]; [atan2(0, 0)] is [0]. *)
Definition atan2 (dy dx : R) : R :=
  if Rltb 0 dx then atan (dy / dx)
  else if Rltb dx 0 then
    if Rltb dy 0 then atan (dy / dx) - PI else atan (dy / dx) + PI
  else if Rltb 0 dy then PI / 2
  else if Rltb dy 0 then - (PI / 2)
  else 0.

(** [math.degrees] *)
Definition degrees (r : R) : R := r * (180 / PI).

Definition get_angle (p1 : Point) (a1 : R) (p2 : Point) : R :=
  let a := degrees (atan2 (y p2 - y p1) (x p2 - x p1)) in
  let a_rel := a - a1 in
  if Rgtb (Rabs a_rel) 180 then
    if Rgtb a_rel 0 then a_rel - 360 else a_rel + 360
  else a_rel.

Definition get_distance (p1 p2 : Point) : R :=
  sqrt ((x p2 - x p1) ^ 2 + (y p2 - y p1) ^ 2).

(** The absolute bearing from [p1] to [p2] in degrees, as [get_angle]
    computes it in its first line. *)
Definition bearing (p1 p2 : Point) : R :=
  degrees (atan2 (y p2 - y p1) (x p2 - x p1)).

(** ** The game-state snapshot (the decoded [game.json]) *)

Record Robot : Type := mkRobot {
  robot_id : Z;                    (* ['id'] *)
  robot_position : Point;          (* ['position'][0:2] *)
  robot_direction : option R       (* ['direction'], [None] for JSON null *)
}.

Record Apple : Type := mkApple {
  apple_id : Z;                    (* ['id'] *)
  apple_type : string;             (* ['type'] *)
  apple_position : Point           (* ['position'][0:2] *)
}.

Record GameState : Type := mkGameState {
  gameOn : bool;
  timeLeft : R;
  robots : list Robot;
  apples : list Apple
}.

(** ** class State *)

Inductive State : Type :=
| GET_APPLE
| GET_TURN
| GET_STRAIGHT
| HOME
| HOME_TURN
| HOME_STRAIGHT
| BACK_OFF.

Definition State_eqb (a b : State) : bool :=
  match a, b with
  | GET_APPLE, GET_APPLE | GET_TURN, GET_TURN | GET_STRAIGHT, GET_STRAIGHT
  | HOME, HOME | HOME_TURN, HOME_TURN | HOME_STRAIGHT, HOME_STRAIGHT
  | BACK_OFF, BACK_OFF => true
  | _, _ => false
  end.

(** ** Constants *)

Definition ROBOT_ID : Z := 35.
Definition SPEED_MAX : R := 800.
Definition SPEED_BASE_MAX : R := 700.

Definition PID_TURN_KP : R := 14 / 10.
Definition PID_TURN_KI : R := 0.
Definition PID_TURN_KD : R := 53 / 100.
Definition PID_TURN_INT_MAX : R := 100.
Definition PID_FRWD_KP : R := 1.
Definition PID_FRWD_KI : R := 0.
Definition PID_FRWD_KD : R := 1 / 10.
Definition PID_FRWD_INT_MAX : R := 100.
Definition PID_FRWD_TURN_KP : R := 6.
Definition PID_FRWD_TURN_KI : R := 0.
Definition PID_FRWD_TURN_KD : R := 2.
Definition PID_FRWD_TURN_INT_MAX : R := 100.
Definition PID_TURN_APPLE_KP : R := 4.
Definition PID_TURN_APPLE_KI : R := 0.
Definition PID_TURN_APPLE_KD : R := 0.
Definition PID_TURN_APPLE_INT_MAX : R := 100.
Definition PID_FRWD_APPLE_KP : R := 1.
Definition PID_FRWD_APPLE_KI : R := 0.
Definition PID_FRWD_APPLE_KD : R := 0.
Definition PID_FRWD_APPLE_INT_MAX : R := 100.
Definition PID_FRWD_TURN_APPLE_KP : R := 15.
Definition PID_FRWD_TURN_APPLE_KI : R := 0.
Definition PID_FRWD_TURN_APPLE_KD : R := 0.
Definition PID_FRWD_TURN_APPLE_INT_MAX : R := 100.

Definition HIST_QUEUE_LENGTH : nat := 3.
Definition DIST_EPS : R := 100.
Definition DIR_EPS : R := 5.
Definition DIST_NEAR : R := 100.
Definition TIMER_NEAR_TARGET : R := 3.

(** ** Target selection *)

(** One iteration of the loop of [get_closest_good_apple]; the accumulator
    is [(min_apple, min_dist)]. *)
Definition closest_good_step (robot_pos_arg : Point) (closest_id : Z)
    (acc : option Apple * xreal) (apple : Apple) : option Apple * xreal :=
  if (apple_type apple =? "appleGood")%string
     && negb (apple_id apple =? closest_id)%Z
  then
    let atm_dist := get_distance robot_pos_arg (apple_position apple) in
    if xltb atm_dist (snd acc) then (Some apple, Fin atm_dist) else acc
  else acc.

Definition get_closest_good_apple (game_state_arg : GameState)
    (robot_pos_arg : Point) (closest_id : Z) : option Apple :=
  fst (fold_left (closest_good_step robot_pos_arg closest_id)
         (apples game_state_arg) (None, PInf)).

Definition in_team_one (position : Point) : bool :=
  (Rltb 1 (x position) && Rltb (x position) 520)
  && (Rgtb 1525 (y position) && Rgtb (y position) 520).

Definition in_team_two (position : Point) : bool :=
  (Rltb 3046 (x position) && Rltb (x position) 3559)
  && (Rgtb 1525 (y position) && Rgtb (y position) 520).

(** The test the selector applies to an entry. *)
Definition eligible (closest_id : Z) (apple : Apple) : bool :=
  (apple_type apple =? "appleGood")%string
  && negb (apple_id apple =? closest_id)%Z.

(** What the loop of the selector has established after the entries [l]:
    nothing eligible seen, or the first of the closest eligible entries. *)
Definition closest_inv (pos : Point) (ex : Z) (l : list Apple)
    (acc : option Apple * xreal) : Prop :=
  match acc with
  | (None, d) =>
      d = PInf /\ forall b, In b l -> eligible ex b = false
  | (Some a, d) =>
      d = Fin (get_distance pos (apple_position a)) /\
      eligible ex a = true /\
      exists l1 l2,
        l = l1 ++ a :: l2 /\
        (forall b, In b l1 -> eligible ex b = true ->
           get_distance pos (apple_position a)
           < get_distance pos (apple_position b)) /\
        (forall b, In b l2 -> eligible ex b = true ->
           get_distance pos (apple_position a)
           <= get_distance pos (apple_position b))
  end.

(** ** Actuation *)

Inductive Motor : Type := motor_left | motor_right | motor_grab.

(** What a tick does to the outside world, in program order. *)
Inductive action : Type :=
| run_forever (m : Motor) (speed_sp : Z)
| stop_brake (m : Motor)
| sleep (seconds : R)
| file_write (angle time : R).

Definition claws_open : list action :=
  [run_forever motor_grab 500; sleep (5 / 10); stop_brake motor_grab].

Definition claws_close : list action :=
  [run_forever motor_grab (-500); sleep (5 / 10); stop_brake motor_grab].

(** ** The globals of the main loop *)

Record Ctx : Type := mkCtx {
  PID_turn : PID.t;
  PID_frwd_base : PID.t;
  PID_frwd_turn : PID.t;
  PID_turn_apple : PID.t;
  PID_frwd_base_apple : PID.t;
  PID_frwd_turn_apple : PID.t;
  pid_frwd_base_apple_multiplier : R;
  speed_right : R;
  speed_left : R;
  robot_dir_hist : list R;
  robot_dist_hist : list xreal;
  robot_dir_data_id : Z;
  t_old : R;
  state : State;
  state_old : option State;
  closest_apple_old : Point + option Apple;
  closest_apple_id_old : Z;
  target : option Point;
  target_dist : R;
  target_angle : R;
  robot_near_target_old : option bool;
  timer_near_target : option R;
  state_old_target : option State
}.

(** Assignment to one global: [with_v e c] is the context after [v = e]. *)
Definition with_PID_turn (v : PID.t) (c : Ctx) : Ctx :=
  match c with
  | mkCtx p_turn p_base p_fturn p_turn_a p_base_a p_fturn_a mult
      s_right s_left dir_hist dist_hist data_id t_prev st st_old
      apple_old id_old tgt t_dist t_angle near_old timer st_old_tgt =>
      mkCtx v p_base p_fturn p_turn_a p_base_a p_fturn_a mult s_right
        s_left dir_hist dist_hist data_id t_prev st st_old apple_old
        id_old tgt t_dist t_angle near_old timer st_old_tgt
  end.

Definition with_PID_frwd_base (v : PID.t) (c : Ctx) : Ctx :=
  match c with
  | mkCtx p_turn p_base p_fturn p_turn_a p_base_a p_fturn_a mult
      s_right s_left dir_hist dist_hist data_id t_prev st st_old
      apple_old id_old tgt t_dist t_angle near_old timer st_old_tgt =>
      mkCtx p_turn v p_fturn p_turn_a p_base_a p_fturn_a mult s_right
        s_left dir_hist dist_hist data_id t_prev st st_old apple_old
        id_old tgt t_dist t_angle near_old timer st_old_tgt
  end.

Definition with_PID_frwd_turn (v : PID.t) (c : Ctx) : Ctx :=
  match c with
  | mkCtx p_turn p_base p_fturn p_turn_a p_base_a p_fturn_a mult
      s_right s_left dir_hist dist_hist data_id t_prev st st_old
      apple_old id_old tgt t_dist t_angle near_old timer st_old_tgt =>
      mkCtx p_turn p_base v p_turn_a p_base_a p_fturn_a mult s_right
        s_left dir_hist dist_hist data_id t_prev st st_old apple_old
        id_old tgt t_dist t_angle near_old timer st_old_tgt
  end.

Definition with_PID_turn_apple (v : PID.t) (c : Ctx) : Ctx :=
  match c with
  | mkCtx p_turn p_base p_fturn p_turn_a p_base_a p_fturn_a mult
      s_right s_left dir_hist dist_hist data_id t_prev st st_old
      apple_old id_old tgt t_dist t_angle near_old timer st_old_tgt =>
      mkCtx p_turn p_base p_fturn v p_base_a p_fturn_a mult s_right
        s_left dir_hist dist_hist data_id t_prev st st_old apple_old
        id_old tgt t_dist t_angle near_old timer st_old_tgt
  end.

Definition with_PID_frwd_base_apple (v : PID.t) (c : Ctx) : Ctx :=
  match c with
  | mkCtx p_turn p_base p_fturn p_turn_a p_base_a p_fturn_a mult
      s_right s_left dir_hist dist_hist data_id t_prev st st_old
      apple_old id_old tgt t_dist t_angle near_old timer st_old_tgt =>
      mkCtx p_turn p_base p_fturn p_turn_a v p_fturn_a mult s_right
        s_left dir_hist dist_hist data_id t_prev st st_old apple_old
        id_old tgt t_dist t_angle near_old timer st_old_tgt
  end.

Definition with_PID_frwd_turn_apple (v : PID.t) (c : Ctx) : Ctx :=
  match c with
  | mkCtx p_turn p_base p_fturn p_turn_a p_base_a p_fturn_a mult
      s_right s_left dir_hist dist_hist data_id t_prev st st_old
      apple_old id_old tgt t_dist t_angle near_old timer st_old_tgt =>
      mkCtx p_turn p_base p_fturn p_turn_a p_base_a v mult s_right
        s_left dir_hist dist_hist data_id t_prev st st_old apple_old
        id_old tgt t_dist t_angle near_old timer st_old_tgt
  end.

Definition with_pid_frwd_base_apple_multiplier (v : R) (c : Ctx) : Ctx :=
  match c with
  | mkCtx p_turn p_base p_fturn p_turn_a p_base_a p_fturn_a mult
      s_right s_left dir_hist dist_hist data_id t_prev st st_old
      apple_old id_old tgt t_dist t_angle near_old timer st_old_tgt =>
      mkCtx p_turn p_base p_fturn p_turn_a p_base_a p_fturn_a v
        s_right s_left dir_hist dist_hist data_id t_prev st st_old
        apple_old id_old tgt t_dist t_angle near_old timer st_old_tgt
  end.

Definition with_speed_right (v : R) (c : Ctx) : Ctx :=
  match c with
  | mkCtx p_turn p_base p_fturn p_turn_a p_base_a p_fturn_a mult
      s_right s_left dir_hist dist_hist data_id t_prev st st_old
      apple_old id_old tgt t_dist t_angle near_old timer st_old_tgt =>
      mkCtx p_turn p_base p_fturn p_turn_a p_base_a p_fturn_a mult v
        s_left dir_hist dist_hist data_id t_prev st st_old apple_old
        id_old tgt t_dist t_angle near_old timer st_old_tgt
  end.

Definition with_speed_left (v : R) (c : Ctx) : Ctx :=
  match c with
  | mkCtx p_turn p_base p_fturn p_turn_a p_base_a p_fturn_a mult
      s_right s_left dir_hist dist_hist data_id t_prev st st_old
      apple_old id_old tgt t_dist t_angle near_old timer st_old_tgt =>
      mkCtx p_turn p_base p_fturn p_turn_a p_base_a p_fturn_a mult
        s_right v dir_hist dist_hist data_id t_prev st st_old
        apple_old id_old tgt t_dist t_angle near_old timer st_old_tgt
  end.

Definition with_robot_dir_hist (v : list R) (c : Ctx) : Ctx :=
  match c with
  | mkCtx p_turn p_base p_fturn p_turn_a p_base_a p_fturn_a mult
      s_right s_left dir_hist dist_hist data_id t_prev st st_old
      apple_old id_old tgt t_dist t_angle near_old timer st_old_tgt =>
      mkCtx p_turn p_base p_fturn p_turn_a p_base_a p_fturn_a mult
        s_right s_left v dist_hist data_id t_prev st st_old apple_old
        id_old tgt t_dist t_angle near_old timer st_old_tgt
  end.

Definition with_robot_dist_hist (v : list xreal) (c : Ctx) : Ctx :=
  match c with
  | mkCtx p_turn p_base p_fturn p_turn_a p_base_a p_fturn_a mult
      s_right s_left dir_hist dist_hist data_id t_prev st st_old
      apple_old id_old tgt t_dist t_angle near_old timer st_old_tgt =>
      mkCtx p_turn p_base p_fturn p_turn_a p_base_a p_fturn_a mult
        s_right s_left dir_hist v data_id t_prev st st_old apple_old
        id_old tgt t_dist t_angle near_old timer st_old_tgt
  end.

Definition with_robot_dir_data_id (v : Z) (c : Ctx) : Ctx :=
  match c with
  | mkCtx p_turn p_base p_fturn p_turn_a p_base_a p_fturn_a mult
      s_right s_left dir_hist dist_hist data_id t_prev st st_old
      apple_old id_old tgt t_dist t_angle near_old timer st_old_tgt =>
      mkCtx p_turn p_base p_fturn p_turn_a p_base_a p_fturn_a mult
        s_right s_left dir_hist dist_hist v t_prev st st_old apple_old
        id_old tgt t_dist t_angle near_old timer st_old_tgt
  end.

Definition with_t_old (v : R) (c : Ctx) : Ctx :=
  match c with
  | mkCtx p_turn p_base p_fturn p_turn_a p_base_a p_fturn_a mult
      s_right s_left dir_hist dist_hist data_id t_prev st st_old
      apple_old id_old tgt t_dist t_angle near_old timer st_old_tgt =>
      mkCtx p_turn p_base p_fturn p_turn_a p_base_a p_fturn_a mult
        s_right s_left dir_hist dist_hist data_id v st st_old
        apple_old id_old tgt t_dist t_angle near_old timer st_old_tgt
  end.

Definition with_state (v : State) (c : Ctx) : Ctx :=
  match c with
  | mkCtx p_turn p_base p_fturn p_turn_a p_base_a p_fturn_a mult
      s_right s_left dir_hist dist_hist data_id t_prev st st_old
      apple_old id_old tgt t_dist t_angle near_old timer st_old_tgt =>
      mkCtx p_turn p_base p_fturn p_turn_a p_base_a p_fturn_a mult
        s_right s_left dir_hist dist_hist data_id t_prev v st_old
        apple_old id_old tgt t_dist t_angle near_old timer st_old_tgt
  end.

Definition with_state_old (v : option State) (c : Ctx) : Ctx :=
  match c with
  | mkCtx p_turn p_base p_fturn p_turn_a p_base_a p_fturn_a mult
      s_right s_left dir_hist dist_hist data_id t_prev st st_old
      apple_old id_old tgt t_dist t_angle near_old timer st_old_tgt =>
      mkCtx p_turn p_base p_fturn p_turn_a p_base_a p_fturn_a mult
        s_right s_left dir_hist dist_hist data_id t_prev st v
        apple_old id_old tgt t_dist t_angle near_old timer st_old_tgt
  end.

Definition with_closest_apple_old (v : Point + option Apple) (c : Ctx) : Ctx :=
  match c with
  | mkCtx p_turn p_base p_fturn p_turn_a p_base_a p_fturn_a mult
      s_right s_left dir_hist dist_hist data_id t_prev st st_old
      apple_old id_old tgt t_dist t_angle near_old timer st_old_tgt =>
      mkCtx p_turn p_base p_fturn p_turn_a p_base_a p_fturn_a mult
        s_right s_left dir_hist dist_hist data_id t_prev st st_old v
        id_old tgt t_dist t_angle near_old timer st_old_tgt
  end.

Definition with_closest_apple_id_old (v : Z) (c : Ctx) : Ctx :=
  match c with
  | mkCtx p_turn p_base p_fturn p_turn_a p_base_a p_fturn_a mult
      s_right s_left dir_hist dist_hist data_id t_prev st st_old
      apple_old id_old tgt t_dist t_angle near_old timer st_old_tgt =>
      mkCtx p_turn p_base p_fturn p_turn_a p_base_a p_fturn_a mult
        s_right s_left dir_hist dist_hist data_id t_prev st st_old
        apple_old v tgt t_dist t_angle near_old timer st_old_tgt
  end.

Definition with_target (v : option Point) (c : Ctx) : Ctx :=
  match c with
  | mkCtx p_turn p_base p_fturn p_turn_a p_base_a p_fturn_a mult
      s_right s_left dir_hist dist_hist data_id t_prev st st_old
      apple_old id_old tgt t_dist t_angle near_old timer st_old_tgt =>
      mkCtx p_turn p_base p_fturn p_turn_a p_base_a p_fturn_a mult
        s_right s_left dir_hist dist_hist data_id t_prev st st_old
        apple_old id_old v t_dist t_angle near_old timer st_old_tgt
  end.

Definition with_target_dist (v : R) (c : Ctx) : Ctx :=
  match c with
  | mkCtx p_turn p_base p_fturn p_turn_a p_base_a p_fturn_a mult
      s_right s_left dir_hist dist_hist data_id t_prev st st_old
      apple_old id_old tgt t_dist t_angle near_old timer st_old_tgt =>
      mkCtx p_turn p_base p_fturn p_turn_a p_base_a p_fturn_a mult
        s_right s_left dir_hist dist_hist data_id t_prev st st_old
        apple_old id_old tgt v t_angle near_old timer st_old_tgt
  end.

Definition with_target_angle (v : R) (c : Ctx) : Ctx :=
  match c with
  | mkCtx p_turn p_base p_fturn p_turn_a p_base_a p_fturn_a mult
      s_right s_left dir_hist dist_hist data_id t_prev st st_old
      apple_old id_old tgt t_dist t_angle near_old timer st_old_tgt =>
      mkCtx p_turn p_base p_fturn p_turn_a p_base_a p_fturn_a mult
        s_right s_left dir_hist dist_hist data_id t_prev st st_old
        apple_old id_old tgt t_dist v near_old timer st_old_tgt
  end.

Definition with_robot_near_target_old (v : option bool) (c : Ctx) : Ctx :=
  match c with
  | mkCtx p_turn p_base p_fturn p_turn_a p_base_a p_fturn_a mult
      s_right s_left dir_hist dist_hist data_id t_prev st st_old
      apple_old id_old tgt t_dist t_angle near_old timer st_old_tgt =>
      mkCtx p_turn p_base p_fturn p_turn_a p_base_a p_fturn_a mult
        s_right s_left dir_hist dist_hist data_id t_prev st st_old
        apple_old id_old tgt t_dist t_angle v timer st_old_tgt
  end.

Definition with_timer_near_target (v : option R) (c : Ctx) : Ctx :=
  match c with
  | mkCtx p_turn p_base p_fturn p_turn_a p_base_a p_fturn_a mult
      s_right s_left dir_hist dist_hist data_id t_prev st st_old
      apple_old id_old tgt t_dist t_angle near_old timer st_old_tgt =>
      mkCtx p_turn p_base p_fturn p_turn_a p_base_a p_fturn_a mult
        s_right s_left dir_hist dist_hist data_id t_prev st st_old
        apple_old id_old tgt t_dist t_angle near_old v st_old_tgt
  end.

Definition with_state_old_target (v : option State) (c : Ctx) : Ctx :=
  match c with
  | mkCtx p_turn p_base p_fturn p_turn_a p_base_a p_fturn_a mult
      s_right s_left dir_hist dist_hist data_id t_prev st st_old
      apple_old id_old tgt t_dist t_angle near_old timer st_old_tgt =>
      mkCtx p_turn p_base p_fturn p_turn_a p_base_a p_fturn_a mult
        s_right s_left dir_hist dist_hist data_id t_prev st st_old
        apple_old id_old tgt t_dist t_angle near_old timer v
  end.

(** ** The main loop *)

(** Start-up configuration: the home point and the team tag, both read
    from the first snapshot before the loop starts. *)
Record Config : Type := mkConfig {
  home : Point;
  team_my_tag : string
}.

(** What one iteration of the loop reads from outside: the clock at the
    top of the loop, the answer of [conn.request()] ([None] for the [-1]
    of a packet that does not parse), and the clock as read inside the
    first and the second [PID.update] call of the iteration. *)
Record TickInput : Type := mkTickInput {
  time_now : R;
  request : option GameState;
  time_update1 : R;
  time_update2 : R
}.

(** [state != state_old], where [state_old] starts as [-1] ([None]). *)
Definition state_differs (s : State) (old : option State) : bool :=
  match old with
  | Some s' => negb (State_eqb s s')
  | None => true
  end.

(** The loop over [game_state['robots']]: the last entry with our id
    wins. *)
Definition find_robot (rs : list Robot) : option Point * option R :=
  fold_left
    (fun acc robot_data =>
       if (robot_id robot_data =? ROBOT_ID)%Z
       then (Some (robot_position robot_data), robot_direction robot_data)
       else acc)
    rs (None, None).

(** [popleft()] followed by [append(v)]. *)
Definition push {A : Type} (q : list A) (v : A) : result (list A) :=
  match q with
  | [] => Raise IndexError
  | _ :: q' => Ok (q' ++ [v])
  end.

(** [sum] of a list of booleans. *)
Fixpoint sum (l : list bool) : nat :=
  match l with
  | [] => 0
  | b :: l' => ((if b then 1 else 0) + sum l')%nat
  end.

(** [sum([abs(a) > DIR_EPS for a in robot_dir_hist]) == 0] *)
Definition dir_settled (c : Ctx) : bool :=
  (sum (map (fun a => Rgtb (Rabs a) DIR_EPS) (robot_dir_hist c)) =? 0)%nat.

(** [sum([d > DIST_EPS for d in robot_dist_hist]) == 0] *)
Definition dist_settled (c : Ctx) : bool :=
  (sum (map (fun d => xgtb d DIST_EPS) (robot_dist_hist c)) =? 0)%nat.

Definition stop_speeds (c : Ctx) : Ctx :=
  with_speed_left 0 (with_speed_right 0 c).

Section States.

Variable cfg : Config.
Variable game_state : GameState.
Variable robot_pos : Point.
Variable robot_dir : R.
Variable time_now_ : R.       (* [time_now] of this iteration *)
Variable loop_time : R.
Variable state_changed : bool.
Variable now1 now2 : R.       (* the clock inside the [update] calls *)

Definition state_GET_APPLE (c : Ctx) : result (Ctx * list action) :=
  closest_apple <-
    deref (get_closest_good_apple game_state robot_pos
             (closest_apple_id_old c)) ;;
  let c := with_closest_apple_id_old (apple_id closest_apple) c in
  let c := with_target (Some (apple_position closest_apple)) c in
  let c := with_target_dist
             (get_distance robot_pos (apple_position closest_apple)) c in
  let c := with_target_angle
             (get_angle robot_pos robot_dir (apple_position closest_apple))
             c in
  let c := stop_speeds c in
  if Rgtb (target_dist c) DIST_EPS then
    Ok (with_robot_near_target_old (Some false) (with_state GET_TURN c), [])
  else
    Ok (with_state HOME c, []).

Definition state_HOME (c : Ctx) : result (Ctx * list action) :=
  let c := with_state_old_target (Some HOME) c in
  let c := with_target (Some (home cfg)) c in
  let c := with_target_dist (get_distance robot_pos (home cfg)) c in
  let c := with_target_angle (get_angle robot_pos robot_dir (home cfg)) c in
  let c := stop_speeds c in
  if Rgtb (target_dist c) DIST_EPS then
    Ok (with_robot_near_target_old (Some false) (with_state HOME_TURN c), [])
  else
    Ok (with_state GET_APPLE c, []).

(** The lines every turn and drive state starts with: look the closest
    apple up again (the result is only stored), then measure distance
    and bearing to the stored target. *)
Definition measure (c : Ctx) : result Ctx :=
  let closest_apple :=
    get_closest_good_apple game_state robot_pos (closest_apple_id_old c) in
  let c := with_closest_apple_old (inr closest_apple) c in
  tgt <- attrs (target c) ;;
  let c := with_target_dist (get_distance robot_pos tgt) c in
  Ok (with_target_angle (get_angle robot_pos robot_dir tgt) c).

Definition state_GET_TURN (c : Ctx) : result (Ctx * list action) :=
  c <- measure c ;;
  let log := [file_write (target_angle c) time_now_] in
  let c := if state_changed
           then with_PID_turn (PID.reset0 (PID_turn c)) c else c in
  if dir_settled c then
    let c := with_state GET_STRAIGHT (stop_speeds c) in
    Ok (with_robot_dir_data_id (robot_dir_data_id c + 1) c, log)
  else
    '(pid, u) <- PID.update (PID_turn c) now1 (target_angle c) ;;
    let c := with_PID_turn pid c in
    Ok (with_speed_left u (with_speed_right (- u) c), log).

(** The near-target watchdog, shared by both drive states: the flag, the
    re-arming on its rising edge (where [HOME_STRAIGHT] also lowers its
    multiplier, [on_enter]) and the countdown. *)
Definition watchdog (on_enter : Ctx -> Ctx) (c : Ctx) : result Ctx :=
  let robot_near_target := Rltb (target_dist c) DIST_NEAR in
  near_old <- global (robot_near_target_old c) ;;
  let c := if negb near_old && robot_near_target
           then with_timer_near_target (Some TIMER_NEAR_TARGET) (on_enter c)
           else c in
  c <- (if robot_near_target then
          timer <- global (timer_near_target c) ;;
          Ok (with_timer_near_target (Some (timer - loop_time)) c)
        else Ok c) ;;
  Ok (with_robot_near_target_old (Some robot_near_target) c).

Definition state_GET_STRAIGHT (c : Ctx) : result (Ctx * list action) :=
  c <- measure c ;;
  let c :=
    if state_changed then
      let c := with_PID_frwd_base (PID.reset0 (PID_frwd_base c)) c in
      let c := with_PID_frwd_turn (PID.reset0 (PID_frwd_turn c)) c in
      with_timer_near_target (Some TIMER_NEAR_TARGET) c
    else c in
  c <- watchdog (fun c => c) c ;;
  if dist_settled c then
    let c := stop_speeds c in
    Ok (with_state HOME c,
        [run_forever motor_right (- 0); run_forever motor_left (- 0)]
        ++ claws_close)
  else
    timer <- global (timer_near_target c) ;;
    if Rltb timer 0 then
      Ok (with_state GET_TURN (stop_speeds c), [])
    else
      '(pid, u_turn) <- PID.update (PID_frwd_turn c) now1 (target_angle c) ;;
      let c := with_PID_frwd_turn pid c in
      '(pid, u_base) <- PID.update (PID_frwd_base c) now2 (target_dist c) ;;
      let c := with_PID_frwd_base pid c in
      let u_base := Rmin (Rmax u_base (- SPEED_BASE_MAX)) SPEED_BASE_MAX in
      Ok (with_speed_left (- u_base + u_turn)
            (with_speed_right (- u_base - u_turn) c), []).

Definition state_HOME_TURN (c : Ctx) : result (Ctx * list action) :=
  c <- measure c ;;
  let c := if state_changed
           then with_PID_turn_apple (PID.reset0 (PID_turn_apple c)) c
           else c in
  if dir_settled c then
    Ok (with_state HOME_STRAIGHT (stop_speeds c), [])
  else
    '(pid, u) <- PID.update (PID_turn_apple c) now1 (target_angle c) ;;
    let c := with_PID_turn_apple pid c in
    Ok (with_speed_left u (with_speed_right (- u) c), []).

Definition state_HOME_STRAIGHT (c : Ctx) : result (Ctx * list action) :=
  let closest_apple :=
    get_closest_good_apple game_state robot_pos (closest_apple_id_old c) in
  let c := with_closest_apple_old (inr closest_apple) c in
  let smoDoma :=
    if (team_my_tag cfg =? "team1")%string
    then in_team_one robot_pos else in_team_two robot_pos in
  tgt <- attrs (target c) ;;
  let c := with_target_dist (get_distance robot_pos tgt) c in
  let c := with_target_angle (get_angle robot_pos robot_dir tgt) c in
  let c :=
    if state_changed then
      let c := with_PID_frwd_base_apple
                 (PID.reset0 (PID_frwd_base_apple c)) c in
      let c := with_PID_frwd_turn_apple
                 (PID.reset0 (PID_frwd_turn_apple c)) c in
      let c := with_timer_near_target (Some TIMER_NEAR_TARGET) c in
      with_pid_frwd_base_apple_multiplier 1 c
    else c in
  c <- watchdog (with_pid_frwd_base_apple_multiplier (1 / 10)) c ;;
  if dist_settled c || smoDoma then
    let c := stop_speeds c in
    Ok (with_state BACK_OFF c,
        [run_forever motor_right (- 0); run_forever motor_left (- 0)]
        ++ claws_open)
  else
    timer <- global (timer_near_target c) ;;
    if Rltb timer 0 then
      Ok (with_state HOME_TURN (stop_speeds c), [])
    else
      '(pid, u) <- PID.update (PID_frwd_turn_apple c) now1 (target_angle c) ;;
      let u_turn := u * pid_frwd_base_apple_multiplier c in
      let c := with_PID_frwd_turn_apple pid c in
      '(pid, u) <- PID.update (PID_frwd_base_apple c) now2 (target_dist c) ;;
      let u_base := u * pid_frwd_base_apple_multiplier c in
      let c := with_PID_frwd_base_apple pid c in
      let u_base := Rmin (Rmax u_base (- SPEED_BASE_MAX)) SPEED_BASE_MAX in
      Ok (with_speed_left (- u_base + u_turn)
            (with_speed_right (- u_base - u_turn) c), []).

Definition state_BACK_OFF (c : Ctx) : result (Ctx * list action) :=
  Ok (with_state GET_APPLE c,
      [run_forever motor_right 200; run_forever motor_left 200; sleep 1;
       stop_brake motor_left; stop_brake motor_right]).

(** The [if]/[elif] chain on [state]. *)
Definition eval_state (c : Ctx) : result (Ctx * list action) :=
  match state c with
  | GET_APPLE => state_GET_APPLE c
  | HOME => state_HOME c
  | GET_TURN => state_GET_TURN c
  | GET_STRAIGHT => state_GET_STRAIGHT c
  | HOME_TURN => state_HOME_TURN c
  | HOME_STRAIGHT => state_HOME_STRAIGHT c
  | BACK_OFF => state_BACK_OFF c
  end.

End States.

(** The clamp and the rounding of one wheel speed at the end of the
    iteration. *)
Definition limit_speed (speed : R) : Z :=
  py_round (Rmin (Rmax speed (- SPEED_MAX)) SPEED_MAX).

(** The branch taken when the game is on and the robot is visible. *)
Definition tick_alive (cfg : Config) (game_state : GameState)
    (robot_pos : Point) (robot_dir : R) (loop_time : R)
    (state_changed : bool) (inp : TickInput) (c : Ctx)
    : result (Ctx * list action) :=
  dir_hist <- push (robot_dir_hist c) (target_angle c) ;;
  let c := with_robot_dir_hist dir_hist c in
  dist_hist <- push (robot_dist_hist c) (Fin (target_dist c)) ;;
  let c := with_robot_dist_hist dist_hist c in
  '(c, acts) <- eval_state cfg game_state robot_pos robot_dir (time_now inp)
                  loop_time state_changed
                  (time_update1 inp) (time_update2 inp) c ;;
  let right := limit_speed (speed_right c) in
  let c := with_speed_right (IZR right) c in
  let left := limit_speed (speed_left c) in
  let c := with_speed_left (IZR left) c in
  Ok (c, acts ++ [run_forever motor_right (- right);
                  run_forever motor_left (- left)]).

(** One iteration of [while do_main_loop and not btn.down]. *)
Definition tick (cfg : Config) (c : Ctx) (inp : TickInput)
    : result (Ctx * list action) :=
  let loop_time := time_now inp - t_old c in
  let c := with_t_old (time_now inp) c in
  let state_changed := state_differs (state c) (state_old c) in
  let c := with_state_old (Some (state c)) c in
  match request inp with
  | None => Ok (c, [])
  | Some game_state =>
      let game_on := gameOn game_state in
      match find_robot (robots game_state) with
      | (Some robot_pos, Some robot_dir) =>
          if game_on then
            tick_alive cfg game_state robot_pos robot_dir loop_time
              state_changed inp c
          else Ok (c, [stop_brake motor_left; stop_brake motor_right])
      | _ => Ok (c, [stop_brake motor_left; stop_brake motor_right])
      end
  end.

(** Consecutive iterations; the actions are concatenated. *)
Fixpoint run (cfg : Config) (c : Ctx) (inps : list TickInput)
    : result (Ctx * list action) :=
  match inps with
  | [] => Ok (c, [])
  | inp :: inps' =>
      '(c', acts) <- tick cfg c inp ;;
      '(c'', acts') <- run cfg c' inps' ;;
      Ok (c'', acts ++ acts')
  end.

(** The globals as the program sets them before the loop; [t0] is the
    clock read into [t_old]. *)
Definition init_ctx (t0 : R) : Ctx :=
  mkCtx
    (PID.init 0 PID_TURN_KP (Some PID_TURN_KI) (Some PID_TURN_KD)
       (Some PID_TURN_INT_MAX))
    (PID.init 0 PID_FRWD_KP (Some PID_FRWD_KI) (Some PID_FRWD_KD)
       (Some PID_FRWD_INT_MAX))
    (PID.init 0 PID_FRWD_TURN_KP (Some PID_FRWD_TURN_KI)
       (Some PID_FRWD_TURN_KD) (Some PID_FRWD_TURN_INT_MAX))
    (PID.init 0 PID_TURN_APPLE_KP (Some PID_TURN_APPLE_KI)
       (Some PID_TURN_APPLE_KD) (Some PID_TURN_APPLE_INT_MAX))
    (PID.init 0 PID_FRWD_APPLE_KP (Some PID_FRWD_APPLE_KI)
       (Some PID_FRWD_APPLE_KD) (Some PID_FRWD_APPLE_INT_MAX))
    (PID.init 0 PID_FRWD_TURN_APPLE_KP (Some PID_FRWD_TURN_APPLE_KI)
       (Some PID_FRWD_TURN_APPLE_KD) (Some PID_FRWD_TURN_APPLE_INT_MAX))
    1 0 0
    (repeat 180 HIST_QUEUE_LENGTH)
    (repeat PInf HIST_QUEUE_LENGTH)
    0 t0 GET_APPLE None (inl (mkPoint 1750 750)) (-1) None 0 0 None None None.

(** ** Vocabulary of the properties *)

(** What the iteration extracts from the feed when it goes on to evaluate
    the state machine: the snapshot, the position and the heading of the
    robot; [None] when the packet did not parse, the game is off or the
    robot is not visible. *)
Definition evaluated (inp : TickInput) : option (GameState * Point * R) :=
  match request inp with
  | Some game_state =>
      match find_robot (robots game_state) with
      | (Some robot_pos, Some robot_dir) =>
          if gameOn game_state
          then Some (game_state, robot_pos, robot_dir) else None
      | _ => None
      end
  | None => None
  end.

(** The globals after the first lines of an iteration: the clock and the
    state-change detection. *)
Definition start_tick (inp : TickInput) (c : Ctx) : Ctx :=
  with_state_old (Some (state c)) (with_t_old (time_now inp) c).

Definition drive_state (s : State) : bool :=
  match s with
  | GET_STRAIGHT | HOME_STRAIGHT => true
  | _ => false
  end.

(** The turn state a drive state falls back to. *)
Definition turn_of (s : State) : State :=
  match s with
  | HOME_STRAIGHT => HOME_TURN
  | _ => GET_TURN
  end.

(** The state a drive state leaves to on arrival. *)
Definition arrival_of (s : State) : State :=
  match s with
  | HOME_STRAIGHT => BACK_OFF
  | _ => HOME
  end.

(** The arrival test of a drive state as an iteration starting from [c]
    with the robot at [robot_pos] evaluates it: the distance window after
    this iteration's push, and for [HOME_STRAIGHT] the home-zone test. *)
Definition arrival_met (cfg : Config) (s : State) (c : Ctx)
    (robot_pos : Point) : bool :=
  let settled :=
    (sum (map (fun d => xgtb d DIST_EPS)
            (tl (robot_dist_hist c) ++ [Fin (target_dist c)])) =? 0)%nat in
  match s with
  | HOME_STRAIGHT =>
      settled
      || (if (team_my_tag cfg =? "team1")%string
          then in_team_one robot_pos else in_team_two robot_pos)
  | _ => settled
  end.

(** The value of the watchdog countdown after an evaluated iteration of a
    drive state [s]: re-armed when the state was just entered or the
    near-target flag rises, decremented by the loop time while the robot
    is near. *)
Definition countdown (s : State) (c : Ctx) (near_old near : bool)
    (loop_time : R) : option R :=
  let armed := state_differs s (state_old c) || (negb near_old && near) in
  let base := if armed then Some TIMER_NEAR_TARGET
              else timer_near_target c in
  if near then option_map (fun t => t - loop_time) base else base.

(** The watchdog is armed for a lingering execution that has spent
    [spent] seconds near the target: either the next evaluated iteration
    arms it (the state was just entered or the near-target flag is down)
    and nothing is spent yet, or the countdown stands at the full
    duration minus the time spent, with the flag up and the state
    entered before. *)
Definition armed (s : State) (c : Ctx) (spent : R) : Prop :=
  state c = s /\ robot_dir_hist c <> [] /\ robot_dist_hist c <> [] /\
  ((spent = 0 /\
    exists was_near,
      robot_near_target_old c = Some was_near /\
      (state_differs s (state_old c) = true \/ was_near = false)) \/
   (timer_near_target c = Some (TIMER_NEAR_TARGET - spent) /\
    robot_near_target_old c = Some true /\
    state_old c = Some s)).

(** An execution that lingers near the target in drive state [s]: a list
    of iterations with the context each one ends in.  On every iteration
    the state machine is evaluated, the robot is nearer than [DIST_NEAR]
    to the target, the arrival test fails, the near-target time spent so
    far ([spent] plus the loop time of this iteration) does not exceed
    [TIMER_NEAR_TARGET], and the iteration completes. *)
Fixpoint lingers (cfg : Config) (s : State) (c : Ctx) (spent : R)
    (trace : list (TickInput * Ctx)) : Prop :=
  match trace with
  | [] => True
  | (inp, c') :: trace' =>
      (exists game_state robot_pos robot_dir tgt acts,
          evaluated inp = Some (game_state, robot_pos, robot_dir) /\
          target c = Some tgt /\
          get_distance robot_pos tgt < DIST_NEAR /\
          arrival_met cfg s c robot_pos = false /\
          spent + (time_now inp - t_old c) <= TIMER_NEAR_TARGET /\
          tick cfg c inp = Ok (c', acts)) /\
      lingers cfg s c' (spent + (time_now inp - t_old c)) trace'
  end.

(** The context an execution ends in, and the near-target time it has
    spent. *)
Fixpoint last_ctx (c : Ctx) (trace : list (TickInput * Ctx)) : Ctx :=
  match trace with
  | [] => c
  | (_, c') :: trace' => last_ctx c' trace'
  end.

Fixpoint time_spent (c : Ctx) (spent : R) (trace : list (TickInput * Ctx))
    : R :=
  match trace with
  | [] => spent
  | (inp, c') :: trace' =>
      time_spent c' (spent + (time_now inp - t_old c)) trace'
  end.

(** Iterations that do not evaluate [GET_APPLE]: the state is another one,
    or the state machine is not evaluated. *)
Fixpoint no_seek (cfg : Config) (c : Ctx) (trace : list (TickInput * Ctx))
    : Prop :=
  match trace with
  | [] => True
  | (inp, c') :: trace' =>
      (state c <> GET_APPLE \/ evaluated inp = None) /\
      (exists acts, tick cfg c inp = Ok (c', acts)) /\
      no_seek cfg c' trace'
  end.

(** ** Example data *)

Definition cfg0 : Config := mkConfig (mkPoint 270 1010) "team1".

Definition apple7 : Apple := mkApple 7 "appleGood" (mkPoint 1500 1000).
Definition apple8 : Apple := mkApple 8 "appleGood" (mkPoint 2000 1000).
Definition apple9 : Apple := mkApple 9 "appleBad" (mkPoint 1100 1000).

(** Our robot at (1000, 1000), heading east. *)
Definition robot_mid : Robot := mkRobot 35 (mkPoint 1000 1000) (Some 0).

(** Only a bad apple on the field. *)
Definition gs_no_good : GameState := mkGameState true 100 [robot_mid] [apple9].

Definition gs_apples : GameState :=
  mkGameState true 100 [robot_mid] [apple9; apple7; apple8].

(** Another robot only: ours is not visible. *)
Definition gs_hidden : GameState :=
  mkGameState true 100 [mkRobot 12 (mkPoint 50 50) (Some 90)] [apple7].

(** The first iteration of the program on a snapshot without a good
    apple. *)
Definition input_no_good : TickInput := mkTickInput 1 (Some gs_no_good) 1 1.

(** An iteration in which our robot is not on the camera. *)
Definition input_hidden : TickInput := mkTickInput 2 (Some gs_hidden) 2 2.

(** The robot at (1000, 1000) heading north, the target due east, and a
    turn regulator with a gain of a million: the first iteration of
    [GET_TURN] asks for speeds of ninety million and commands 800. *)
Definition ctx_turning : Ctx :=
  with_state GET_TURN
    (with_target (Some (mkPoint 1500 1000))
       (with_PID_turn (PID.init 0 1000000 None None None) (init_ctx 0))).

Definition gs_north : GameState :=
  mkGameState true 100 [mkRobot 35 (mkPoint 1000 1000) (Some 90)] [apple7].

Definition input_north : TickInput := mkTickInput 1 (Some gs_north) 1 1.

(** The robot stands on the home point, on top of apple 7; apple 8 lies
    630 mm to the east. *)
Definition apple_here : Apple := mkApple 7 "appleGood" (mkPoint 270 1010).
Definition apple_east : Apple := mkApple 8 "appleGood" (mkPoint 900 1010).
Definition gs_home : GameState :=
  mkGameState true 100 [mkRobot 35 (mkPoint 270 1010) (Some 0)]
    [apple_here; apple_east].
Definition input_home (t : R) : TickInput := mkTickInput t (Some gs_home) t t.

(** [GET_STRAIGHT] just entered at clock 10, 500 mm from the target at
    (1050, 1000); the iterations at clocks 12 and 14 find the robot at
    (1000, 1000), 50 mm from it. *)
Definition ctx_driving : Ctx :=
  with_state GET_STRAIGHT
    (with_state_old (Some GET_TURN)
       (with_target (Some (mkPoint 1050 1000))
          (with_robot_near_target_old (Some false)
             (with_robot_dist_hist [Fin 500; Fin 500; Fin 500]
                (with_target_dist 500 (with_t_old 10 (init_ctx 0))))))).

Definition input_near (t : R) : TickInput :=
  mkTickInput t (Some gs_apples) t t.

(** A feed from the start of the program on which the watchdog fires
    in a second visit of [GET_STRAIGHT].  The robot heads east on the row
    of apple 7, which lies at (1500, 1000).  Clock 1: [GET_APPLE] selects
    apple 7, 500 mm away.  Clocks 2 and 3: [GET_TURN] until the bearing
    window is settled.  Clock 4: [GET_STRAIGHT] is entered with the robot
    50 mm from the apple.  Clock 8: still 50 mm away and not arrived, five
    seconds near the target: the watchdog fires.  Clock 9: [GET_TURN],
    the robot seen 500 mm away, hands over to [GET_STRAIGHT] again. *)
Definition gs_close : GameState :=
  mkGameState true 100 [mkRobot 35 (mkPoint 1450 1000) (Some 0)]
    [apple9; apple7; apple8].

Definition input_far (t : R) : TickInput := mkTickInput t (Some gs_apples) t t.

Definition input_close (t : R) : TickInput :=
  mkTickInput t (Some gs_close) t t.

Definition feed_revisit : list TickInput :=
  [input_far 1; input_far 2; input_far 3; input_close 4; input_close 8;
   input_far 9].

(** The iteration after the second entry into [GET_STRAIGHT] does not see
    the robot. *)
Definition input_lost : TickInput := mkTickInput 10 (Some gs_hidden) 10 10.

(** ** The other helpers of [Main.py] *)

(** One iteration of the loop of [get_closest_bad_apple]. *)
Definition closest_bad_step (robot_pos_arg : Point) (closest_id : Z)
    (acc : option Apple * xreal) (apple : Apple) : option Apple * xreal :=
  if (apple_type apple =? "appleBad")%string
     && negb (apple_id apple =? closest_id)%Z
  then
    let atm_dist := get_distance robot_pos_arg (apple_position apple) in
    if xltb atm_dist (snd acc) then (Some apple, Fin atm_dist) else acc
  else acc.

Definition get_closest_bad_apple (game_state_arg : GameState)
    (robot_pos_arg : Point) (closest_id : Z) : option Apple :=
  fst (fold_left (closest_bad_step robot_pos_arg closest_id)
         (apples game_state_arg) (None, PInf)).

(** The loop of [get_robot_pos].  Its body reads the global [robot_data],
    the variable the [for] of the main loop leaves behind, not its own
    loop variable [robot_data_iter]; [robot_data] is [None] while that
    global is unassigned.  Falling off the end returns [None]. *)
Fixpoint get_robot_pos_loop (rs : list Robot) (robot_id_arg : Z)
    (robot_data : option Robot) : result (option Point) :=
  match rs with
  | [] => Ok None
  | robot_data_iter :: rs' =>
      if (robot_id robot_data_iter =? robot_id_arg)%Z then
        r <- global robot_data ;;
        Ok (Some (robot_position r))
      else get_robot_pos_loop rs' robot_id_arg robot_data
  end.

Definition get_robot_pos (game_state_arg : GameState) (robot_id_arg : Z)
    (robot_data : option Robot) : result (option Point) :=
  get_robot_pos_loop (robots game_state_arg) robot_id_arg robot_data.

(** ** Rounded arithmetic

    Where a property depends on how the floats round, the arithmetic of
    the code is modelled with its rounding: every operation on floats
    computes the exact result and rounds it with [rnd], and the functions
    of the [math] module are parameters.  Comparisons, negation and
    [abs] are exact on floats.  The results hold for every [rnd] with the
    relative error of binary64 round-to-nearest, so they hold for the
    floats of the platform as long as nothing overflows or underflows. *)

(** The unit roundoff of binary64. *)
Definition unit_roundoff : R := / 2 ^ 53.

(** [rnd] rounds with a relative error of at most [unit_roundoff]. *)
Definition rounds (rnd : R -> R) : Prop :=
  forall v, Rabs (rnd v - v) <= unit_roundoff * Rabs v.

(** [f] returns [g] within an absolute error of [err], and within a
    relative error of [err]. *)
Definition approximates (f g : R -> R) (err : R) : Prop :=
  forall v, Rabs (f v - g v) <= err.

Definition approximates_rel (f g : R -> R) (err : R) : Prop :=
  forall v, Rabs (f v - g v) <= err * Rabs (g v).

(** The exact value of [math.radians]. *)
Definition radians (d : R) : R := d * (PI / 180).

(** What one round of [test_delay] observes: the clock before the
    request, whether the answer parsed ([request() != -1]), and the clock
    after it (after [robot_die] has returned, when it is called and
    returns). *)
Record Probe : Type := mkProbe {
  start_time : R;
  parsed : bool;
  end_time : R
}.

(** What a call of [robot_die] does.  The function of that name in
    [Main.py] stops the motors and ends the program with [sys.exit]; the
    callback that [classes/Connection.py] takes as a parameter may as
    well return. *)
Inductive die_outcome : Type :=
| Exits
| Returns.

(** How [test_delay] ends: with the mean delay, inside [robot_die], or
    with [ZeroDivisionError]. *)
Inductive delay_outcome : Type :=
| Delay (mean : R)
| Died
| DivisionByZero.

Module Rounded.
Section Rounded.

Variable rnd : R -> R.

(** [math.atan2], [math.degrees], [math.radians], [math.cos] and
    [math.sin] as the platform computes them. *)
Variable math_atan2 : R -> R -> R.
Variable math_degrees : R -> R.
Variable math_radians : R -> R.
Variable math_cos : R -> R.
Variable math_sin : R -> R.

Definition get_angle (p1 : Point) (a1 : R) (p2 : Point) : R :=
  let a := math_degrees
             (math_atan2 (rnd (y p2 - y p1)) (rnd (x p2 - x p1))) in
  let a_rel := rnd (a - a1) in
  if Rgtb (Rabs a_rel) 180 then
    if Rgtb a_rel 0 then rnd (a_rel - 360) else rnd (a_rel + 360)
  else a_rel.

(** [point_transpose] updates [curr] in place and returns it; the result
    here is the point after the update. *)
Definition point_transpose (curr : Point) (direction : R) : Point :=
  let direction :=
    if Rltb direction 0 then - direction else rnd (360 - direction) in
  mkPoint
    (rnd (x curr + rnd (math_cos (math_radians direction) * 150)))
    (rnd (y curr + rnd (math_sin (math_radians direction) * 150))).

(** The [for] loop of [test_delay], from round [i] on, [remaining] rounds to
    go; [probe i] is what round [i] observes.  [None] when a round ends
    the program in [robot_die]. *)
Fixpoint test_delay_loop (robot_die : die_outcome) (probe : nat -> Probe)
    (remaining : nat) (i : nat) (sum_time : R) : option R :=
  match remaining with
  | O => Some sum_time
  | S remaining' =>
      let start_time := start_time (probe i) in
      let died :=
        if parsed (probe i) then false
        else match robot_die with
             | Exits => true
             | Returns => false
             end in
      if died then None
      else
        let elapsed_time := rnd (end_time (probe i) - start_time) in
        test_delay_loop robot_die probe remaining' (S i)
          (rnd (sum_time + elapsed_time))
  end.

(** [test_delay(robot_die, num_iters)] of [classes/Connection.py]; the
    method of the same name in [Main.py] is the instance whose
    [robot_die] is the global function, which exits. *)
Definition test_delay (robot_die : die_outcome) (probe : nat -> Probe)
    (num_iters : Z) : delay_outcome :=
  match test_delay_loop robot_die probe (Z.to_nat num_iters) 0 0 with
  | None => Died
  | Some sum_time =>
      if (num_iters =? 0)%Z then DivisionByZero
      else Delay (rnd (sum_time / IZR num_iters))
  end.

End Rounded.
End Rounded.

(** The exact sum of the first [n] delays from round [i] on, and their
    mean. *)
Fixpoint delay_sum (probe : nat -> Probe) (n i : nat) : R :=
  match n with
  | O => 0
  | S n' =>
      (end_time (probe i) - start_time (probe i)) + delay_sum probe n' (S i)
  end.

Definition delay_mean (probe : nat -> Probe) (n : nat) : R :=
  delay_sum probe n 0 / INR n.

(** The tolerances of the rounded results: of a relative bearing in
    degrees and of a displacement in millimetres. *)
Definition angle_tol : R := / 2 ^ 38.
Definition point_tol : R := / 2 ^ 35.

(** ** Vocabulary of the further properties *)

(** Setpoint, gains and integral limit of two regulators agree. *)
Definition same_gains (p q : PID.t) : Prop :=
  PID._setpoint p = PID._setpoint q /\ PID._kp p = PID._kp q /\
  PID._ki p = PID._ki q /\ PID._kd p = PID._kd q /\
  PID._integral_limit p = PID._integral_limit q.

(** The six regulators of two contexts have the same gains. *)
Definition same_regulators (c c' : Ctx) : Prop :=
  same_gains (PID_turn c) (PID_turn c') /\
  same_gains (PID_frwd_base c) (PID_frwd_base c') /\
  same_gains (PID_frwd_turn c) (PID_frwd_turn c') /\
  same_gains (PID_turn_apple c) (PID_turn_apple c') /\
  same_gains (PID_frwd_base_apple c) (PID_frwd_base_apple c') /\
  same_gains (PID_frwd_turn_apple c) (PID_frwd_turn_apple c').

(** The arrows of the state machine. *)
Definition successor (s s' : State) : bool :=
  match s, s' with
  | GET_APPLE, (GET_TURN | HOME)
  | HOME, (HOME_TURN | GET_APPLE)
  | GET_TURN, (GET_TURN | GET_STRAIGHT)
  | GET_STRAIGHT, (GET_STRAIGHT | HOME | GET_TURN)
  | HOME_TURN, (HOME_TURN | HOME_STRAIGHT)
  | HOME_STRAIGHT, (HOME_STRAIGHT | BACK_OFF | HOME_TURN)
  | BACK_OFF, GET_APPLE => true
  | _, _ => false
  end.

(** The states that choose a target. *)
Definition targeting (s : State) : bool :=
  match s with
  | GET_APPLE | HOME => true
  | _ => false
  end.

Definition turn_state (s : State) : bool :=
  match s with
  | GET_TURN | HOME_TURN => true
  | _ => false
  end.

(** What the loop keeps true of its globals from the start on. *)
Definition loop_inv (c : Ctx) : Prop :=
  List.length (robot_dir_hist c) = HIST_QUEUE_LENGTH /\
  List.length (robot_dist_hist c) = HIST_QUEUE_LENGTH /\
  0 <= target_dist c /\
  (pid_frwd_base_apple_multiplier c = 1 \/
   pid_frwd_base_apple_multiplier c = 1 / 10) /\
  (exists right left : Z,
      speed_right c = IZR right /\ speed_left c = IZR left /\
      (- 800 <= right <= 800)%Z /\ (- 800 <= left <= 800)%Z) /\
  same_regulators (init_ctx 0) c.

(** ** Data of the further properties *)

Definition eligible_bad (closest_id : Z) (apple : Apple) : bool :=
  (apple_type apple =? "appleBad")%string
  && negb (apple_id apple =? closest_id)%Z.

(** What the loop of [get_closest_bad_apple] has established after the
    entries [l]. *)
Definition closest_bad_inv (pos : Point) (ex : Z) (l : list Apple)
    (acc : option Apple * xreal) : Prop :=
  match acc with
  | (None, d) =>
      d = PInf /\ forall b, In b l -> eligible_bad ex b = false
  | (Some a, d) =>
      d = Fin (get_distance pos (apple_position a)) /\
      eligible_bad ex a = true /\
      exists l1 l2,
        l = l1 ++ a :: l2 /\
        (forall b, In b l1 -> eligible_bad ex b = true ->
           get_distance pos (apple_position a)
           < get_distance pos (apple_position b)) /\
        (forall b, In b l2 -> eligible_bad ex b = true ->
           get_distance pos (apple_position a)
           <= get_distance pos (apple_position b))
  end.

(** The entry asked for is the first of two, the global the second. *)
Definition robot_a : Robot := mkRobot 35 (mkPoint 100 200) (Some 0).

Definition robot_b : Robot := mkRobot 12 (mkPoint 900 800) (Some 0).

Definition gs_two_robots : GameState :=
  mkGameState true 100 [robot_a; robot_b] [].

(** A regulator with an integral gain whose stored integral is already
    large. *)
Definition pid_wound_up : PID.t :=
  PID.mk 0 1 (Some 2) None (Some 100) (Some 0) (Some 5) (Some 1000) (Some 0).

(** Two rounds that take 2 and 4 seconds. *)
Definition two_probes (i : nat) : Probe :=
  match i with
  | O => mkProbe 0 true 2
  | _ => mkProbe 5 true 9
  end.

(** As [ctx_driving], with the last three distances within tolerance. *)
Definition ctx_arriving : Ctx :=
  with_robot_dist_hist [Fin 50; Fin 50; Fin 50]
    (with_target_dist 50 ctx_driving).

(** [HOME_STRAIGHT] under way, the robot standing in the home zone of
    team 1 with the distance window still at infinity. *)
Definition ctx_homing : Ctx :=
  with_state HOME_STRAIGHT
    (with_state_old (Some HOME_STRAIGHT)
       (with_timer_near_target (Some 3)
          (with_target (Some (mkPoint 270 1010))
             (with_robot_near_target_old (Some false) (init_ctx 0))))).

(** [GET_STRAIGHT] just entered for the first time, 500 mm from the
    target. *)
Definition ctx_entered : Ctx :=
  with_target (Some (mkPoint 1500 1000)) ctx_driving.

(** * Properties *)

(** ** Comparisons *)

Lemma Rltb_true (a b : R) : Rltb a b = true <-> a < b.
Proof.
  unfold Rltb. destruct (Rlt_dec a b); split; intros; auto; discriminate.
Qed.

Lemma Rltb_false (a b : R) : Rltb a b = false <-> b <= a.
Proof.
  unfold Rltb. destruct (Rlt_dec a b); split; intros; auto; try discriminate.
  - lra.
  - lra.
Qed.

Lemma Reqb_true (a b : R) : Reqb a b = true <-> a = b.
Proof.
  unfold Reqb. destruct (Req_dec_T a b); split; intros; auto; discriminate.
Qed.

Lemma Reqb_false (a b : R) : Reqb a b = false <-> a <> b.
Proof.
  unfold Reqb. destruct (Req_dec_T a b); split; intros; auto; try discriminate.
  contradiction.
Qed.

(** Decide the comparisons of the goal whose outcome linear arithmetic
    settles. *)
Ltac decide_R :=
  repeat match goal with
    | |- context [Rltb ?a ?b] =>
        first [ rewrite (proj2 (Rltb_true a b)) by lra
              | rewrite (proj2 (Rltb_false a b)) by lra ]
    | |- context [Reqb ?a ?b] =>
        first [ rewrite (proj2 (Reqb_true a b)) by lra
              | rewrite (proj2 (Reqb_false a b)) by lra ]
    end.

(** Name the globals of a context. *)
Ltac open_ctx c :=
  destruct c as
    [p_turn p_base p_fturn p_turn_a p_base_a p_fturn_a mult s_right
     s_left dir_hist dist_hist data_id t_prev st st_old apple_old
     id_old tgt t_dist t_angle near_old timer st_old_tgt]; cbn in *.

(** ** The PID regulator *)

Module PIDFacts.
Import PID.

Lemma init_fresh setpoint kp ki kd lim : fresh (init setpoint kp ki kd lim).
Proof. repeat split. Qed.

Lemma reset_fresh self setpoint kp ki kd lim :
  fresh (reset self setpoint kp ki kd lim).
Proof. repeat split. Qed.

Lemma update_fresh self now m :
  fresh self ->
  update self now m =
    Ok (mk (_setpoint self) (_kp self) (_ki self) (_kd self)
          (_integral_limit self)
          (Some (_setpoint self - m)) (Some now) (Some 0) (Some m),
        _kp self * (_setpoint self - m)).
Proof.
  intros (_ & _ & _ & Hv). unfold update. rewrite Hv. reflexivity.
Qed.

(** C5.  The first [update] after construction or after any [reset]
    returns exactly [kp * (setpoint - measurement)], the proportional
    term alone, and stores integral [0], the error
    [setpoint - measurement] and the clock reading; [reset()] without
    arguments keeps the setpoint, the gains and the integral limit, and
    the [update] that follows it is such a first call. *)
Theorem first_update_proportional :
  (forall setpoint kp ki kd lim now m,
      update (init setpoint kp ki kd lim) now m =
        Ok (mk setpoint kp ki kd lim
              (Some (setpoint - m)) (Some now) (Some 0) (Some m),
            kp * (setpoint - m) + 0 + 0)) /\
  (forall self setpoint kp ki kd lim now m,
      let self' := reset self setpoint kp ki kd lim in
      update self' now m =
        Ok (mk (_setpoint self') (_kp self') (_ki self') (_kd self')
              (_integral_limit self')
              (Some (_setpoint self' - m)) (Some now) (Some 0) (Some m),
            _kp self' * (_setpoint self' - m))) /\
  (forall self now m,
      _setpoint (reset0 self) = _setpoint self /\
      _kp (reset0 self) = _kp self /\
      _ki (reset0 self) = _ki self /\
      _kd (reset0 self) = _kd self /\
      _integral_limit (reset0 self) = _integral_limit self /\
      fresh (reset0 self) /\
      update (reset0 self) now m =
        Ok (mk (_setpoint self) (_kp self) (_ki self) (_kd self)
              (_integral_limit self)
              (Some (_setpoint self - m)) (Some now) (Some 0) (Some m),
            _kp self * (_setpoint self - m))).
Proof.
  split; [|split].
  - intros. rewrite update_fresh by apply init_fresh. simpl.
    do 2 f_equal. ring.
  - intros. apply update_fresh, reset_fresh.
  - intros. repeat split; try reflexivity.
Qed.

Lemma pid_called_once_is_update :
  update (init 0 1 None (Some 2) None) 5 1 =
    Ok (pid_called_once, 1 * (0 - 1)).
Proof. reflexivity. Qed.

(** C3, refuted as stated: the second call, made at the same clock
    reading as the first, raises the division error. *)
Lemma update_dt_zero_counterexample :
  update pid_called_once 5 3 = Raise ZeroDivisionError.
Proof.
  unfold update, pid_called_once; simpl. decide_R. reflexivity.
Qed.

(** C3, as the code has it.  On a regulator that has been called before
    and has [kd] configured, [update] divides by the elapsed time [dt]
    without a guard.  When [dt] is [0] the call raises
    [ZeroDivisionError].  Otherwise it returns [p + i + d]: [p] is
    [kp * error]; [i] is [0] without [ki], and with [ki] it is [ki] times
    the stored integral plus [error * dt], cut to the integral limit when
    one is set; [d] is [kd * (error - last_error) / dt].  The regulator it
    leaves holds the new error, clock, integral and measurement. *)
Theorem update_dt_zero_raises self now m kd e tm acc v :
  _kd self = Some kd ->
  _error self = Some e -> _time self = Some tm ->
  _integral self = Some acc -> _value self = Some v ->
  let dt := now - tm in
  let error := _setpoint self - m in
  let integral := acc + error * dt in
  let i := match _ki self with
           | None => 0
           | Some ki =>
               match _integral_limit self with
               | None => ki * integral
               | Some lim => Rmax (Rmin (ki * integral) lim) ((-1) * lim)
               end
           end in
  (dt = 0 -> update self now m = Raise ZeroDivisionError) /\
  (dt <> 0 ->
   update self now m =
     Ok (mk (_setpoint self) (_kp self) (_ki self) (_kd self)
            (_integral_limit self)
            (Some error) (Some now)
            (match _ki self with
             | None => Some acc
             | Some _ => Some integral
             end)
            (Some m),
         _kp self * error + i + kd * (error - e) / dt)).
Proof.
  intros Hkd He Ht Hi Hv dt error integral i.
  subst dt error integral i.
  unfold update. rewrite Hv, Ht, Hkd, He, Hi.
  simpl. split; intros Hdt.
  - destruct (_ki self); simpl;
      rewrite (proj2 (Reqb_true _ _) Hdt); reflexivity.
  - destruct (_ki self); simpl;
      rewrite (proj2 (Reqb_false _ _) Hdt); reflexivity.
Qed.

(** The second call at the clock reading of the first raises; made two
    seconds later it returns [-3 + 0 + 2 * (-3 - (-1)) / 2]. *)
Lemma update_dt_zero_raises_witness :
  update pid_called_once 5 3 = Raise ZeroDivisionError /\
  update pid_called_once 7 3 =
    Ok (mk 0 1 None (Some 2) None (Some (0 - 3)) (Some 7) (Some 0) (Some 3),
        1 * (0 - 3) + 0 + 2 * ((0 - 3) - (0 - 1)) / (7 - 5)).
Proof.
  split.
  - apply (update_dt_zero_raises pid_called_once 5 3 2 (0 - 1) 5 0 1);
      try reflexivity.
    lra.
  - apply (update_dt_zero_raises pid_called_once 7 3 2 (0 - 1) 5 0 1);
      try reflexivity.
    lra.
Defined.

End PIDFacts.

(** ** The target selector *)

Lemma eligible_spec closest_id apple :
  eligible closest_id apple = true <->
  apple_type apple = "appleGood"%string /\ apple_id apple <> closest_id.
Proof.
  unfold eligible. rewrite andb_true_iff, negb_true_iff.
  rewrite String.eqb_eq, Z.eqb_neq. tauto.
Qed.

Lemma closest_good_step_eq pos ex acc apple :
  closest_good_step pos ex acc apple =
    if eligible ex apple then
      if xltb (get_distance pos (apple_position apple)) (snd acc)
      then (Some apple, Fin (get_distance pos (apple_position apple)))
      else acc
    else acc.
Proof. reflexivity. Qed.

Lemma closest_fold_inv pos ex l :
  closest_inv pos ex l (fold_left (closest_good_step pos ex) l (None, PInf)).
Proof.
  induction l as [|apple l IH] using rev_ind.
  - simpl. split; [reflexivity | intros b []].
  - rewrite fold_left_app. simpl.
    destruct (fold_left _ l _) as [[a|] d]; simpl in IH;
      rewrite closest_good_step_eq; simpl.
    + destruct IH as (-> & Ha & l1 & l2 & -> & Hl1 & Hl2).
      destruct (eligible ex apple) eqn:He; simpl.
      * destruct (Rltb _ _) eqn:Hlt; simpl.
        -- apply Rltb_true in Hlt.
           split; [reflexivity|]. split; [assumption|].
           exists (l1 ++ a :: l2), []. split; [reflexivity|].
           split; [|intros b []].
           intros b Hb Hbe. apply in_app_or in Hb.
           destruct Hb as [Hb|[<-|Hb]].
           ++ specialize (Hl1 b Hb Hbe). lra.
           ++ assumption.
           ++ specialize (Hl2 b Hb Hbe). lra.
        -- apply Rltb_false in Hlt.
           split; [reflexivity|]. split; [assumption|].
           exists l1, (l2 ++ [apple]).
           split; [now rewrite <- app_assoc|]. split; [assumption|].
           intros b Hb Hbe. apply in_app_or in Hb.
           destruct Hb as [Hb|[<-|[]]]; auto.
      * split; [reflexivity|]. split; [assumption|].
        exists l1, (l2 ++ [apple]).
        split; [now rewrite <- app_assoc|]. split; [assumption|].
        intros b Hb Hbe. apply in_app_or in Hb.
        destruct Hb as [Hb|[<-|[]]]; auto. congruence.
    + destruct IH as (-> & Hnone).
      destruct (eligible ex apple) eqn:He; simpl.
      * split; [reflexivity|]. split; [assumption|].
        exists l, []. split; [reflexivity|].
        split; [|intros b []].
        intros b Hb Hbe. rewrite (Hnone b Hb) in Hbe. discriminate.
      * split; [reflexivity|].
        intros b Hb. apply in_app_or in Hb.
        destruct Hb as [Hb|[<-|[]]]; auto.
Qed.

(** C8.  [get_closest_good_apple] returns an entry of the snapshot of type
    ["appleGood"] whose id is not the excluded one; no such entry before
    it in the list is as close to the origin, and none after it is
    closer; it returns [None] exactly when the snapshot has no such
    entry. *)
Theorem get_closest_good_apple_spec (game_state : GameState)
    (robot_pos : Point) (closest_id : Z) :
  match get_closest_good_apple game_state robot_pos closest_id with
  | Some apple =>
      apple_type apple = "appleGood"%string /\
      apple_id apple <> closest_id /\
      exists before after,
        apples game_state = before ++ apple :: after /\
        (forall b, In b before ->
           apple_type b = "appleGood"%string -> apple_id b <> closest_id ->
           get_distance robot_pos (apple_position apple)
           < get_distance robot_pos (apple_position b)) /\
        (forall b, In b after ->
           apple_type b = "appleGood"%string -> apple_id b <> closest_id ->
           get_distance robot_pos (apple_position apple)
           <= get_distance robot_pos (apple_position b))
  | None =>
      forall b, In b (apples game_state) ->
        ~ (apple_type b = "appleGood"%string /\ apple_id b <> closest_id)
  end.
Proof.
  unfold get_closest_good_apple.
  pose proof (closest_fold_inv robot_pos closest_id (apples game_state)) as H.
  destruct (fold_left _ _ _) as [[a|] d]; simpl in *.
  - destruct H as (_ & Ha & l1 & l2 & Heq & Hl1 & Hl2).
    apply eligible_spec in Ha. destruct Ha as [Hty Hid].
    split; [assumption|]. split; [assumption|].
    exists l1, l2. split; [assumption|].
    split; intros b Hb Hbt Hbi.
    + apply Hl1; [assumption|]. apply eligible_spec. auto.
    + apply Hl2; [assumption|]. apply eligible_spec. auto.
  - destruct H as (_ & Hnone). intros b Hb Hbe.
    apply eligible_spec in Hbe. rewrite (Hnone b Hb) in Hbe. discriminate.
Qed.

(** ** Geometry *)

Lemma atan2_bound (dy dx : R) : - PI < atan2 dy dx <= PI.
Proof.
  pose proof PI_RGT_0 as Hpi.
  pose proof (atan_bound (dy / dx)) as Hb.
  unfold atan2.
  destruct (Rltb 0 dx) eqn:Hx; [lra|]. apply Rltb_false in Hx.
  destruct (Rltb dx 0) eqn:Hx'.
  - apply Rltb_true in Hx'.
    destruct (Rltb dy 0) eqn:Hy.
    + apply Rltb_true in Hy.
      assert (Hq : 0 < dy / dx) by (apply Rdiv_neg_neg; lra).
      apply atan_increasing in Hq. rewrite atan_0 in Hq. lra.
    + apply Rltb_false in Hy.
      assert (Hq : atan (dy / dx) <= 0).
      { destruct Hy as [Hy|Hy].
        - assert (Hq : dy / dx < 0) by (apply Rdiv_pos_neg; lra).
          apply atan_increasing in Hq. rewrite atan_0 in Hq. lra.
        - rewrite <- Hy, Rdiv_0_l, atan_0. lra. }
      lra.
  - destruct (Rltb 0 dy); [lra|]. destruct (Rltb dy 0); lra.
Qed.

Lemma degrees_bound (r : R) :
  - PI < r <= PI -> - 180 < degrees r <= 180.
Proof.
  pose proof PI_RGT_0 as Hpi. intros Hr. unfold degrees.
  assert (Hk : 0 < 180 / PI) by (apply Rdiv_pos_pos; lra).
  assert (Hu : PI * (180 / PI) = 180) by (field; lra).
  split; nra.
Qed.

Lemma bearing_bound (p1 p2 : Point) : - 180 < bearing p1 p2 <= 180.
Proof. apply degrees_bound, atan2_bound. Qed.

(** The target lies due east of the origin: the bearing is [0]. *)
Lemma bearing_east (p1 p2 : Point) :
  y p2 = y p1 -> x p1 < x p2 -> bearing p1 p2 = 0.
Proof.
  intros Hy Hx. unfold bearing, atan2, degrees. decide_R.
  replace (y p2 - y p1) with 0 by lra.
  rewrite Rdiv_0_l, atan_0. ring.
Qed.

(** The three ways [get_angle] returns. *)
Lemma get_angle_cases (p1 : Point) (a1 : R) (p2 : Point) :
  let a_rel := bearing p1 p2 - a1 in
  (- 180 <= a_rel <= 180 /\ get_angle p1 a1 p2 = a_rel) \/
  (180 < a_rel /\ get_angle p1 a1 p2 = a_rel - 360) \/
  (a_rel < - 180 /\ get_angle p1 a1 p2 = a_rel + 360).
Proof.
  unfold get_angle. fold (bearing p1 p2). simpl.
  set (a_rel := bearing p1 p2 - a1). unfold Rgtb.
  destruct (Rltb 180 (Rabs a_rel)) eqn:Habs.
  - apply Rltb_true in Habs.
    destruct (Rltb 0 a_rel) eqn:Hpos.
    + apply Rltb_true in Hpos. rewrite Rabs_pos_eq in Habs by lra.
      right; left. split; [lra|reflexivity].
    + apply Rltb_false in Hpos.
      right; right. split; [|reflexivity].
      unfold Rabs in Habs. destruct (Rcase_abs a_rel); lra.
  - apply Rltb_false in Habs. left. split; [|reflexivity].
    unfold Rabs in Habs. destruct (Rcase_abs a_rel); lra.
Qed.

(** C4, refuted as stated: with the target due east and the robot heading
    180 degrees the result is [-180], outside [(-180, 180]]. *)
Lemma get_angle_range_counterexample :
  ~ (- 180 < get_angle (mkPoint 0 0) 180 (mkPoint 1 0) <= 180).
Proof.
  destruct (get_angle_cases (mkPoint 0 0) 180 (mkPoint 1 0))
    as [[Hc ->]|[[Hc ->]|[Hc ->]]];
    rewrite bearing_east in * by (simpl; lra); lra.
Qed.

(** Every heading in [[-360, 360]] is within 540 degrees of the
    bearing. *)
Lemma heading_within_540 (p1 : Point) (a1 : R) (p2 : Point) :
  - 360 <= a1 <= 360 -> Rabs (bearing p1 p2 - a1) <= 540.
Proof.
  intros Ha. pose proof (bearing_bound p1 p2). apply Rabs_le. lra.
Qed.

(** C4, as the code has it.  [get_angle] is the bearing in degrees minus
    [a1], moved by 360 once towards zero when its magnitude exceeds 180.
    The bearing itself lies in [(-180, 180]]; when bearing minus heading
    is at most 540 in magnitude (every heading in [[-360, 360]] is such),
    the result lies in the closed interval [[-180, 180]]. *)
Theorem get_angle_range (p1 : Point) (a1 : R) (p2 : Point) :
  Rabs (bearing p1 p2 - a1) <= 540 ->
  let a_rel := bearing p1 p2 - a1 in
  get_angle p1 a1 p2 =
    (if Rgtb (Rabs a_rel) 180
     then if Rgtb a_rel 0 then a_rel - 360 else a_rel + 360
     else a_rel) /\
  - 180 < bearing p1 p2 <= 180 /\
  - 180 <= get_angle p1 a1 p2 <= 180.
Proof.
  intros Habs a_rel. pose proof (bearing_bound p1 p2) as Hb.
  split; [reflexivity|]. split; [assumption|].
  assert (Hr : - 540 <= a_rel <= 540).
  { fold a_rel in Habs. unfold Rabs in Habs.
    destruct (Rcase_abs a_rel); lra. }
  destruct (get_angle_cases p1 a1 p2) as [[Hc ->]|[[Hc ->]|[Hc ->]]];
    fold a_rel in Hc |- *; lra.
Qed.

Lemma get_angle_range_witness :
  Rabs (bearing (mkPoint 0 0) (mkPoint 1 0) - 180) <= 540 /\
  - 180 <= get_angle (mkPoint 0 0) 180 (mkPoint 1 0) <= 180.
Proof.
  assert (H : Rabs (bearing (mkPoint 0 0) (mkPoint 1 0) - 180) <= 540)
    by (apply heading_within_540; lra).
  split; [exact H|].
  apply (get_angle_range (mkPoint 0 0) 180 (mkPoint 1 0) H).
Defined.

(** C9, refuted as stated: with the target due east, the headings 200
    and 560 give 160 and -200. *)
Lemma get_angle_shift_counterexample :
  get_angle (mkPoint 0 0) (200 + 360) (mkPoint 1 0)
  <> get_angle (mkPoint 0 0) 200 (mkPoint 1 0).
Proof.
  destruct (get_angle_cases (mkPoint 0 0) 200 (mkPoint 1 0))
    as [[Hc ->]|[[Hc ->]|[Hc ->]]];
    destruct (get_angle_cases (mkPoint 0 0) (200 + 360) (mkPoint 1 0))
      as [[Hd ->]|[[Hd ->]|[Hd ->]]];
    rewrite bearing_east in * by (simpl; lra); lra.
Qed.

(** ** Rounding *)

Lemma Rabs_le_inv (a b : R) : Rabs a <= b -> - b <= a <= b.
Proof. unfold Rabs. destruct (Rcase_abs a); lra. Qed.

Lemma rounds_exact : rounds (fun v => v).
Proof.
  intros v. replace (v - v) with 0 by ring. rewrite Rabs_R0.
  apply Rmult_le_pos; [|apply Rabs_pos].
  unfold unit_roundoff. lra.
Qed.

(** The rounding error of a result below 4096 in magnitude. *)
Lemma round_error (rnd : R -> R) (v : R) :
  rounds rnd -> - 4096 <= v <= 4096 ->
  - / 2 ^ 41 <= rnd v - v <= / 2 ^ 41.
Proof.
  intros Hr Hv. specialize (Hr v).
  assert (Ha : Rabs v <= 4096) by (apply Rabs_le; lra).
  assert (He : Rabs (rnd v - v) <= / 2 ^ 41)
    by (unfold unit_roundoff in Hr; lra).
  apply Rabs_le_inv in He. lra.
Qed.

(** With exact arithmetic the rounded [get_angle] is [get_angle]. *)
Lemma get_angle_exact (p1 : Point) (a1 : R) (p2 : Point) :
  Rounded.get_angle (fun v => v) atan2 degrees p1 a1 p2 = get_angle p1 a1 p2.
Proof. reflexivity. Qed.

(** The three ways the rounded [get_angle] returns. *)
Lemma rounded_get_angle_cases (rnd : R -> R) (math_atan2 : R -> R -> R)
    (math_degrees : R -> R) (p1 : Point) (a1 : R) (p2 : Point) :
  let a := math_degrees
             (math_atan2 (rnd (y p2 - y p1)) (rnd (x p2 - x p1))) in
  let a_rel := rnd (a - a1) in
  let r := Rounded.get_angle rnd math_atan2 math_degrees p1 a1 p2 in
  (- 180 <= a_rel <= 180 /\ r = a_rel) \/
  (180 < a_rel /\ r = rnd (a_rel - 360)) \/
  (a_rel < - 180 /\ r = rnd (a_rel + 360)).
Proof.
  intros a a_rel r. subst r. unfold Rounded.get_angle.
  fold a. fold a_rel. unfold Rgtb.
  destruct (Rltb 180 (Rabs a_rel)) eqn:Habs.
  - apply Rltb_true in Habs.
    destruct (Rltb 0 a_rel) eqn:Hpos.
    + apply Rltb_true in Hpos. rewrite Rabs_pos_eq in Habs by lra.
      right; left. split; [lra|reflexivity].
    + apply Rltb_false in Hpos.
      right; right. split; [|reflexivity].
      unfold Rabs in Habs. destruct (Rcase_abs a_rel); lra.
  - apply Rltb_false in Habs. left. split; [|reflexivity].
    unfold Rabs in Habs. destruct (Rcase_abs a_rel); lra.
Qed.

(** C9, as the code has it.  Let [a1'] be a float within two units of
    roundoff of [a1 + 360], for a heading [a1] of at most four turns.  In
    floats the results for [a1'] and for [a1] are not equal in general;
    they agree, or are 360 apart, up to a rounding error of [angle_tol]
    (2^-38 degrees).  They agree up to that error when bearing minus
    heading lies in [[-180, 180]] or in [[180, 540]], [angle_tol] away
    from the ends, and the result for [a1'] is 360 less when bearing
    minus heading is below [-180] or above [540] by [angle_tol].  The
    bearing to the target is computed inside [get_angle] and cannot be
    shifted by the caller. *)
Theorem get_angle_shift (rnd : R -> R) (math_atan2 : R -> R -> R)
    (math_degrees : R -> R) (p1 : Point) (a1 a1' : R) (p2 : Point) :
  rounds rnd ->
  (forall dy dx, - 180 <= math_degrees (math_atan2 dy dx) <= 180) ->
  Rabs a1 <= 1440 ->
  Rabs (a1' - (a1 + 360)) <= 2 * unit_roundoff * Rabs (a1 + 360) ->
  let a_rel :=
    math_degrees (math_atan2 (rnd (y p2 - y p1)) (rnd (x p2 - x p1)))
    - a1 in
  let r := Rounded.get_angle rnd math_atan2 math_degrees p1 a1 p2 in
  let r' := Rounded.get_angle rnd math_atan2 math_degrees p1 a1' p2 in
  (Rabs (r' - r) <= angle_tol \/ Rabs (Rabs (r' - r) - 360) <= angle_tol) /\
  (- 180 + angle_tol <= a_rel <= 180 - angle_tol \/
   180 + angle_tol <= a_rel <= 540 - angle_tol ->
   Rabs (r' - r) <= angle_tol) /\
  (a_rel <= - 180 - angle_tol \/ 540 + angle_tol <= a_rel ->
   Rabs (r' - (r - 360)) <= angle_tol).
Proof.
  intros Hr Hdeg Ha1 Ha1' a_rel r r'.
  pose proof (rounded_get_angle_cases rnd math_atan2 math_degrees p1 a1 p2)
    as Hc.
  pose proof (rounded_get_angle_cases rnd math_atan2 math_degrees p1 a1' p2)
    as Hc'.
  cbv zeta in Hc, Hc'. fold r in Hc. fold r' in Hc'.
  specialize (Hdeg (rnd (y p2 - y p1)) (rnd (x p2 - x p1))).
  set (a := math_degrees
              (math_atan2 (rnd (y p2 - y p1)) (rnd (x p2 - x p1)))) in *.
  apply Rabs_le_inv in Ha1.
  assert (Hs : Rabs (a1 + 360) <= 1800) by (apply Rabs_le; lra).
  assert (He0 : - / 2 ^ 41 <= a1' - (a1 + 360) <= / 2 ^ 41).
  { apply Rabs_le_inv. unfold unit_roundoff in Ha1'. lra. }
  pose proof (round_error rnd (a - a1) Hr ltac:(lra)) as He1.
  pose proof (round_error rnd (a - a1') Hr ltac:(lra)) as He2.
  pose proof (round_error rnd (rnd (a - a1) - 360) Hr ltac:(lra)) as He3.
  pose proof (round_error rnd (rnd (a - a1) + 360) Hr ltac:(lra)) as He4.
  pose proof (round_error rnd (rnd (a - a1') - 360) Hr ltac:(lra)) as He5.
  pose proof (round_error rnd (rnd (a - a1') + 360) Hr ltac:(lra)) as He6.
  subst a_rel. unfold angle_tol.
  set (v := rnd (a - a1)) in *. set (v' := rnd (a - a1')) in *.
  set (w3 := rnd (v - 360)) in *. set (w4 := rnd (v + 360)) in *.
  set (w5 := rnd (v' - 360)) in *. set (w6 := rnd (v' + 360)) in *.
  clearbody v v' w3 w4 w5 w6 a.
  assert (Hcases :
    (- / 2 ^ 38 <= r' - r <= / 2 ^ 38) \/
    (- / 2 ^ 38 <= r' - (r - 360) <= / 2 ^ 38) \/
    (- / 2 ^ 38 <= r' - (r + 360) <= / 2 ^ 38 /\
     180 - / 2 ^ 38 < a - a1 < 180 + / 2 ^ 38)).
  { destruct Hc as [[Hb ->]|[[Hb ->]|[Hb ->]]];
      destruct Hc' as [[Hb' ->]|[[Hb' ->]|[Hb' ->]]];
      first [ left; lra | right; left; lra | right; right; lra ]. }
  split; [|split].
  - destruct Hcases as [H|[H|[H _]]].
    + left. apply Rabs_le. lra.
    + right. apply Rabs_le.
      rewrite Rabs_left by lra. lra.
    + right. apply Rabs_le.
      rewrite Rabs_pos_eq by lra. lra.
  - intros Hin. apply Rabs_le.
    destruct Hc as [[Hb ->]|[[Hb ->]|[Hb ->]]];
      destruct Hc' as [[Hb' ->]|[[Hb' ->]|[Hb' ->]]]; lra.
  - intros Hout. apply Rabs_le.
    destruct Hc as [[Hb ->]|[[Hb ->]|[Hb ->]]];
      destruct Hc' as [[Hb' ->]|[[Hb' ->]|[Hb' ->]]]; lra.
Qed.

(** Exact arithmetic, the target due east, the headings 100 and 460. *)
Lemma get_angle_shift_witness :
  Rabs (Rounded.get_angle (fun v => v) atan2 degrees
          (mkPoint 0 0) (100 + 360) (mkPoint 1 0)
        - Rounded.get_angle (fun v => v) atan2 degrees
            (mkPoint 0 0) 100 (mkPoint 1 0)) <= angle_tol.
Proof.
  assert (Hb : bearing (mkPoint 0 0) (mkPoint 1 0) = 0)
    by (apply bearing_east; cbn; lra).
  unfold bearing in Hb. cbn [x y] in Hb.
  apply (get_angle_shift (fun v => v) atan2 degrees
           (mkPoint 0 0) 100 (100 + 360) (mkPoint 1 0)).
  - apply rounds_exact.
  - intros dy dx. pose proof (degrees_bound _ (atan2_bound dy dx)). lra.
  - rewrite Rabs_pos_eq; lra.
  - replace (100 + 360 - (100 + 360)) with 0 by ring. rewrite Rabs_R0.
    apply Rmult_le_pos; [unfold unit_roundoff; lra|apply Rabs_pos].
  - left. cbn [x y]. rewrite Hb. unfold angle_tol. lra.
Defined.

(** ** The speed limit at the end of an iteration *)

Lemma py_round_bounds (v : R) (lo hi : Z) :
  IZR lo <= v <= IZR hi -> (lo <= py_round v <= hi)%Z.
Proof.
  intros [Hlo Hhi]. unfold py_round. cbv zeta.
  pose proof (Zfloor_bound v) as [Hf1 Hf2].
  pose proof (Zfloor_lub lo v Hlo) as Hlof.
  assert (Hfhi : (Zfloor v <= hi)%Z) by (apply le_IZR; lra).
  destruct (Rltb _ _) eqn:H1; [lia|]. apply Rltb_false in H1.
  assert (Hlt : (Zfloor v < hi)%Z) by (apply lt_IZR; lra).
  destruct (Rltb _ _); [lia|]. destruct (Z.even _); lia.
Qed.

(** [round] returns an integer nearest to its argument. *)
Lemma py_round_nearest (v : R) : Rabs (IZR (py_round v) - v) <= 1 / 2.
Proof.
  unfold py_round. cbv zeta. pose proof (Zfloor_bound v) as [Hf1 Hf2].
  destruct (Rltb _ _) eqn:H1.
  - apply Rltb_true in H1. apply Rabs_le. lra.
  - apply Rltb_false in H1.
    destruct (Rltb (1 / 2) _) eqn:H2.
    + apply Rltb_true in H2. rewrite plus_IZR. apply Rabs_le. lra.
    + apply Rltb_false in H2.
      destruct (Z.even _); [|rewrite plus_IZR]; apply Rabs_le; lra.
Qed.

Lemma limit_speed_bounds (speed : R) :
  (- 800 <= limit_speed speed <= 800)%Z.
Proof.
  unfold limit_speed. apply py_round_bounds.
  pose proof (Rmax_r speed (- SPEED_MAX)).
  pose proof (Rmin_r (Rmax speed (- SPEED_MAX)) SPEED_MAX).
  split; [apply Rmin_glb|]; unfold SPEED_MAX in *; lra.
Qed.

(** C1.  An iteration in which the game is on and the robot is visible,
    when it completes, ends by commanding the two wheel motors with
    integers within [-SPEED_MAX, SPEED_MAX]: the speeds the active state
    left behind, whatever they are, clamped and rounded. *)
Theorem speed_commands_clamped (cfg : Config) (c : Ctx) (inp : TickInput)
    (game_state : GameState) (robot_pos : Point) (robot_dir : R)
    (c' : Ctx) (acts : list action) :
  request inp = Some game_state ->
  gameOn game_state = true ->
  find_robot (robots game_state) = (Some robot_pos, Some robot_dir) ->
  tick cfg c inp = Ok (c', acts) ->
  exists (wanted_right wanted_left : R) (pre : list action)
         (right left : Z),
    right = py_round (Rmin (Rmax wanted_right (- SPEED_MAX)) SPEED_MAX) /\
    left = py_round (Rmin (Rmax wanted_left (- SPEED_MAX)) SPEED_MAX) /\
    acts = pre ++ [run_forever motor_right (- right);
                   run_forever motor_left (- left)] /\
    speed_right c' = IZR right /\ speed_left c' = IZR left /\
    (- 800 <= right <= 800)%Z /\ (- 800 <= left <= 800)%Z /\
    (- 800 <= - right <= 800)%Z /\ (- 800 <= - left <= 800)%Z.
Proof.
  intros Hreq Hon Hrobot. unfold tick. rewrite Hreq, Hrobot, Hon.
  unfold tick_alive.
  destruct (push (robot_dir_hist _) _) as [dh|]; [simpl|discriminate].
  destruct (push (robot_dist_hist _) _) as [xh|]; [simpl|discriminate].
  destruct (eval_state _ _ _ _ _ _ _ _ _ _) as [[c1 a1]|]; [simpl|discriminate].
  intros [= <- <-].
  exists (speed_right c1), (speed_left c1), a1,
    (limit_speed (speed_right c1)), (limit_speed (speed_left c1)).
  pose proof (limit_speed_bounds (speed_right c1)).
  pose proof (limit_speed_bounds (speed_left c1)).
  destruct c1; cbn in *.
  repeat split; try reflexivity; lia.
Qed.

(** ** The iteration *)

(** Run the code on concrete data, leaving the arithmetic on floats
    symbolic. *)
Ltac run_code :=
  cbv -[Rplus Rminus Rmult Rdiv Ropp Rinv IZR Rltb Reqb get_distance
        get_angle Rmin Rmax Rabs limit_speed py_round].

Lemma get_distance_east (p1 p2 : Point) :
  y p2 = y p1 -> x p1 <= x p2 -> get_distance p1 p2 = x p2 - x p1.
Proof.
  intros Hy Hx. unfold get_distance. rewrite Hy.
  replace ((x p2 - x p1) ^ 2 + (y p1 - y p1) ^ 2) with (Rsqr (x p2 - x p1))
    by (unfold Rsqr; ring).
  apply sqrt_Rsqr. lra.
Qed.

Lemma tick_evaluated cfg c inp game_state robot_pos robot_dir :
  evaluated inp = Some (game_state, robot_pos, robot_dir) ->
  tick cfg c inp =
    tick_alive cfg game_state robot_pos robot_dir (time_now inp - t_old c)
      (state_differs (state c) (state_old c)) inp (start_tick inp c).
Proof.
  unfold evaluated, tick.
  destruct (request inp) as [gs|]; [|discriminate].
  destruct (find_robot (robots gs)) as [[p|] [d|]]; try discriminate.
  destruct (gameOn gs); [|discriminate].
  intros [= <- <- <-]. destruct c; reflexivity.
Qed.

Lemma tick_not_evaluated cfg c inp game_state :
  request inp = Some game_state ->
  evaluated inp = None ->
  tick cfg c inp =
    Ok (start_tick inp c, [stop_brake motor_left; stop_brake motor_right]).
Proof.
  unfold evaluated, tick. intros ->.
  destruct (find_robot (robots game_state)) as [[p|] [d|]];
    try (intros _; destruct c; reflexivity).
  destruct (gameOn game_state); [discriminate|].
  intros _; destruct c; reflexivity.
Qed.

Lemma evaluated_spec inp game_state robot_pos robot_dir :
  evaluated inp = Some (game_state, robot_pos, robot_dir) <->
  request inp = Some game_state /\ gameOn game_state = true /\
  find_robot (robots game_state) = (Some robot_pos, Some robot_dir).
Proof.
  unfold evaluated. split.
  - destruct (request inp) as [gs|]; [|discriminate].
    destruct (find_robot (robots gs)) as [[p|] [d|]] eqn:Hf;
      try discriminate.
    destruct (gameOn gs) eqn:Hon; [|discriminate].
    intros [= <- <- <-]. auto.
  - intros (-> & -> & ->). reflexivity.
Qed.

Lemma get_closest_none game_state robot_pos closest_id :
  (forall a, In a (apples game_state) -> eligible closest_id a = false) ->
  get_closest_good_apple game_state robot_pos closest_id = None.
Proof.
  intros Hnone. unfold get_closest_good_apple.
  pose proof (closest_fold_inv robot_pos closest_id (apples game_state)) as H.
  destruct (fold_left _ _ _) as [[a|] d]; simpl in *; [|reflexivity].
  destruct H as (_ & Ha & l1 & l2 & Heq & _).
  rewrite Hnone in Ha; [discriminate|].
  rewrite Heq. apply in_or_app. right. left. reflexivity.
Qed.

Lemma push_nonempty {A : Type} (q : list A) (v : A) :
  q <> [] -> push q v = Ok (tl q ++ [v]).
Proof. destruct q; [congruence|reflexivity]. Qed.

(** C2, refuted as stated: the iteration does not hold position; it stops
    with [TypeError] at [closest_apple['id']]. *)
Lemma seek_without_target_counterexample :
  tick cfg0 (init_ctx 0) input_no_good = Raise TypeError.
Proof. reflexivity. Qed.

(** C2, as the code has it.  When the snapshot holds no apple of type
    ["appleGood"] with an id other than the excluded one, the selector
    returns [None], and an iteration that evaluates [GET_APPLE] subscripts
    that [None]: it raises [TypeError], commands no wheel speed and makes
    no transition. *)
Theorem seek_without_target_raises (cfg : Config) (c : Ctx)
    (inp : TickInput) (game_state : GameState) (robot_pos : Point)
    (robot_dir : R) :
  request inp = Some game_state ->
  gameOn game_state = true ->
  find_robot (robots game_state) = (Some robot_pos, Some robot_dir) ->
  state c = GET_APPLE ->
  robot_dir_hist c <> [] -> robot_dist_hist c <> [] ->
  (forall a, In a (apples game_state) ->
     ~ (apple_type a = "appleGood"%string /\
        apple_id a <> closest_apple_id_old c)) ->
  get_closest_good_apple game_state robot_pos (closest_apple_id_old c)
  = None /\
  tick cfg c inp = Raise TypeError.
Proof.
  intros Hreq Hon Hrobot Hst Hdir Hdist Hnone.
  assert (Hev : evaluated inp = Some (game_state, robot_pos, robot_dir))
    by (apply evaluated_spec; auto).
  assert (Hsel : get_closest_good_apple game_state robot_pos
                   (closest_apple_id_old c) = None).
  { apply get_closest_none. intros a Ha.
    destruct (eligible _ a) eqn:He; [|reflexivity].
    apply eligible_spec in He. destruct (Hnone a Ha He). }
  split; [assumption|].
  rewrite (tick_evaluated cfg c inp game_state robot_pos robot_dir Hev).
  open_ctx c. subst st. unfold tick_alive. cbn.
  rewrite !push_nonempty by assumption. cbn.
  unfold state_GET_APPLE. cbn. rewrite Hsel. reflexivity.
Qed.

Lemma seek_without_target_raises_witness :
  get_closest_good_apple gs_no_good (mkPoint 1000 1000)
    (closest_apple_id_old (init_ctx 0)) = None /\
  tick cfg0 (init_ctx 0) input_no_good = Raise TypeError.
Proof.
  apply (seek_without_target_raises cfg0 (init_ctx 0) input_no_good
           gs_no_good (mkPoint 1000 1000) 0);
    try reflexivity; try discriminate.
  intros a [<-|[]] [Hty _]. discriminate.
Defined.

(** ** Iterations that do not evaluate the state machine *)

(** C7.  An iteration whose snapshot has the game off or lacks the
    position or the heading of the robot brakes both wheel motors and
    changes nothing but the stored loop clock and the stored previous
    state: [state], the six regulators, both history windows, the target
    and the watchdog are as before.  If the state is [GET_TURN], the next
    evaluated iteration runs with the state-change flag down, so it does
    not reset [PID_turn]: either the bearing window is settled and the
    regulator is untouched, or [update] is called on the regulator exactly
    as it was stored before the hidden iteration. *)
Theorem hidden_tick_frame (cfg : Config) (c : Ctx) (inp : TickInput)
    (game_state : GameState) :
  request inp = Some game_state ->
  gameOn game_state = false \/
  fst (find_robot (robots game_state)) = None \/
  snd (find_robot (robots game_state)) = None ->
  exists c',
    tick cfg c inp =
      Ok (c', [stop_brake motor_left; stop_brake motor_right]) /\
    c' = with_state_old (Some (state c)) (with_t_old (time_now inp) c) /\
    state c' = state c /\
    PID_turn c' = PID_turn c /\
    PID_frwd_base c' = PID_frwd_base c /\
    PID_frwd_turn c' = PID_frwd_turn c /\
    PID_turn_apple c' = PID_turn_apple c /\
    PID_frwd_base_apple c' = PID_frwd_base_apple c /\
    PID_frwd_turn_apple c' = PID_frwd_turn_apple c /\
    robot_dir_hist c' = robot_dir_hist c /\
    robot_dist_hist c' = robot_dist_hist c /\
    target c' = target c /\
    timer_near_target c' = timer_near_target c /\
    speed_right c' = speed_right c /\ speed_left c' = speed_left c /\
    (state c = GET_TURN ->
     forall inp2 c2 acts2,
       evaluated inp2 <> None ->
       tick cfg c' inp2 = Ok (c2, acts2) ->
       (state c2 = GET_STRAIGHT /\ PID_turn c2 = PID_turn c) \/
       (state c2 = GET_TURN /\
        exists u,
          PID.update (PID_turn c) (time_update1 inp2) (target_angle c2)
          = Ok (PID_turn c2, u) /\
          speed_right c2 = IZR (limit_speed (- u)) /\
          speed_left c2 = IZR (limit_speed u))).
Proof.
  intros Hreq Hhidden.
  assert (Hev : evaluated inp = None).
  { unfold evaluated. rewrite Hreq.
    destruct (find_robot (robots game_state)) as [[p|] [d|]];
      try reflexivity.
    destruct Hhidden as [->|[H|H]]; [reflexivity|discriminate..]. }
  exists (start_tick inp c).
  split; [apply (tick_not_evaluated cfg c inp game_state Hreq Hev)|].
  open_ctx c. repeat (split; [reflexivity|]).
  intros -> inp2 c2 acts2 Hev2.
  destruct (evaluated inp2) as [[[gs2 pos2] dir2]|] eqn:E2; [|congruence].
  rewrite (tick_evaluated _ _ _ _ _ _ E2). unfold tick_alive. cbn.
  destruct (push dir_hist t_angle) as [dh|]; cbn; [|discriminate].
  destruct (push dist_hist (Fin t_dist)) as [xh|]; cbn; [|discriminate].
  unfold state_GET_TURN, measure. cbn.
  destruct tgt as [tgt|]; cbn; [|discriminate].
  unfold dir_settled. cbn.
  match goal with
  | |- context [Nat.eqb ?a ?b] => destruct (Nat.eqb a b)
  end; cbn.
  - intros [= <- <-]. left. split; reflexivity.
  - match goal with
    | |- context [PID.update ?p ?t ?m] =>
        destruct (PID.update p t m) as [[pid u]|] eqn:Hup
    end; cbn; [|discriminate].
    intros [= <- <-]. right. cbn. split; [reflexivity|].
    exists u. repeat split. exact Hup.
Qed.

Lemma hidden_tick_frame_witness :
  exists c',
    tick cfg0 (init_ctx 0) input_hidden =
      Ok (c', [stop_brake motor_left; stop_brake motor_right]) /\
    state c' = GET_APPLE /\
    PID_turn c' = PID_turn (init_ctx 0) /\
    robot_dir_hist c' = [180; 180; 180] /\
    robot_dist_hist c' = [PInf; PInf; PInf].
Proof.
  destruct (hidden_tick_frame cfg0 (init_ctx 0) input_hidden gs_hidden
              eq_refl (or_intror (or_introl eq_refl)))
    as (c' & Htick & _ & Hst & Hpid & _ & _ & _ & _ & _ & Hdir & Hdist & _).
  exists c'. split; [exact Htick|].
  split; [exact Hst|]. split; [exact Hpid|].
  split; [exact Hdir|exact Hdist].
Defined.

(** ** Worked iterations *)

Lemma get_angle_east (p1 : Point) (a1 : R) (p2 : Point) :
  y p2 = y p1 -> x p1 < x p2 -> - 180 <= a1 <= 180 ->
  get_angle p1 a1 p2 = 0 - a1.
Proof.
  intros Hy Hx Ha.
  destruct (get_angle_cases p1 a1 p2) as [[Hc ->]|[[Hc ->]|[Hc ->]]];
    rewrite bearing_east in * by assumption; lra.
Qed.

Lemma py_round_IZR (z : Z) : py_round (IZR z) = z.
Proof.
  unfold py_round. cbv zeta. rewrite ZfloorZ.
  replace (IZR z - IZR z) with 0 by ring. decide_R. reflexivity.
Qed.

Lemma limit_speed_high (speed : R) : 800 <= speed -> limit_speed speed = 800%Z.
Proof.
  intros H. unfold limit_speed, SPEED_MAX.
  rewrite Rmax_left by lra. rewrite Rmin_right by lra. apply py_round_IZR.
Qed.

Lemma limit_speed_low (speed : R) :
  speed <= - 800 -> limit_speed speed = (- 800)%Z.
Proof.
  intros H. unfold limit_speed, SPEED_MAX.
  rewrite Rmax_right by lra. rewrite Rmin_left by lra.
  rewrite <- opp_IZR. apply py_round_IZR.
Qed.

(** Replace the absolute values the sign of whose argument linear
    arithmetic settles. *)
Ltac decide_abs :=
  repeat match goal with
    | |- context [Rabs ?a] =>
        first [ rewrite (Rabs_pos_eq a) by lra
              | rewrite (Rabs_left a) by lra ]
    end.

Lemma turning_tick :
  exists c',
    tick cfg0 ctx_turning input_north =
      Ok (c', [file_write (0 - 90) 1;
               run_forever motor_right 800; run_forever motor_left (-800)])
    /\ state c' = GET_TURN.
Proof.
  run_code.
  rewrite !get_angle_east by (cbn; lra).
  decide_abs. decide_R.
  rewrite limit_speed_low by lra. rewrite limit_speed_high by lra.
  eexists. split; reflexivity.
Qed.

Lemma speed_commands_clamped_witness :
  exists c' acts,
    tick cfg0 ctx_turning input_north = Ok (c', acts) /\
    exists (wanted_right wanted_left : R) (pre : list action)
           (right left : Z),
      right = py_round (Rmin (Rmax wanted_right (- SPEED_MAX)) SPEED_MAX) /\
      left = py_round (Rmin (Rmax wanted_left (- SPEED_MAX)) SPEED_MAX) /\
      acts = pre ++ [run_forever motor_right (- right);
                     run_forever motor_left (- left)] /\
      speed_right c' = IZR right /\ speed_left c' = IZR left /\
      (- 800 <= right <= 800)%Z /\ (- 800 <= left <= 800)%Z /\
      (- 800 <= - right <= 800)%Z /\ (- 800 <= - left <= 800)%Z.
Proof.
  destruct turning_tick as (c' & E & _).
  exists c'. eexists. split; [exact E|].
  exact (speed_commands_clamped cfg0 ctx_turning input_north gs_north
           (mkPoint 1000 1000) 90 c' _ eq_refl eq_refl eq_refl E).
Defined.

(** ** The excluded id *)

(** Unfold the code of the iteration and read the globals through the
    assignments made to them. *)
Ltac unfold_code :=
  cbv beta iota zeta delta [
      bind attrs deref global push tick_alive eval_state
      state_GET_APPLE state_HOME state_GET_TURN state_GET_STRAIGHT
      state_HOME_TURN state_HOME_STRAIGHT state_BACK_OFF measure
      watchdog dir_settled dist_settled stop_speeds start_tick
      PID_turn PID_frwd_base PID_frwd_turn PID_turn_apple
      PID_frwd_base_apple PID_frwd_turn_apple
      pid_frwd_base_apple_multiplier speed_right speed_left
      robot_dir_hist robot_dist_hist robot_dir_data_id t_old state
      state_old closest_apple_old closest_apple_id_old target
      target_dist target_angle robot_near_target_old
      timer_near_target state_old_target with_PID_turn
      with_PID_frwd_base with_PID_frwd_turn with_PID_turn_apple
      with_PID_frwd_base_apple with_PID_frwd_turn_apple
      with_pid_frwd_base_apple_multiplier with_speed_right
      with_speed_left with_robot_dir_hist with_robot_dist_hist
      with_robot_dir_data_id with_t_old with_state with_state_old
      with_closest_apple_old with_closest_apple_id_old with_target
      with_target_dist with_target_angle with_robot_near_target_old
      with_timer_near_target with_state_old_target].

(** Split on whatever the code branches on next, until the outcome of the
    iteration is explicit. *)
Ltac crunch :=
  repeat first
    [ progress unfold_code
    | match goal with
      | |- Raise _ = Ok _ -> _ => discriminate
      | |- Ok _ = Ok _ -> _ => intros [= <- <-]
      | |- context [PID.update ?p ?t ?m] =>
          destruct (PID.update p t m) as [[? ?]|]
      | |- context [match ?v with _ => _ end] =>
          lazymatch v with
          | context [match _ with _ => _ end] => fail
          | _ => destruct v eqn:?
          end
      end ].

(** An evaluated [GET_APPLE] stores the id and the position of the apple
    it selects. *)
Lemma seek_tick cfg c inp game_state robot_pos robot_dir c' acts :
  state c = GET_APPLE ->
  evaluated inp = Some (game_state, robot_pos, robot_dir) ->
  tick cfg c inp = Ok (c', acts) ->
  exists apple,
    get_closest_good_apple game_state robot_pos (closest_apple_id_old c)
    = Some apple /\
    closest_apple_id_old c' = apple_id apple /\
    target c' = Some (apple_position apple).
Proof.
  intros Hst Hev. rewrite (tick_evaluated _ _ _ _ _ _ Hev).
  open_ctx c. subst st. crunch; eexists; repeat split.
Qed.

Lemma get_closest_good_apple_eligible game_state robot_pos closest_id apple :
  get_closest_good_apple game_state robot_pos closest_id = Some apple ->
  eligible closest_id apple = true.
Proof.
  unfold get_closest_good_apple.
  pose proof (closest_fold_inv robot_pos closest_id (apples game_state)) as H.
  destruct (fold_left _ _ _) as [[a|] d]; simpl in *; [|discriminate].
  intros [= <-]. tauto.
Qed.

(** Every other state leaves the excluded id alone. *)
Lemma eval_state_keeps_id cfg game_state robot_pos robot_dir now lt changed
    now1 now2 c c' acts :
  state c <> GET_APPLE ->
  eval_state cfg game_state robot_pos robot_dir now lt changed now1 now2 c
  = Ok (c', acts) ->
  closest_apple_id_old c' = closest_apple_id_old c.
Proof.
  intros Hst. open_ctx c. unfold eval_state. cbn.
  destruct st; try congruence; clear Hst; crunch; reflexivity.
Qed.

Lemma other_tick_keeps_id cfg c inp c' acts :
  state c <> GET_APPLE \/ evaluated inp = None ->
  tick cfg c inp = Ok (c', acts) ->
  closest_apple_id_old c' = closest_apple_id_old c.
Proof.
  intros Hother.
  destruct (evaluated inp) as [[[gs pos] dir]|] eqn:Hev.
  - destruct Hother as [Hst|]; [|discriminate].
    rewrite (tick_evaluated _ _ _ _ _ _ Hev). unfold tick_alive.
    destruct (push (robot_dir_hist _) _) as [dh|] eqn:Hdh;
      cbn [bind]; [|discriminate].
    destruct (push (robot_dist_hist _) _) as [xh|] eqn:Hxh;
      cbn [bind]; [|discriminate].
    match goal with
    | |- context [eval_state ?a ?b ?c ?d ?e ?f ?g ?h ?i ?j] =>
        destruct (eval_state a b c d e f g h i j) as [[c1 a1]|] eqn:Hes
    end; cbn [bind]; [|discriminate].
    intros [= <- <-]. apply eval_state_keeps_id in Hes.
    + destruct c1; cbn in *. rewrite Hes. destruct c; reflexivity.
    + destruct c; exact Hst.
  - clear Hother. destruct (request inp) as [gs|] eqn:Hreq.
    + rewrite (tick_not_evaluated _ _ _ _ Hreq Hev).
      intros [= <- <-]. destruct c; reflexivity.
    + unfold tick. rewrite Hreq. intros [= <- <-]. destruct c; reflexivity.
Qed.

Lemma no_seek_keeps_id cfg trace : forall c,
  no_seek cfg c trace ->
  closest_apple_id_old (last_ctx c trace) = closest_apple_id_old c.
Proof.
  induction trace as [|[inp c'] trace IH]; intros c Hns; [reflexivity|].
  cbn in Hns |- *. destruct Hns as (Hother & [acts Htick] & Hrest).
  rewrite (IH c' Hrest). exact (other_tick_keeps_id _ _ _ _ _ Hother Htick).
Qed.

(** C10.  An evaluated [GET_APPLE] stores the id of the apple it selects
    as the excluded id in that same iteration, whichever state it moves
    to; the iterations that follow without evaluating [GET_APPLE] keep the
    excluded id; so the apple the next evaluation of [GET_APPLE] selects
    has another id. *)
Theorem consecutive_seeks_differ (cfg : Config) (c0 c1 : Ctx)
    (inp1 inp2 : TickInput) (acts1 : list action)
    (trace : list (TickInput * Ctx))
    (gs1 gs2 : GameState) (pos1 pos2 : Point) (dir1 dir2 : R)
    (first second : Apple) :
  state c0 = GET_APPLE ->
  evaluated inp1 = Some (gs1, pos1, dir1) ->
  get_closest_good_apple gs1 pos1 (closest_apple_id_old c0) = Some first ->
  tick cfg c0 inp1 = Ok (c1, acts1) ->
  no_seek cfg c1 trace ->
  state (last_ctx c1 trace) = GET_APPLE ->
  evaluated inp2 = Some (gs2, pos2, dir2) ->
  get_closest_good_apple gs2 pos2
    (closest_apple_id_old (last_ctx c1 trace)) = Some second ->
  closest_apple_id_old c1 = apple_id first /\
  closest_apple_id_old (last_ctx c1 trace) = apple_id first /\
  apple_id second <> apple_id first.
Proof.
  intros Hst Hev1 Hsel1 Htick1 Hns Hst2 Hev2 Hsel2.
  destruct (seek_tick _ _ _ _ _ _ _ _ Hst Hev1 Htick1)
    as (apple & Hsel & Hid & _).
  rewrite Hsel1 in Hsel. injection Hsel as <-.
  pose proof (no_seek_keeps_id cfg trace c1 Hns) as Hkeep.
  rewrite Hid in Hkeep. split; [exact Hid|]. split; [exact Hkeep|].
  rewrite Hkeep in Hsel2.
  pose proof (get_closest_good_apple_eligible gs2 pos2 (apple_id first)
                second Hsel2) as He.
  apply eligible_spec in He. tauto.
Qed.

(** Run the code where every distance is between points on one row, the
    second to the east of the first (or on it). *)
Ltac run_east :=
  repeat (progress (run_code;
                    try rewrite !get_distance_east by (cbn; lra);
                    cbn [x y]; decide_abs; decide_R)).

(** [GET_APPLE] selects apple 7 and, being on it, goes to [HOME]; [HOME]
    finds the robot at home and goes back to [GET_APPLE]. *)
Lemma seek_home_seek :
  exists c1 acts1 c2 acts2,
    tick cfg0 (init_ctx 0) (input_home 1) = Ok (c1, acts1) /\
    tick cfg0 c1 (input_home 2) = Ok (c2, acts2) /\
    state c1 = HOME /\ state c2 = GET_APPLE /\
    closest_apple_id_old c2 = 7%Z.
Proof.
  do 4 eexists. split.
  { run_east. reflexivity. }
  split.
  { run_east. reflexivity. }
  repeat split.
Qed.

Lemma first_selection :
  get_closest_good_apple gs_home (mkPoint 270 1010) (-1) = Some apple_here.
Proof.
  run_east. reflexivity.
Qed.

Lemma consecutive_seeks_differ_witness :
  exists c1 c2,
    closest_apple_id_old c1 = apple_id apple_here /\
    closest_apple_id_old c2 = apple_id apple_here /\
    get_closest_good_apple gs_home (mkPoint 270 1010)
      (closest_apple_id_old c2) = Some apple_east /\
    apple_id apple_east <> apple_id apple_here.
Proof.
  destruct seek_home_seek
    as (c1 & acts1 & c2 & acts2 & H1 & H2 & Hst1 & Hst2 & Hid).
  assert (Hsel2 : get_closest_good_apple gs_home (mkPoint 270 1010)
                    (closest_apple_id_old c2) = Some apple_east)
    by (rewrite Hid; reflexivity).
  assert (Hns : no_seek cfg0 c1 [(input_home 2, c2)]).
  { split; [left; rewrite Hst1; discriminate|].
    split; [exists acts2; exact H2|exact I]. }
  destruct (consecutive_seeks_differ cfg0 (init_ctx 0) c1
              (input_home 1) (input_home 3) acts1 [(input_home 2, c2)]
              gs_home gs_home (mkPoint 270 1010) (mkPoint 270 1010) 0 0
              apple_here apple_east
              eq_refl eq_refl first_selection H1 Hns Hst2 eq_refl Hsel2)
    as (Ha & Hb & Hc).
  exists c1, c2. repeat split; assumption.
Defined.

(** ** The near-target watchdog *)

(** An evaluated iteration of a drive state that completes: the
    countdown, the flag, the window and the next state. *)
Lemma drive_tick cfg s c inp game_state robot_pos robot_dir goal was_near
    c' acts :
  drive_state s = true -> state c = s ->
  evaluated inp = Some (game_state, robot_pos, robot_dir) ->
  target c = Some goal ->
  robot_near_target_old c = Some was_near ->
  tick cfg c inp = Ok (c', acts) ->
  timer_near_target c' =
    countdown s c was_near (Rltb (get_distance robot_pos goal) DIST_NEAR)
      (time_now inp - t_old c) /\
  robot_near_target_old c' =
    Some (Rltb (get_distance robot_pos goal) DIST_NEAR) /\
  state_old c' = Some s /\
  t_old c' = time_now inp /\
  target c' = Some goal /\
  target_dist c' = get_distance robot_pos goal /\
  robot_dist_hist c' = tl (robot_dist_hist c) ++ [Fin (target_dist c)] /\
  robot_dir_hist c' = tl (robot_dir_hist c) ++ [target_angle c] /\
  state c' =
    if arrival_met cfg s c robot_pos then arrival_of s
    else match countdown s c was_near
                 (Rltb (get_distance robot_pos goal) DIST_NEAR)
                 (time_now inp - t_old c) with
         | Some t => if Rltb t 0 then turn_of s else s
         | None => s
         end.
Proof.
  intros Hs Hst Hev Htgt Hnear. rewrite (tick_evaluated _ _ _ _ _ _ Hev).
  open_ctx c. subst st tgt near_old.
  unfold countdown, arrival_met.
  destruct s; try discriminate; clear Hs.
  - crunch; repeat split;
      cbn [tl option_map negb andb orb turn_of arrival_of] in *;
      try reflexivity; try congruence.
  - crunch; repeat split;
      cbn [tl option_map negb andb orb turn_of arrival_of] in *;
      try reflexivity; try congruence.
Qed.

Lemma limit_speed_0 : limit_speed 0 = 0%Z.
Proof.
  unfold limit_speed, SPEED_MAX.
  rewrite Rmax_left by lra. rewrite Rmin_left by lra.
  apply (py_round_IZR 0).
Qed.

Ltac fire_finish :=
  cbn [tl option_map negb andb orb turn_of];
  let Harr := fresh "Harr" in
  let Hcount := fresh "Hcount" in
  let Hneg := fresh "Hneg" in
  intros Harr Hcount Hneg;
  cbn [negb andb orb] in *;
  try congruence;
  try (injection Hcount as <-);
  first
    [ congruence
    | unfold TIMER_NEAR_TARGET in *; lra
    | match goal with
      | H : Rltb _ 0 = false |- _ => apply Rltb_false in H; lra
      end
    | rewrite limit_speed_0; eexists; split; [reflexivity|];
      repeat split ].

(** An evaluated iteration of a drive state in which the arrival test
    fails and the countdown has fallen below zero completes: it stops and
    falls back to the turn state. *)
Lemma drive_fire cfg s c inp game_state robot_pos robot_dir goal was_near t :
  drive_state s = true -> state c = s ->
  evaluated inp = Some (game_state, robot_pos, robot_dir) ->
  target c = Some goal ->
  robot_near_target_old c = Some was_near ->
  robot_dir_hist c <> [] -> robot_dist_hist c <> [] ->
  arrival_met cfg s c robot_pos = false ->
  countdown s c was_near (Rltb (get_distance robot_pos goal) DIST_NEAR)
    (time_now inp - t_old c) = Some t ->
  t < 0 ->
  exists c',
    tick cfg c inp =
      Ok (c', [run_forever motor_right 0; run_forever motor_left 0]) /\
    state c' = turn_of s /\
    speed_right c' = 0 /\ speed_left c' = 0.
Proof.
  intros Hs Hst Hev Htgt Hnear Hdir Hdist.
  rewrite (tick_evaluated _ _ _ _ _ _ Hev).
  open_ctx c. subst st tgt near_old.
  destruct dir_hist as [|a0 dir_hist]; [congruence|].
  destruct dist_hist as [|x0 dist_hist]; [congruence|].
  clear Hdir Hdist. unfold arrival_met, countdown.
  destruct s; try discriminate; clear Hs.
  - crunch; fire_finish.
  - crunch; fire_finish.
Qed.

Lemma State_eqb_refl (s : State) : State_eqb s s = true.
Proof. destruct s; reflexivity. Qed.

(** While the robot is near, an armed watchdog counts down from the full
    duration by the time spent. *)
Lemma countdown_armed s c spent lt :
  armed s c spent ->
  exists was_near,
    robot_near_target_old c = Some was_near /\
    countdown s c was_near true lt
    = Some (TIMER_NEAR_TARGET - (spent + lt)).
Proof.
  intros (_ & _ & _ & [(-> & b & Hb & Harm)|(Ht & Hb & Hold)]).
  - exists b. split; [exact Hb|]. unfold countdown.
    replace (state_differs s (state_old c) || (negb b && true)) with true.
    + cbn. f_equal. ring.
    + destruct Harm as [->| ->]; [reflexivity|].
      cbn. now rewrite orb_true_r.
  - exists true. split; [exact Hb|]. unfold countdown.
    rewrite Hold. cbn. rewrite State_eqb_refl. cbn. rewrite Ht. cbn.
    f_equal. ring.
Qed.

Lemma app_nonempty {A : Type} (l : list A) (a : A) : l ++ [a] <> [].
Proof. destruct l; discriminate. Qed.

(** One lingering iteration keeps the drive state and the watchdog
    armed. *)
Lemma linger_step cfg s c spent inp game_state robot_pos robot_dir goal
    c' acts :
  drive_state s = true ->
  armed s c spent ->
  evaluated inp = Some (game_state, robot_pos, robot_dir) ->
  target c = Some goal ->
  get_distance robot_pos goal < DIST_NEAR ->
  arrival_met cfg s c robot_pos = false ->
  spent + (time_now inp - t_old c) <= TIMER_NEAR_TARGET ->
  tick cfg c inp = Ok (c', acts) ->
  armed s c' (spent + (time_now inp - t_old c)) /\
  timer_near_target c'
  = Some (TIMER_NEAR_TARGET - (spent + (time_now inp - t_old c))).
Proof.
  intros Hs Harm Hev Htgt Hnear Harr Hspent Htick.
  destruct (countdown_armed s c spent (time_now inp - t_old c) Harm)
    as (b & Hb & Hcount).
  destruct Harm as (Hst & _).
  destruct (drive_tick cfg s c inp game_state robot_pos robot_dir goal b
              c' acts Hs Hst Hev Htgt Hb Htick)
    as (Htimer & Hflag & Hold & _ & _ & _ & Hdist & Hdir & Hstate).
  apply Rltb_true in Hnear. rewrite Hnear in *.
  rewrite Hcount in *. rewrite Harr in Hstate.
  rewrite (proj2 (Rltb_false _ _)) in Hstate by lra.
  split; [|exact Htimer].
  split; [exact Hstate|].
  split; [rewrite Hdir; apply app_nonempty|].
  split; [rewrite Hdist; apply app_nonempty|].
  right. auto.
Qed.

Lemma lingers_armed cfg s trace : forall c spent,
  drive_state s = true ->
  armed s c spent ->
  lingers cfg s c spent trace ->
  Forall (fun ic => state (snd ic) = s) trace /\
  armed s (last_ctx c trace) (time_spent c spent trace) /\
  (trace <> [] ->
   timer_near_target (last_ctx c trace)
   = Some (TIMER_NEAR_TARGET - time_spent c spent trace)).
Proof.
  induction trace as [|[inp c'] trace IH]; intros c spent Hs Harm Hl.
  - split; [constructor|]. split; [exact Harm|congruence].
  - cbn in Hl. destruct Hl as
      ((gs & pos & dir & goal & acts & Hev & Htgt & Hnear & Harr & Hspent
        & Htick) & Hrest).
    destruct (linger_step cfg s c spent inp gs pos dir goal c' acts
                Hs Harm Hev Htgt Hnear Harr Hspent Htick)
      as (Harm' & Htimer).
    destruct (IH c' _ Hs Harm' Hrest) as (Hall & Hend & Hlast).
    cbn. split; [constructor; [apply Harm'|exact Hall]|].
    split; [exact Hend|]. intros _.
    destruct trace as [|ic trace]; [exact Htimer|].
    apply Hlast. discriminate.
Qed.

(** X22.  The watchdog when the entry into the drive state is seen.  In
    a drive state ([GET_STRAIGHT] or [HOME_STRAIGHT]) every evaluated
    iteration that completes leaves the countdown re-armed to
    [TIMER_NEAR_TARGET] when the state differs from the stored previous
    state or the near-target flag rises, and decremented by the loop time
    exactly when the robot is nearer than [DIST_NEAR].  For an execution
    of evaluated iterations that starts with the state differing from
    the stored previous state, or with the near-target flag down, and
    then lingers (near the target, arrival test failing, near-target time
    within the duration): every iteration stays in the drive state and
    the countdown stands at the duration minus the time spent; and the
    first further iteration, near and not arrived, that takes the time
    spent beyond the duration completes, stops the wheels and moves to
    the turn state the drive state belongs to. *)
Theorem watchdog_expiry (cfg : Config) (s : State) (c0 : Ctx)
    (was_near : bool) (trace : list (TickInput * Ctx)) :
  drive_state s = true ->
  state c0 = s ->
  robot_dir_hist c0 <> [] -> robot_dist_hist c0 <> [] ->
  robot_near_target_old c0 = Some was_near ->
  state_differs s (state_old c0) = true \/ was_near = false ->
  lingers cfg s c0 0 trace ->
  (forall c inp game_state robot_pos robot_dir goal near_old c' acts,
      state c = s ->
      evaluated inp = Some (game_state, robot_pos, robot_dir) ->
      target c = Some goal ->
      robot_near_target_old c = Some near_old ->
      tick cfg c inp = Ok (c', acts) ->
      timer_near_target c' =
        countdown s c near_old
          (Rltb (get_distance robot_pos goal) DIST_NEAR)
          (time_now inp - t_old c)) /\
  Forall (fun ic => state (snd ic) = s) trace /\
  (trace <> [] ->
   timer_near_target (last_ctx c0 trace)
   = Some (TIMER_NEAR_TARGET - time_spent c0 0 trace)) /\
  (forall inp game_state robot_pos robot_dir goal,
      evaluated inp = Some (game_state, robot_pos, robot_dir) ->
      target (last_ctx c0 trace) = Some goal ->
      get_distance robot_pos goal < DIST_NEAR ->
      arrival_met cfg s (last_ctx c0 trace) robot_pos = false ->
      time_spent c0 0 trace + (time_now inp - t_old (last_ctx c0 trace))
      > TIMER_NEAR_TARGET ->
      exists c',
        tick cfg (last_ctx c0 trace) inp =
          Ok (c', [run_forever motor_right 0; run_forever motor_left 0]) /\
        state c' = turn_of s /\
        speed_right c' = 0 /\ speed_left c' = 0).
Proof.
  intros Hs Hst Hdir Hdist Hflag Harm0 Hl.
  assert (Harm : armed s c0 0).
  { split; [exact Hst|]. split; [exact Hdir|]. split; [exact Hdist|].
    left. split; [reflexivity|]. exists was_near. auto. }
  destruct (lingers_armed cfg s trace c0 0 Hs Harm Hl)
    as (Hall & Hend & Hlast).
  split.
  { intros c inp gs pos dir goal b c' acts Hc Hev Htgt Hb Htick.
    apply (drive_tick cfg s c inp gs pos dir goal b c' acts
             Hs Hc Hev Htgt Hb Htick). }
  split; [exact Hall|]. split; [exact Hlast|].
  intros inp gs pos dir goal Hev Htgt Hnear Harr Hover.
  set (c := last_ctx c0 trace) in *.
  set (spent := time_spent c0 0 trace) in *.
  destruct (countdown_armed s c spent (time_now inp - t_old c) Hend)
    as (b & Hb & Hcount).
  destruct Hend as (Hc & Hcd & Hcx & _).
  apply Rltb_true in Hnear.
  apply (drive_fire cfg s c inp gs pos dir goal b
           (TIMER_NEAR_TARGET - (spent + (time_now inp - t_old c)))
           Hs Hc Hev Htgt Hb Hcd Hcx Harr).
  - rewrite Hnear. exact Hcount.
  - lra.
Qed.

Lemma driving_first_tick :
  exists c1 acts,
    tick cfg0 ctx_driving (input_near 12) = Ok (c1, acts) /\
    target c1 = Some (mkPoint 1050 1000) /\
    t_old c1 = 12 /\
    arrival_met cfg0 GET_STRAIGHT c1 (mkPoint 1000 1000) = false.
Proof.
  do 2 eexists. split.
  { run_east. reflexivity. }
  split; [reflexivity|]. split; [reflexivity|].
  run_east. reflexivity.
Qed.

Lemma watchdog_expiry_witness :
  exists c1 c',
    Forall (fun ic => state (snd ic) = GET_STRAIGHT) [(input_near 12, c1)] /\
    timer_near_target c1 = Some (TIMER_NEAR_TARGET - (0 + (12 - 10))) /\
    tick cfg0 c1 (input_near 14) =
      Ok (c', [run_forever motor_right 0; run_forever motor_left 0]) /\
    state c' = GET_TURN.
Proof.
  destruct driving_first_tick as (c1 & acts & Htick & Htgt & Hclock & Harr).
  assert (Hl : lingers cfg0 GET_STRAIGHT ctx_driving 0 [(input_near 12, c1)]).
  { split; [|exact I].
    exists gs_apples, (mkPoint 1000 1000), 0, (mkPoint 1050 1000), acts.
    split; [reflexivity|]. split; [reflexivity|].
    split; [rewrite get_distance_east by (cbn; lra);
            cbn; unfold DIST_NEAR; lra|].
    split; [run_east; reflexivity|].
    split; [cbn; unfold TIMER_NEAR_TARGET; lra|exact Htick]. }
  destruct (watchdog_expiry cfg0 GET_STRAIGHT ctx_driving false
              [(input_near 12, c1)] eq_refl eq_refl
              ltac:(discriminate) ltac:(discriminate) eq_refl
              (or_introl eq_refl) Hl)
    as (_ & Hall & Htimer & Hfire).
  destruct (Hfire (input_near 14) gs_apples (mkPoint 1000 1000) 0
              (mkPoint 1050 1000) eq_refl Htgt)
    as (c' & Hlast & Hturn & _).
  - rewrite get_distance_east by (cbn; lra). cbn. unfold DIST_NEAR. lra.
  - exact Harr.
  - cbn. rewrite Hclock. unfold TIMER_NEAR_TARGET. lra.
  - exists c1, c'. split; [exact Hall|].
    split; [apply Htimer; discriminate|]. split; [exact Hlast|exact Hturn].
Defined.

(** ** The watchdog after a lost iteration *)

(** Run the code where the robot heads east along the row of its
    target. *)
Ltac run_row :=
  repeat (progress (run_code;
                    try rewrite !get_distance_east by (cbn; lra);
                    try rewrite !get_angle_east by (cbn; lra);
                    cbn [x y]; decide_abs; decide_R)).

(** The iterations of [feed_revisit] one by one, followed by the next
    iteration in two variants: after the lost iteration, and directly. *)
Lemma revisit_ticks :
  exists c1 a1 c2 a2 c3 a3 c4 a4 c5 a5 c6 a6 c7 a7 c8 a8 c_ok a_ok,
    tick cfg0 (init_ctx 0) (input_far 1) = Ok (c1, a1) /\
    tick cfg0 c1 (input_far 2) = Ok (c2, a2) /\
    tick cfg0 c2 (input_far 3) = Ok (c3, a3) /\
    tick cfg0 c3 (input_close 4) = Ok (c4, a4) /\
    tick cfg0 c4 (input_close 8) = Ok (c5, a5) /\
    tick cfg0 c5 (input_far 9) = Ok (c6, a6) /\
    tick cfg0 c6 input_lost = Ok (c7, a7) /\
    tick cfg0 c7 (input_close 11) = Ok (c8, a8) /\
    tick cfg0 c6 (input_close 11) = Ok (c_ok, a_ok) /\
    (state c1 = GET_TURN /\ state c2 = GET_TURN /\ state c3 = GET_STRAIGHT /\
     state c4 = GET_STRAIGHT /\ state c5 = GET_TURN /\
     state c6 = GET_STRAIGHT /\ state c7 = GET_STRAIGHT /\
     state c8 = GET_TURN /\ state c_ok = GET_STRAIGHT) /\
    (timer_near_target c4 = Some (3 - (4 - 3)) /\
     timer_near_target c5 = Some (3 - (4 - 3) - (8 - 4)) /\
     timer_near_target c7 = Some (3 - (4 - 3) - (8 - 4)) /\
     timer_near_target c8 = Some (3 - (4 - 3) - (8 - 4) - (11 - 10)) /\
     timer_near_target c_ok = Some (3 - (11 - 9))) /\
    (t_old c7 = 10 /\ target c7 = Some (mkPoint 1500 1000) /\
     robot_near_target_old c7 = Some true /\
     robot_dist_hist c8
     = [Fin (1500 - 1450); Fin (1500 - 1450); Fin (1500 - 1000)] /\
     target_dist c8 = 1500 - 1450).
Proof.
  do 18 eexists.
  do 9 (split; [run_row; reflexivity|]).
  repeat split.
Qed.

(** C6, on a feed from the start of the program.  The feed
    [feed_revisit] brings the robot into [GET_STRAIGHT] a second time,
    after the watchdog has fired once and left the countdown at [-2].
    When the next iteration does not see the robot, it consumes the
    state-change flag; the iteration after it, the first of the visit in
    which the robot is near the target (50 mm away, not arrived, one
    second after the previous iteration), finds the countdown neither
    re-armed nor within the duration and leaves [GET_STRAIGHT] for
    [GET_TURN], far earlier than [TIMER_NEAR_TARGET] = 3 seconds of
    near-target time.  On the same feed without the lost iteration, that
    iteration re-arms the countdown on entry, counts it down to [1] and
    keeps driving. *)
Theorem watchdog_fires_early :
  exists c acts c' acts' c_ok acts_ok,
    run cfg0 (init_ctx 0) (feed_revisit ++ [input_lost]) = Ok (c, acts) /\
    state c = GET_STRAIGHT /\
    target c = Some (mkPoint 1500 1000) /\
    timer_near_target c = Some (3 - (4 - 3) - (8 - 4)) /\
    tick cfg0 c (input_close 11) = Ok (c', acts') /\
    get_distance (mkPoint 1450 1000) (mkPoint 1500 1000) < DIST_NEAR /\
    arrival_met cfg0 GET_STRAIGHT c (mkPoint 1450 1000) = false /\
    time_now (input_close 11) - t_old c < TIMER_NEAR_TARGET /\
    state c' = GET_TURN /\
    run cfg0 (init_ctx 0) (feed_revisit ++ [input_close 11])
    = Ok (c_ok, acts_ok) /\
    state c_ok = GET_STRAIGHT /\
    timer_near_target c_ok = Some (TIMER_NEAR_TARGET - (11 - 9)).
Proof.
  destruct revisit_ticks
    as (c1 & a1 & c2 & a2 & c3 & a3 & c4 & a4 & c5 & a5 & c6 & a6 & c7 & a7
        & c8 & a8 & c_ok & a_ok & H1 & H2 & H3 & H4 & H5 & H6 & H7 & H8 & Hok
        & Hstates & Htimers & Hrest).
  destruct Hstates as (_ & _ & _ & _ & _ & _ & Hs7 & Hs8 & Hsok).
  destruct Htimers as (_ & _ & Ht7 & _ & Htok).
  destruct Hrest as (Hclock & Htgt & Hnear & Hhist & Hdist).
  exists c7. eexists. exists c8, a8, c_ok. eexists.
  split.
  { unfold feed_revisit. cbn [app run].
    rewrite H1; cbn [bind]. rewrite H2; cbn [bind].
    rewrite H3; cbn [bind]. rewrite H4; cbn [bind].
    rewrite H5; cbn [bind]. rewrite H6; cbn [bind].
    rewrite H7; cbn [bind]. reflexivity. }
  split; [exact Hs7|]. split; [exact Htgt|]. split; [exact Ht7|].
  split; [exact H8|].
  split.
  { rewrite get_distance_east by (cbn; lra). cbn. unfold DIST_NEAR. lra. }
  split.
  { destruct (drive_tick cfg0 GET_STRAIGHT c7 (input_close 11) gs_close
                (mkPoint 1450 1000) 0 (mkPoint 1500 1000) true c8 a8
                eq_refl Hs7 eq_refl Htgt Hnear H8)
      as (_ & _ & _ & _ & _ & _ & Hwin & _ & _).
    unfold arrival_met. rewrite <- Hwin, Hhist.
    cbn [map sum xgtb]. unfold Rgtb, DIST_EPS. decide_R. reflexivity. }
  split; [rewrite Hclock; cbn; unfold TIMER_NEAR_TARGET; lra|].
  split; [exact Hs8|].
  split.
  { unfold feed_revisit. cbn [app run].
    rewrite H1; cbn [bind]. rewrite H2; cbn [bind].
    rewrite H3; cbn [bind]. rewrite H4; cbn [bind].
    rewrite H5; cbn [bind]. rewrite H6; cbn [bind].
    rewrite Hok; cbn [bind]. reflexivity. }
  split; [exact Hsok|exact Htok].
Qed.

(** * Further properties *)

(** ** Distances *)

(** X1.  [get_distance] is a metric on points as far as the loop relies
    on it: never negative, the same in both directions, and zero exactly
    between a point and itself. *)
Theorem get_distance_metric (p1 p2 : Point) :
  0 <= get_distance p1 p2 /\
  get_distance p1 p2 = get_distance p2 p1 /\
  (get_distance p1 p2 = 0 <-> p1 = p2).
Proof.
  unfold get_distance. split; [apply sqrt_pos|]. split.
  - f_equal. ring.
  - split.
    + intros H. destruct p1 as [x1 y1], p2 as [x2 y2]. cbn [x y] in *.
      pose proof (pow2_ge_0 (x2 - x1)) as Hx.
      pose proof (pow2_ge_0 (y2 - y1)) as Hy.
      apply sqrt_eq_0 in H; [|lra].
      assert (Hx0 : Rsqr (x2 - x1) = 0) by (unfold Rsqr; lra).
      assert (Hy0 : Rsqr (y2 - y1) = 0) by (unfold Rsqr; lra).
      apply Rsqr_0_uniq in Hx0, Hy0. f_equal; lra.
    + intros ->.
      replace ((x p2 - x p2) ^ 2 + (y p2 - y p2) ^ 2) with 0 by ring.
      apply sqrt_0.
Qed.

(** ** The selector of bad apples *)

Lemma eligible_bad_spec closest_id apple :
  eligible_bad closest_id apple = true <->
  apple_type apple = "appleBad"%string /\ apple_id apple <> closest_id.
Proof.
  unfold eligible_bad. rewrite andb_true_iff, negb_true_iff.
  rewrite String.eqb_eq, Z.eqb_neq. tauto.
Qed.

Lemma closest_bad_fold_inv pos ex l :
  closest_bad_inv pos ex l
    (fold_left (closest_bad_step pos ex) l (None, PInf)).
Proof.
  induction l as [|apple l IH] using rev_ind.
  - split; [reflexivity | intros b []].
  - rewrite fold_left_app. cbn [fold_left].
    unfold closest_bad_step at 1. fold (eligible_bad ex apple).
    destruct (fold_left _ l _) as [[a|] d]; cbn [closest_bad_inv snd] in *.
    + destruct IH as (-> & Ha & l1 & l2 & -> & Hl1 & Hl2).
      destruct (eligible_bad ex apple) eqn:He.
      * cbn [xltb]. destruct (Rltb _ _) eqn:Hlt.
        -- apply Rltb_true in Hlt.
           split; [reflexivity|]. split; [exact He|].
           exists (l1 ++ a :: l2), []. split; [reflexivity|].
           split; [|intros b []].
           intros b Hb Hbe. apply in_app_or in Hb.
           destruct Hb as [Hb|[<-|Hb]].
           ++ specialize (Hl1 b Hb Hbe). lra.
           ++ exact Hlt.
           ++ specialize (Hl2 b Hb Hbe). lra.
        -- apply Rltb_false in Hlt.
           split; [reflexivity|]. split; [exact Ha|].
           exists l1, (l2 ++ [apple]).
           split; [now rewrite <- app_assoc|]. split; [exact Hl1|].
           intros b Hb Hbe. apply in_app_or in Hb.
           destruct Hb as [Hb|[<-|[]]]; [now apply Hl2|exact Hlt].
      * split; [reflexivity|]. split; [exact Ha|].
        exists l1, (l2 ++ [apple]).
        split; [now rewrite <- app_assoc|]. split; [exact Hl1|].
        intros b Hb Hbe. apply in_app_or in Hb.
        destruct Hb as [Hb|[<-|[]]]; [now apply Hl2|congruence].
    + destruct IH as (-> & Hnone).
      destruct (eligible_bad ex apple) eqn:He.
      * cbn [xltb]. split; [reflexivity|]. split; [exact He|].
        exists l, []. split; [reflexivity|].
        split; [|intros b []].
        intros b Hb Hbe. rewrite (Hnone b Hb) in Hbe. discriminate.
      * split; [reflexivity|].
        intros b Hb. apply in_app_or in Hb.
        destruct Hb as [Hb|[<-|[]]]; [now apply Hnone|exact He].
Qed.

(** X2.  [get_closest_bad_apple] returns an entry of type ["appleBad"]
    whose id is not the excluded one, strictly closer to the origin than
    every such entry before it and at least as close as every such entry
    after it, or [None] when the snapshot has no such entry; what it
    returns is never what [get_closest_good_apple] returns. *)
Theorem get_closest_bad_apple_spec (game_state : GameState)
    (robot_pos : Point) (closest_id : Z) :
  match get_closest_bad_apple game_state robot_pos closest_id with
  | Some apple =>
      apple_type apple = "appleBad"%string /\
      apple_id apple <> closest_id /\
      (exists before after,
          apples game_state = before ++ apple :: after /\
          (forall b, In b before ->
             apple_type b = "appleBad"%string -> apple_id b <> closest_id ->
             get_distance robot_pos (apple_position apple)
             < get_distance robot_pos (apple_position b)) /\
          (forall b, In b after ->
             apple_type b = "appleBad"%string -> apple_id b <> closest_id ->
             get_distance robot_pos (apple_position apple)
             <= get_distance robot_pos (apple_position b))) /\
      (forall pos' id',
          get_closest_good_apple game_state pos' id' <> Some apple)
  | None =>
      forall b, In b (apples game_state) ->
        ~ (apple_type b = "appleBad"%string /\ apple_id b <> closest_id)
  end.
Proof.
  unfold get_closest_bad_apple.
  pose proof (closest_bad_fold_inv robot_pos closest_id (apples game_state))
    as H.
  destruct (fold_left _ _ _) as [[a|] d]; cbn [fst closest_bad_inv] in *.
  - destruct H as (_ & Ha & l1 & l2 & Heq & Hl1 & Hl2).
    apply eligible_bad_spec in Ha. destruct Ha as [Hty Hid].
    split; [exact Hty|]. split; [exact Hid|]. split.
    + exists l1, l2. split; [exact Heq|].
      split; intros b Hb Hbt Hbi.
      * apply Hl1; [exact Hb|]. apply eligible_bad_spec. auto.
      * apply Hl2; [exact Hb|]. apply eligible_bad_spec. auto.
    + intros pos' id' Hgood.
      apply get_closest_good_apple_eligible in Hgood.
      apply eligible_spec in Hgood. destruct Hgood as [Hgood _].
      rewrite Hty in Hgood. discriminate.
  - destruct H as (_ & Hnone). intros b Hb Hbe.
    apply eligible_bad_spec in Hbe. rewrite (Hnone b Hb) in Hbe.
    discriminate.
Qed.

(** ** The unused position lookup *)

(** X3.  [get_robot_pos] returns [None] when no entry of the snapshot has
    the id asked for.  When one has, it returns the position of the
    global [robot_data], the entry the main loop looked at last, whichever
    entry matched, and raises [NameError] while that global is
    unassigned. *)
Theorem get_robot_pos_reads_global (game_state : GameState) (robot_id_arg : Z)
    (robot_data : option Robot) :
  ((forall r, In r (robots game_state) -> robot_id r <> robot_id_arg) ->
   get_robot_pos game_state robot_id_arg robot_data = Ok None) /\
  ((exists r, In r (robots game_state) /\ robot_id r = robot_id_arg) ->
   get_robot_pos game_state robot_id_arg robot_data =
     match robot_data with
     | Some last => Ok (Some (robot_position last))
     | None => Raise NameError
     end).
Proof.
  unfold get_robot_pos. induction (robots game_state) as [|r0 rs IH].
  - split; [reflexivity|]. intros (r & [] & _).
  - cbn [get_robot_pos_loop]. destruct IH as [IHnone IHsome].
    destruct (robot_id r0 =? robot_id_arg)%Z eqn:E.
    + apply Z.eqb_eq in E. split.
      * intros H. destruct (H r0 (or_introl eq_refl) E).
      * intros _. destruct robot_data; reflexivity.
    + apply Z.eqb_neq in E. split.
      * intros H. apply IHnone. intros r Hr. apply H. right. exact Hr.
      * intros (r & [<-|Hr] & Hid); [contradiction|].
        apply IHsome. exists r. auto.
Qed.

Lemma get_robot_pos_reads_global_witness :
  get_robot_pos gs_two_robots 35 (Some robot_b) = Ok (Some (mkPoint 900 800)).
Proof.
  apply (get_robot_pos_reads_global gs_two_robots 35 (Some robot_b)).
  exists robot_a. split; [left; reflexivity|reflexivity].
Defined.

(** ** The home zones *)

(** X4.  The two home zones are open rectangles ([1 < x < 520] and
    [3046 < x < 3559], both with [520 < y < 1525]): a point on an edge is
    in neither, and no point is in both. *)
Theorem home_zones_disjoint (position : Point) :
  (in_team_one position = true <->
   1 < x position < 520 /\ 520 < y position < 1525) /\
  (in_team_two position = true <->
   3046 < x position < 3559 /\ 520 < y position < 1525) /\
  ~ (in_team_one position = true /\ in_team_two position = true).
Proof.
  unfold in_team_one, in_team_two, Rgtb.
  rewrite !andb_true_iff, !Rltb_true. repeat split; intros; lra.
Qed.

(** ** Moving a point *)

Lemma round_error_bound (rnd : R -> R) (v b : R) :
  rounds rnd -> Rabs v <= b ->
  - (unit_roundoff * b) <= rnd v - v <= unit_roundoff * b.
Proof.
  intros Hr Hv. specialize (Hr v). apply Rabs_le_inv.
  assert (Hu : 0 <= unit_roundoff) by (unfold unit_roundoff; lra).
  pose proof (Rmult_le_compat_l _ _ _ Hu Hv). lra.
Qed.

Lemma sin_abs_le (h : R) : Rabs (sin h) <= Rabs h.
Proof.
  assert (Hpos : forall k, 0 < k -> - k <= sin k <= k).
  { intros k Hk. pose proof (sin_lt_x k Hk). pose proof (SIN_bound k).
    destruct (Rle_dec 1 k) as [H1|H1]; [lra|].
    pose proof PI2_1.
    assert (0 < sin k) by (apply sin_gt_0; lra). lra. }
  destruct (Rtotal_order h 0) as [Hh|[->|Hh]].
  - specialize (Hpos (- h) ltac:(lra)). rewrite sin_neg in Hpos.
    rewrite (Rabs_left h) by lra. apply Rabs_le. lra.
  - rewrite sin_0, Rabs_R0. lra.
  - specialize (Hpos h Hh). rewrite (Rabs_pos_eq h) by lra.
    apply Rabs_le. lra.
Qed.

Lemma cos_lipschitz (p q : R) : Rabs (cos p - cos q) <= Rabs (p - q).
Proof.
  rewrite form2, !Rabs_mult.
  pose proof (sin_abs_le ((p - q) / 2)) as Hs.
  pose proof (SIN_bound ((p + q) / 2)) as Hb.
  assert (Hk : Rabs (sin ((p + q) / 2)) <= 1) by (apply Rabs_le; lra).
  replace (Rabs (-2)) with 2 by (rewrite Rabs_left; lra).
  assert (Hh : Rabs ((p - q) / 2) = Rabs (p - q) / 2).
  { unfold Rdiv. rewrite Rabs_mult, (Rabs_pos_eq (/ 2)) by lra.
    reflexivity. }
  rewrite Hh in Hs.
  pose proof (Rabs_pos (sin ((p - q) / 2))).
  pose proof (Rabs_pos (sin ((p + q) / 2))).
  nra.
Qed.

Lemma sin_lipschitz (p q : R) : Rabs (sin p - sin q) <= Rabs (p - q).
Proof.
  rewrite form4, !Rabs_mult.
  pose proof (sin_abs_le ((p - q) / 2)) as Hs.
  pose proof (COS_bound ((p + q) / 2)) as Hb.
  assert (Hk : Rabs (cos ((p + q) / 2)) <= 1) by (apply Rabs_le; lra).
  replace (Rabs 2) with 2 by (rewrite Rabs_pos_eq; lra).
  assert (Hh : Rabs ((p - q) / 2) = Rabs (p - q) / 2).
  { unfold Rdiv. rewrite Rabs_mult, (Rabs_pos_eq (/ 2)) by lra.
    reflexivity. }
  rewrite Hh in Hs.
  pose proof (Rabs_pos (sin ((p - q) / 2))).
  pose proof (Rabs_pos (cos ((p + q) / 2))).
  nra.
Qed.

Lemma radians_lipschitz (a b : R) :
  Rabs (radians a - radians b) <= Rabs (a - b) / 45.
Proof.
  unfold radians.
  replace (a * (PI / 180) - b * (PI / 180)) with ((a - b) * (PI / 180))
    by ring.
  rewrite Rabs_mult. pose proof PI_4. pose proof PI_RGT_0.
  rewrite (Rabs_pos_eq (PI / 180)) by lra.
  pose proof (Rabs_pos (a - b)). nra.
Qed.

Lemma radians_bound (d : R) : 0 <= d <= 360 -> 0 <= radians d <= 8.
Proof.
  intros Hd. unfold radians. pose proof PI_4. pose proof PI_RGT_0.
  split; nra.
Qed.

Lemma cos_radians_turn (d : R) : cos (radians (360 - d)) = cos (radians d).
Proof.
  unfold radians.
  replace ((360 - d) * (PI / 180)) with (- (d * (PI / 180)) + 2 * INR 1 * PI)
    by (simpl; field).
  rewrite cos_period. apply cos_neg.
Qed.

Lemma sin_radians_turn (d : R) : sin (radians (360 - d)) = - sin (radians d).
Proof.
  unfold radians.
  replace ((360 - d) * (PI / 180)) with (- (d * (PI / 180)) + 2 * INR 1 * PI)
    by (simpl; field).
  rewrite sin_period. apply sin_neg.
Qed.

(** The direction [point_transpose] turns its argument into: a float
    within 2^-44 of an angle in [[0, 360]] whose cosine is that of the
    argument and whose sine is the opposite. *)
Lemma transposed_direction (rnd : R -> R) (direction : R) :
  rounds rnd -> Rabs direction <= 360 ->
  let d := if Rltb direction 0 then - direction
           else rnd (360 - direction) in
  exists d_exact,
    0 <= d_exact <= 360 /\
    - / 2 ^ 44 <= d - d_exact <= / 2 ^ 44 /\
    cos (radians d_exact) = cos (radians direction) /\
    sin (radians d_exact) = - sin (radians direction).
Proof.
  intros Hr Hd. apply Rabs_le_inv in Hd. cbv zeta.
  destruct (Rltb direction 0) eqn:Hneg.
  - apply Rltb_true in Hneg. exists (- direction).
    split; [lra|]. split; [lra|].
    unfold radians.
    replace (- direction * (PI / 180)) with (- (direction * (PI / 180)))
      by ring.
    rewrite cos_neg, sin_neg. split; reflexivity.
  - apply Rltb_false in Hneg. exists (360 - direction).
    split; [lra|]. split.
    + assert (Hb : Rabs (360 - direction) <= 512) by (apply Rabs_le; lra).
      pose proof (round_error_bound rnd _ _ Hr Hb) as He.
      unfold unit_roundoff in He. lra.
    + split; [apply cos_radians_turn|apply sin_radians_turn].
Qed.

(** One coordinate of [point_transpose]: the float added to it is within
    2^-37 of 150 times the exact cosine or sine. *)
Lemma transposed_coordinate (rnd : R -> R) (math_radians f g : R -> R)
    (d d_exact v : R) :
  rounds rnd ->
  approximates_rel math_radians radians (4 * unit_roundoff) ->
  approximates f g (2 * unit_roundoff) ->
  (forall p q, Rabs (g p - g q) <= Rabs (p - q)) ->
  (forall p, - 1 <= g p <= 1) ->
  0 <= d_exact <= 360 ->
  - / 2 ^ 44 <= d - d_exact <= / 2 ^ 44 ->
  Rabs v <= 3900 ->
  - / 2 ^ 37
  <= rnd (v + rnd (f (math_radians d) * 150))
     - (v + 150 * g (radians d_exact))
  <= / 2 ^ 37.
Proof.
  intros Hr Hrad Hf Hlip Hg Hd He Hv. apply Rabs_le_inv in Hv.
  pose proof (radians_bound d_exact Hd) as Hre.
  pose proof (radians_lipschitz d d_exact) as Hrl.
  assert (Hde : Rabs (d - d_exact) <= / 2 ^ 44) by (apply Rabs_le; lra).
  assert (Hrd : - / 2 ^ 49 <= radians d - radians d_exact <= / 2 ^ 49).
  { apply Rabs_le_inv. lra. }
  assert (Hrb : Rabs (radians d) <= 16) by (apply Rabs_le; lra).
  specialize (Hrad d). cbv beta in Hrad.
  assert (Ht : - / 2 ^ 47 <= math_radians d - radians d <= / 2 ^ 47).
  { apply Rabs_le_inv. unfold unit_roundoff in Hrad.
    assert (/ 2 ^ 53 * Rabs (radians d) <= / 2 ^ 53 * 16)
      by (apply Rmult_le_compat_l; lra).
    lra. }
  set (t := math_radians d) in *.
  pose proof (Hlip t (radians d_exact)) as Hl.
  assert (Hte : Rabs (t - radians d_exact) <= / 2 ^ 46)
    by (apply Rabs_le; lra).
  specialize (Hf t). unfold unit_roundoff in Hf.
  apply Rabs_le_inv in Hf.
  assert (Hg1 : - / 2 ^ 46 <= g t - g (radians d_exact) <= / 2 ^ 46).
  { apply Rabs_le_inv. lra. }
  specialize (Hg (radians d_exact)).
  set (c := f t) in *. set (c_exact := g (radians d_exact)) in *.
  clearbody c c_exact t.
  assert (Hm : Rabs (c * 150) <= 4096) by (apply Rabs_le; lra).
  pose proof (round_error_bound rnd _ _ Hr Hm) as Hem.
  set (m := rnd (c * 150)) in *. clearbody m.
  assert (Hs : Rabs (v + m) <= 4096).
  { apply Rabs_le. unfold unit_roundoff in Hem. lra. }
  pose proof (round_error_bound rnd _ _ Hr Hs) as Hes.
  unfold unit_roundoff in *. lra.
Qed.

(** A step of 150 with an error of at most [e] in each coordinate has
    length 150 within [4 * e]. *)
Lemma step_length (dx dy c s e : R) :
  Rsqr s + Rsqr c = 1 ->
  0 <= e <= 1 ->
  - e <= dx - 150 * c <= e ->
  - e <= dy - (- (150 * s)) <= e ->
  150 - 4 * e <= sqrt (dx ^ 2 + dy ^ 2) <= 150 + 4 * e.
Proof.
  intros Hcs He Hdx Hdy. unfold Rsqr in Hcs.
  assert (Hc : - 1 <= c <= 1) by nra.
  assert (Hs : - 1 <= s <= 1) by nra.
  set (e1 := dx - 150 * c) in *. set (e2 := dy - (- (150 * s))) in *.
  assert (Hq : dx ^ 2 + dy ^ 2
               = 150 ^ 2 + 300 * (c * e1 - s * e2) + e1 ^ 2 + e2 ^ 2).
  { unfold e1, e2.
    replace (150 ^ 2) with (150 ^ 2 * (s * s + c * c)) by (rewrite Hcs; ring).
    ring. }
  assert (Hce : - e <= c * e1 <= e) by nra.
  assert (Hse : - e <= s * e2 <= e) by nra.
  assert (He1 : 0 <= e1 ^ 2 <= e * e) by nra.
  assert (He2 : 0 <= e2 ^ 2 <= e * e) by nra.
  split.
  - rewrite <- (sqrt_pow2 (150 - 4 * e)) by lra.
    apply sqrt_le_1_alt. rewrite Hq. nra.
  - rewrite <- (sqrt_pow2 (150 + 4 * e)) by lra.
    apply sqrt_le_1_alt. rewrite Hq. nra.
Qed.

(** X5.  [point_transpose] moves the point by 150 mm, up to rounding.
    For a direction of at most a turn and coordinates on the field, with
    [math.cos] and [math.sin] accurate to two units of roundoff and
    [math.radians] to four, both branches on the sign of [direction] give
    the point [(x + 150 cos d, y - 150 sin d)], [d] the direction in
    radians, within [point_tol / 4] (2^-37 mm) in each coordinate, and the
    point moves by 150 mm within [point_tol] (2^-35 mm).  The
    coordinates and the distance are not exact in floats. *)
Theorem point_transpose_step (rnd : R -> R)
    (math_radians math_cos math_sin : R -> R) (curr : Point)
    (direction : R) :
  rounds rnd ->
  approximates_rel math_radians radians (4 * unit_roundoff) ->
  approximates math_cos cos (2 * unit_roundoff) ->
  approximates math_sin sin (2 * unit_roundoff) ->
  Rabs direction <= 360 ->
  Rabs (x curr) <= 3900 -> Rabs (y curr) <= 3900 ->
  let new := Rounded.point_transpose rnd math_radians math_cos math_sin
               curr direction in
  Rabs (x new - (x curr + 150 * cos (radians direction))) <= point_tol / 4 /\
  Rabs (y new - (y curr - 150 * sin (radians direction))) <= point_tol / 4 /\
  Rabs (get_distance curr new - 150) <= point_tol.
Proof.
  intros Hr Hrad Hcos Hsin Hd Hx Hy. cbv zeta.
  unfold Rounded.point_transpose.
  destruct (transposed_direction rnd direction Hr Hd)
    as (d_exact & Hde & Herr & Hc & Hs).
  cbv zeta in Herr.
  set (d := if Rltb direction 0 then - direction
            else rnd (360 - direction)) in *.
  pose proof (transposed_coordinate rnd math_radians math_cos cos d d_exact
                (x curr) Hr Hrad Hcos cos_lipschitz COS_bound Hde Herr Hx)
    as Hcx.
  pose proof (transposed_coordinate rnd math_radians math_sin sin d d_exact
                (y curr) Hr Hrad Hsin sin_lipschitz SIN_bound Hde Herr Hy)
    as Hcy.
  rewrite Hc in Hcx. rewrite Hs in Hcy.
  unfold get_distance. cbn [x y].
  set (x' := rnd (x curr + rnd (math_cos (math_radians d) * 150))) in *.
  set (y' := rnd (y curr + rnd (math_sin (math_radians d) * 150))) in *.
  clearbody x' y'.
  pose proof (step_length (x' - x curr) (y' - y curr)
                (cos (radians direction)) (sin (radians direction))
                (/ 2 ^ 37) (sin2_cos2 _) ltac:(lra) ltac:(lra) ltac:(lra))
    as Hlen.
  unfold point_tol. repeat split; apply Rabs_le; lra.
Qed.

(** Exact arithmetic, from the origin in direction 0. *)
Lemma point_transpose_step_witness :
  Rabs (get_distance (mkPoint 0 0)
          (Rounded.point_transpose (fun v => v) radians cos sin
             (mkPoint 0 0) 0)
        - 150) <= point_tol.
Proof.
  assert (Hexact : forall f : R -> R, forall e, 0 <= e ->
            approximates f f e).
  { intros f e He v. replace (f v - f v) with 0 by ring.
    rewrite Rabs_R0. exact He. }
  assert (Hu : 0 <= unit_roundoff) by (unfold unit_roundoff; lra).
  apply (point_transpose_step (fun v => v) radians cos sin (mkPoint 0 0) 0).
  - apply rounds_exact.
  - intros v. replace (radians v - radians v) with 0 by ring.
    rewrite Rabs_R0. apply Rmult_le_pos; [lra|apply Rabs_pos].
  - apply Hexact. lra.
  - apply Hexact. lra.
  - rewrite Rabs_R0. lra.
  - cbn. rewrite Rabs_R0. lra.
  - cbn. rewrite Rabs_R0. lra.
Defined.

(** ** More on the PID regulator *)

Lemma same_gains_refl (p : PID.t) : same_gains p p.
Proof. repeat split. Qed.

Lemma same_gains_trans (p q r : PID.t) :
  same_gains p q -> same_gains q r -> same_gains p r.
Proof.
  unfold same_gains. intros (H1 & H2 & H3 & H4 & H5) (K1 & K2 & K3 & K4 & K5).
  repeat split; congruence.
Qed.

Lemma update_same_gains (self self' : PID.t) (now m u : R) :
  PID.update self now m = Ok (self', u) -> same_gains self self'.
Proof.
  unfold PID.update.
  destruct (PID._value self); [|intros [= <- _]; repeat split].
  destruct (PID._time self); cbn [deref bind]; [|discriminate].
  destruct (PID._ki self) eqn:Hki, (PID._kd self) eqn:Hkd;
    cbn [deref bind];
    try (destruct (PID._integral self); cbn [deref bind]; [|discriminate]);
    try (destruct (PID._error self); cbn [deref bind]; [|discriminate]);
    try (destruct (Reqb _ _); cbn [bind]; [discriminate|]);
    intros [= <- _]; repeat split; cbn; congruence.
Qed.

Lemma reset0_same_gains (self : PID.t) : same_gains self (PID.reset0 self).
Proof. repeat split. Qed.

(** X6.  A regulator is always in one of two shapes, fresh (no running
    state) or initialized (error, time, integral and value all present).
    From either shape [update] never fails on a missing value: it raises
    [ZeroDivisionError] or returns, and when it returns the regulator is
    initialized, holds the new error, clock and measurement, and has the
    setpoint, gains and integral limit it had. *)
Theorem update_keeps_shape (self : PID.t) (now m : R) :
  PID.fresh self \/ PID.initialized self ->
  PID.update self now m = Raise ZeroDivisionError \/
  exists self' u,
    PID.update self now m = Ok (self', u) /\
    PID.initialized self' /\
    same_gains self self' /\
    PID._error self' = Some (PID._setpoint self - m) /\
    PID._time self' = Some now /\
    PID._value self' = Some m.
Proof.
  intros [Hfresh|(e & tm & acc & v & He & Ht & Hi & Hv)].
  - right. rewrite (PIDFacts.update_fresh self now m Hfresh).
    do 2 eexists. split; [reflexivity|].
    split; [unfold PID.initialized; cbn; eauto 10|].
    repeat split.
  - unfold PID.update. rewrite Hv, Ht, Hi, He. cbn [deref bind].
    destruct (PID._ki self) as [ki|] eqn:Hki,
             (PID._kd self) as [kd|] eqn:Hkd;
      cbn [bind];
      try (destruct (Reqb (now - tm) 0); cbn [bind]; [left; reflexivity|]);
      right; do 2 eexists; (split; [reflexivity|]);
      (split; [unfold PID.initialized; cbn; eauto 10|]);
      (split; [repeat split; cbn; congruence|]);
      repeat split.
Qed.

Lemma update_keeps_shape_witness :
  PID.update PID.pid_called_once 6 3 = Raise ZeroDivisionError \/
  exists self' u,
    PID.update PID.pid_called_once 6 3 = Ok (self', u) /\
    PID.initialized self' /\
    same_gains PID.pid_called_once self' /\
    PID._error self' = Some (PID._setpoint PID.pid_called_once - 3) /\
    PID._time self' = Some 6 /\
    PID._value self' = Some 3.
Proof.
  apply (update_keeps_shape PID.pid_called_once 6 3).
  right. unfold PID.initialized. cbn. eauto 10.
Defined.

(** X7.  With [ki] and a non-negative [integral_limit] configured, a
    call after the first adds [error * dt] to the stored integral and
    returns [p + i + d] where the integral term [i] is [ki] times the new
    integral cut to [[-limit, limit]]: the limit bounds the term, the
    stored integral itself grows without bound.  With [ki = 0] the term
    is [0]. *)
Theorem update_integral_term (self self' : PID.t) (now m u : R)
    (ki lim e tm acc v : R) :
  PID._ki self = Some ki ->
  PID._integral_limit self = Some lim ->
  0 <= lim ->
  PID._error self = Some e -> PID._time self = Some tm ->
  PID._integral self = Some acc -> PID._value self = Some v ->
  PID.update self now m = Ok (self', u) ->
  let error := PID._setpoint self - m in
  let i := Rmax (Rmin (ki * (acc + error * (now - tm))) lim) ((-1) * lim) in
  let d := match PID._kd self with
           | Some kd => kd * (error - e) / (now - tm)
           | None => 0
           end in
  u = PID._kp self * error + i + d /\
  - lim <= i <= lim /\
  (ki = 0 -> i = 0) /\
  PID._integral self' = Some (acc + error * (now - tm)).
Proof.
  intros Hki Hlim Hpos He Ht Hi Hv Hup error i d.
  unfold PID.update in Hup.
  rewrite Hv, Ht, Hki, Hi, Hlim, He in Hup. cbn [deref bind] in Hup.
  assert (Hbound : - lim <= i <= lim).
  { unfold i. split.
    - eapply Rle_trans; [|apply Rmax_r]. lra.
    - apply Rmax_lub; [apply Rmin_r|lra]. }
  assert (Hzero : ki = 0 -> i = 0).
  { intros ->. unfold i. rewrite Rmult_0_l.
    rewrite Rmin_left by lra. rewrite Rmax_left by lra. reflexivity. }
  unfold d. destruct (PID._kd self) as [kd|]; cbn [bind] in Hup.
  - destruct (Reqb (now - tm) 0); cbn [bind] in Hup; [discriminate|].
    injection Hup as <- <-. repeat split; try apply Hbound; exact Hzero.
  - injection Hup as <- <-. repeat split; try apply Hbound; exact Hzero.
Qed.

Lemma update_integral_term_witness :
  exists self' u,
    PID.update pid_wound_up 6 (- 1) = Ok (self', u) /\
    - 100 <= Rmax (Rmin (2 * (1000 + (0 - - 1) * (6 - 5))) 100)
               ((-1) * 100) <= 100 /\
    PID._integral self' = Some (1000 + (0 - - 1) * (6 - 5)).
Proof.
  assert (Hpos : 0 <= 100) by lra.
  do 2 eexists. split; [reflexivity|].
  destruct (update_integral_term pid_wound_up _ 6 (- 1) _
              2 100 0 5 1000 0 eq_refl eq_refl Hpos eq_refl eq_refl
              eq_refl eq_refl eq_refl)
    as (_ & Hb & _ & Hi).
  split; [exact Hb|exact Hi].
Defined.

(** X8.  A regulator with neither [ki] nor [kd] never fails, in either
    shape, and every call returns the proportional term
    [kp * (setpoint - measurement)] alone. *)
Theorem update_proportional_only (self : PID.t) (now m : R) :
  PID._ki self = None -> PID._kd self = None ->
  PID.fresh self \/ PID.initialized self ->
  exists self' u,
    PID.update self now m = Ok (self', u) /\
    u = PID._kp self * (PID._setpoint self - m).
Proof.
  intros Hki Hkd [Hfresh|(e & tm & acc & v & He & Ht & Hi & Hv)].
  - rewrite (PIDFacts.update_fresh self now m Hfresh).
    do 2 eexists. split; reflexivity.
  - unfold PID.update. rewrite Hv, Ht, Hki, Hkd. cbn [deref bind].
    do 2 eexists. split; [reflexivity|]. ring.
Qed.

Lemma update_proportional_only_witness :
  exists self' u,
    PID.update (PID.init 10 3 None None None) 1 4 = Ok (self', u) /\
    u = 3 * (10 - 4).
Proof.
  apply (update_proportional_only (PID.init 10 3 None None None) 1 4);
    try reflexivity.
  left. apply PIDFacts.init_fresh.
Defined.

(** ** The delay measurement *)

Lemma rounds_nonneg (rnd : R -> R) (v : R) :
  rounds rnd -> 0 <= v ->
  (1 - unit_roundoff) * v <= rnd v <= (1 + unit_roundoff) * v.
Proof.
  intros Hr Hv. specialize (Hr v). rewrite (Rabs_pos_eq v) in Hr by lra.
  apply Rabs_le_inv in Hr. lra.
Qed.

Lemma unit_roundoff_small : 0 < unit_roundoff < 1.
Proof. unfold unit_roundoff. lra. Qed.

(** One more delay added to a sum known up to [k] roundings. *)
Lemma rounded_sum_step (rnd : R -> R) (k : nat) (s tot d : R) :
  rounds rnd -> 0 <= tot -> 0 <= d ->
  (1 - unit_roundoff) ^ k * tot <= s <= (1 + unit_roundoff) ^ k * tot ->
  (1 - unit_roundoff) ^ (k + 2) * (tot + d)
  <= rnd (s + rnd d)
  <= (1 + unit_roundoff) ^ (k + 2) * (tot + d).
Proof.
  intros Hr HS Hd Hs. pose proof unit_roundoff_small as Hu.
  set (u := unit_roundoff) in *.
  assert (Ha : 0 <= (1 - u) ^ k <= 1).
  { split; [apply pow_le; lra|].
    apply Rle_trans with (1 ^ k); [apply pow_incr; lra|].
    rewrite pow1. lra. }
  assert (HA : 1 <= (1 + u) ^ k) by (apply pow_R1_Rle; lra).
  pose proof (rounds_nonneg rnd d Hr Hd) as He. fold u in He.
  set (e := rnd d) in *. clearbody e.
  set (a := (1 - u) ^ k) in *. set (A := (1 + u) ^ k) in *.
  assert (Hs0 : 0 <= s).
  { assert (0 <= a * tot) by (apply Rmult_le_pos; lra). lra. }
  assert (He0 : 0 <= e).
  { assert (0 <= (1 - u) * d) by (apply Rmult_le_pos; lra). lra. }
  pose proof (rounds_nonneg rnd (s + e) Hr ltac:(lra)) as Hse. fold u in Hse.
  replace ((1 - u) ^ (k + 2)) with (a * ((1 - u) * (1 - u)))
    by (unfold a; rewrite pow_add; simpl; ring).
  replace ((1 + u) ^ (k + 2)) with (A * ((1 + u) * (1 + u)))
    by (unfold A; rewrite pow_add; simpl; ring).
  clearbody a A u.
  assert (Hb : 0 <= 1 - u <= 1) by lra.
  assert (HB : 1 <= 1 + u) by lra.
  set (b := 1 - u) in *. set (B := 1 + u) in *. clearbody b B.
  assert (H1 : a * (b * b) * tot <= b * (a * tot)).
  { assert (0 <= a * tot) by (apply Rmult_le_pos; lra).
    assert (0 <= b * (a * tot)) by (apply Rmult_le_pos; lra). nra. }
  assert (H2 : a * (b * b) * d <= b * (b * d)).
  { assert (0 <= b * d) by (apply Rmult_le_pos; lra).
    assert (0 <= b * (b * d)) by (apply Rmult_le_pos; lra). nra. }
  assert (H3 : B * (A * tot) <= A * (B * B) * tot).
  { assert (0 <= A * tot) by (apply Rmult_le_pos; lra).
    assert (0 <= B * (A * tot)) by (apply Rmult_le_pos; lra). nra. }
  assert (H4 : B * (B * d) <= A * (B * B) * d).
  { assert (0 <= B * d) by (apply Rmult_le_pos; lra).
    assert (0 <= B * (B * d)) by (apply Rmult_le_pos; lra). nra. }
  assert (H5 : b * (a * tot + b * d) <= b * (s + e))
    by (apply Rmult_le_compat_l; lra).
  assert (H6 : B * (s + e) <= B * (A * tot + B * d))
    by (apply Rmult_le_compat_l; lra).
  lra.
Qed.

(** The loop when no round ends the program: the sum it returns is the
    exact sum of the delays up to two roundings per round. *)
Lemma test_delay_loop_sum (rnd : R -> R) (robot_die : die_outcome)
    (probe : nat -> Probe) :
  rounds rnd ->
  forall (remaining i k : nat) (s tot : R),
    (robot_die = Returns \/
     forall j, (i <= j < i + remaining)%nat -> parsed (probe j) = true) ->
    (forall j, (i <= j < i + remaining)%nat ->
       start_time (probe j) <= end_time (probe j)) ->
    0 <= tot ->
    (1 - unit_roundoff) ^ k * tot <= s <= (1 + unit_roundoff) ^ k * tot ->
    exists s',
      Rounded.test_delay_loop rnd robot_die probe remaining i s = Some s' /\
      (1 - unit_roundoff) ^ (k + 2 * remaining)
      * (tot + delay_sum probe remaining i)
      <= s'
      <= (1 + unit_roundoff) ^ (k + 2 * remaining)
         * (tot + delay_sum probe remaining i).
Proof.
  intros Hr. induction remaining as [|remaining IH];
    intros i k s tot Hparsed Htime HS Hs.
  - exists s. split; [reflexivity|]. cbn [delay_sum].
    rewrite Nat.mul_0_r, Nat.add_0_r, Rplus_0_r. exact Hs.
  - cbn [Rounded.test_delay_loop delay_sum].
    assert (Hdied : (if parsed (probe i) then false
                     else match robot_die with
                          | Exits => true
                          | Returns => false
                          end) = false).
    { destruct Hparsed as [->|Hp]; [destruct (parsed (probe i)); reflexivity|].
      rewrite Hp by lia. reflexivity. }
    rewrite Hdied.
    set (d := end_time (probe i) - start_time (probe i)).
    assert (Hd : 0 <= d) by (specialize (Htime i ltac:(lia)); unfold d; lra).
    pose proof (rounded_sum_step rnd k s tot d Hr HS Hd Hs) as Hstep.
    destruct (IH (S i) (k + 2)%nat (rnd (s + rnd d)) (tot + d))
      as (s' & Hloop & Hb).
    + destruct Hparsed as [Hp|Hp]; [left; exact Hp|right].
      intros j Hj. apply Hp. lia.
    + intros j Hj. apply Htime. lia.
    + lra.
    + exact Hstep.
    + exists s'. split; [exact Hloop|].
      replace (k + 2 * S remaining)%nat with (k + 2 + 2 * remaining)%nat
        by lia.
      rewrite <- Rplus_assoc. exact Hb.
Qed.

(** The loop when [robot_die] exits: a round whose answer does not parse
    ends it. *)
Lemma test_delay_loop_died (rnd : R -> R) (probe : nat -> Probe) :
  forall (remaining i : nat) (s : R),
    (exists j, (i <= j < i + remaining)%nat /\ parsed (probe j) = false) ->
    Rounded.test_delay_loop rnd Exits probe remaining i s = None.
Proof.
  induction remaining as [|remaining IH]; intros i s (j & Hj & Hp).
  - lia.
  - cbn [Rounded.test_delay_loop].
    destruct (parsed (probe i)) eqn:Hi; [|reflexivity].
    apply IH. exists j. split; [|exact Hp].
    assert (j <> i) by (intros ->; congruence). lia.
Qed.

(** X9.  [test_delay] with [num_iters = 0] divides by zero, and with a
    negative [num_iters] returns [0].  When [robot_die] exits, as the
    function of [Main.py] does, a round whose request returns [-1] ends
    the program there.  Otherwise (every request parses, or [robot_die]
    returns) it returns the mean of the measured delays up to rounding:
    with [n] rounds of non-negative delays the result lies between the
    exact mean times [(1 - u) ^ (2 n + 1)] and times
    [(1 + u) ^ (2 n + 1)], [u] the unit roundoff.  In floats it is not
    the exact mean. *)
Theorem test_delay_mean (rnd : R -> R) (robot_die : die_outcome)
    (probe : nat -> Probe) (num_iters : Z) :
  rounds rnd ->
  let n := Z.to_nat num_iters in
  (num_iters = 0%Z ->
   Rounded.test_delay rnd robot_die probe num_iters = DivisionByZero) /\
  ((num_iters < 0)%Z ->
   Rounded.test_delay rnd robot_die probe num_iters = Delay 0) /\
  (robot_die = Exits ->
   (exists i, (i < n)%nat /\ parsed (probe i) = false) ->
   Rounded.test_delay rnd robot_die probe num_iters = Died) /\
  ((0 < num_iters)%Z ->
   (robot_die = Returns \/
    forall i, (i < n)%nat -> parsed (probe i) = true) ->
   (forall i, (i < n)%nat -> start_time (probe i) <= end_time (probe i)) ->
   exists mean,
     Rounded.test_delay rnd robot_die probe num_iters = Delay mean /\
     (1 - unit_roundoff) ^ (2 * n + 1) * delay_mean probe n
     <= mean
     <= (1 + unit_roundoff) ^ (2 * n + 1) * delay_mean probe n).
Proof.
  intros Hr n. pose proof unit_roundoff_small as Hu.
  assert (Hzero : rnd 0 = 0).
  { pose proof (rounds_nonneg rnd 0 Hr ltac:(lra)). lra. }
  split; [|split; [|split]].
  - intros ->. reflexivity.
  - intros Hneg. unfold Rounded.test_delay.
    replace (Z.to_nat num_iters) with 0%nat by lia.
    cbn [Rounded.test_delay_loop].
    rewrite (proj2 (Z.eqb_neq _ _)) by lia.
    unfold Rdiv. rewrite Rmult_0_l, Hzero. reflexivity.
  - intros -> (i & Hi & Hp). unfold Rounded.test_delay. fold n.
    rewrite test_delay_loop_died; [reflexivity|].
    exists i. split; [lia|exact Hp].
  - intros Hpos Hparsed Htime. unfold Rounded.test_delay. fold n.
    destruct (test_delay_loop_sum rnd robot_die probe Hr n 0%nat 0%nat 0 0)
      as (s & Hloop & Hs).
    + destruct Hparsed as [Hp|Hp]; [left; exact Hp|right].
      intros j Hj. apply Hp. lia.
    + intros j Hj. apply Htime. lia.
    + lra.
    + simpl. lra.
    + rewrite Hloop. rewrite (proj2 (Z.eqb_neq _ _)) by lia.
      eexists. split; [reflexivity|].
      rewrite Rplus_0_l in Hs. cbn [Nat.add] in Hs.
      assert (Hn : IZR num_iters = INR n).
      { unfold n. rewrite INR_IZR_INZ, Z2Nat.id by lia. reflexivity. }
      rewrite Hn. unfold delay_mean.
      assert (Hn0 : 0 < INR n) by (rewrite <- Hn; apply IZR_lt; lia).
      set (total := delay_sum probe n 0) in *.
      assert (Htotal : 0 <= total).
      { unfold total. clear - Htime.
        assert (H : forall m i, (i + m <= n)%nat ->
                      0 <= delay_sum probe m i).
        { induction m as [|m IH]; intros i Hi; cbn [delay_sum]; [lra|].
          specialize (Htime i ltac:(lia)). specialize (IH (S i) ltac:(lia)).
          lra. }
        apply H. lia. }
      assert (Ha : 0 <= (1 - unit_roundoff) ^ (2 * n))
        by (apply pow_le; lra).
      assert (Hs0 : 0 <= s).
      { assert (0 <= (1 - unit_roundoff) ^ (2 * n) * total)
          by (apply Rmult_le_pos; lra).
        lra. }
      assert (Hq : 0 <= s / INR n).
      { apply Rmult_le_pos; [lra|]. apply Rlt_le, Rinv_0_lt_compat, Hn0. }
      pose proof (rounds_nonneg rnd (s / INR n) Hr Hq) as Hm.
      replace (2 * n + 1)%nat with (S (2 * n)) by lia. cbn [pow].
      assert (Hinv : 0 <= / INR n) by (apply Rlt_le, Rinv_0_lt_compat, Hn0).
      unfold Rdiv in *.
      set (q := / INR n) in *. clearbody q total.
      set (a := (1 - unit_roundoff) ^ (2 * n)) in *.
      set (A := (1 + unit_roundoff) ^ (2 * n)) in *. clearbody a A.
      assert (H1 : a * total * q <= s * q)
        by (apply Rmult_le_compat_r; lra).
      assert (H2 : s * q <= A * total * q)
        by (apply Rmult_le_compat_r; lra).
      assert (H3 : (1 - unit_roundoff) * (a * total * q)
                   <= (1 - unit_roundoff) * (s * q))
        by (apply Rmult_le_compat_l; lra).
      assert (H4 : (1 + unit_roundoff) * (s * q)
                   <= (1 + unit_roundoff) * (A * total * q))
        by (apply Rmult_le_compat_l; lra).
      lra.
Qed.

(** Two rounds of 2 and 4 seconds, exact arithmetic. *)
Lemma test_delay_mean_witness :
  exists mean,
    Rounded.test_delay (fun v => v) Exits two_probes 2 = Delay mean /\
    (1 - unit_roundoff) ^ 5 * delay_mean two_probes 2
    <= mean
    <= (1 + unit_roundoff) ^ 5 * delay_mean two_probes 2.
Proof.
  apply (test_delay_mean (fun v => v) Exits two_probes 2 rounds_exact).
  - lia.
  - right. intros [|[|i]] Hi; reflexivity.
  - intros [|[|i]] Hi; cbn; lra.
Defined.

(** ** The robot on the camera *)

(** X10.  The main loop takes position and heading from the last entry of
    the snapshot that carries [ROBOT_ID]; it finds neither exactly when no
    entry carries it. *)
Theorem find_robot_last (rs : list Robot) :
  (find_robot rs = (None, None) <->
   forall r, In r rs -> robot_id r <> ROBOT_ID) /\
  (forall before r after,
      rs = before ++ r :: after ->
      robot_id r = ROBOT_ID ->
      (forall r', In r' after -> robot_id r' <> ROBOT_ID) ->
      find_robot rs = (Some (robot_position r), robot_direction r)).
Proof.
  unfold find_robot.
  set (f := fun (acc : option Point * option R) (robot_data : Robot) =>
              if (robot_id robot_data =? ROBOT_ID)%Z
              then (Some (robot_position robot_data),
                    robot_direction robot_data)
              else acc).
  assert (Hskip : forall l acc,
             (forall r', In r' l -> robot_id r' <> ROBOT_ID) ->
             fold_left f l acc = acc).
  { induction l as [|r0 l IH]; intros acc Hl; [reflexivity|].
    cbn [fold_left]. unfold f at 2.
    rewrite (proj2 (Z.eqb_neq _ _) (Hl r0 (or_introl eq_refl))).
    apply IH. intros r' Hr'. apply Hl. right. exact Hr'. }
  assert (Hlast : forall before r after acc,
             robot_id r = ROBOT_ID ->
             (forall r', In r' after -> robot_id r' <> ROBOT_ID) ->
             fold_left f (before ++ r :: after) acc
             = (Some (robot_position r), robot_direction r)).
  { intros before r after acc Hr Hafter.
    rewrite fold_left_app. cbn [fold_left]. unfold f at 2.
    rewrite (proj2 (Z.eqb_eq _ _) Hr). apply Hskip. exact Hafter. }
  split.
  - split.
    + induction rs as [|r0 rs IH] using rev_ind; intros H r Hr.
      * destruct Hr.
      * rewrite fold_left_app in H. cbn [fold_left] in H.
        unfold f at 1 in H.
        destruct (robot_id r0 =? ROBOT_ID)%Z eqn:E; [discriminate|].
        apply in_app_or in Hr. destruct Hr as [Hr|[<-|[]]].
        -- apply IH; assumption.
        -- apply Z.eqb_neq. exact E.
    + intros H. apply Hskip. exact H.
  - intros before r after -> Hr Hafter. apply Hlast; assumption.
Qed.

Lemma find_robot_last_witness :
  find_robot [robot_a; robot_b] = (Some (mkPoint 100 200), Some 0).
Proof.
  apply (proj2 (find_robot_last [robot_a; robot_b]) [] robot_a [robot_b]);
    try reflexivity.
  intros r' [<-|[]]. discriminate.
Defined.

(** ** What an evaluated iteration is made of *)

Lemma Ok_pair_inv {A B : Type} (a a' : A) (b b' : B) :
  Ok (a, b) = Ok (a', b') -> a' = a /\ b' = b.
Proof. intros [= -> ->]. split; reflexivity. Qed.

Lemma tick_evaluated_inv cfg c inp game_state robot_pos robot_dir c' acts :
  evaluated inp = Some (game_state, robot_pos, robot_dir) ->
  tick cfg c inp = Ok (c', acts) ->
  exists dh xh c1 a1,
    push (robot_dir_hist c) (target_angle c) = Ok dh /\
    push (robot_dist_hist c) (Fin (target_dist c)) = Ok xh /\
    eval_state cfg game_state robot_pos robot_dir (time_now inp)
      (time_now inp - t_old c) (state_differs (state c) (state_old c))
      (time_update1 inp) (time_update2 inp)
      (with_robot_dist_hist xh (with_robot_dir_hist dh (start_tick inp c)))
    = Ok (c1, a1) /\
    c' = with_speed_left (IZR (limit_speed (speed_left c1)))
           (with_speed_right (IZR (limit_speed (speed_right c1))) c1) /\
    acts = a1 ++ [run_forever motor_right (- limit_speed (speed_right c1));
                  run_forever motor_left (- limit_speed (speed_left c1))].
Proof.
  intros Hev. rewrite (tick_evaluated _ _ _ _ _ _ Hev). unfold tick_alive.
  destruct c as [p_turn p_base p_fturn p_turn_a p_base_a p_fturn_a mult
      s_right s_left dir_hist dist_hist data_id t_prev st st_old
      apple_old id_old tgt t_dist t_angle near_old timer st_old_tgt].
  cbn [robot_dir_hist robot_dist_hist target_angle target_dist start_tick
       with_state_old with_t_old with_robot_dir_hist with_robot_dist_hist
       state state_old t_old].
  destruct (push dir_hist t_angle) as [dh|]; cbn [bind]; [|discriminate].
  destruct (push dist_hist (Fin t_dist)) as [xh|]; cbn [bind];
    [|discriminate].
  match goal with
  | |- context [eval_state ?a ?b ?c ?d ?e ?f ?g ?h ?i ?j] =>
      destruct (eval_state a b c d e f g h i j) as [[c1 a1]|] eqn:Hes
  end; cbn [bind]; [|discriminate].
  intros H. apply Ok_pair_inv in H. destruct H as [-> ->].
  exists dh, xh, c1, a1.
  split; [reflexivity|]. split; [reflexivity|]. split; [exact Hes|].
  split; destruct c1; reflexivity.
Qed.

(** ** What the states leave alone *)

Lemma get_distance_nonneg (p1 p2 : Point) : 0 <= get_distance p1 p2.
Proof. apply sqrt_pos. Qed.

(** The branch of a state, whichever it is: the windows and the loop
    bookkeeping are not touched, the next state is along an arrow of the
    machine, a change of state (out of any state but [BACK_OFF]) comes
    with zero speeds, only [GET_APPLE] and [HOME] set the target, and the
    turn states ask for opposite wheel speeds. *)
Lemma eval_state_frame cfg game_state robot_pos robot_dir now lt changed
    now1 now2 c c' acts :
  eval_state cfg game_state robot_pos robot_dir now lt changed now1 now2 c
  = Ok (c', acts) ->
  (robot_dir_hist c' = robot_dir_hist c /\
   robot_dist_hist c' = robot_dist_hist c /\
   t_old c' = t_old c /\ state_old c' = state_old c) /\
  successor (state c) (state c') = true /\
  (state c <> BACK_OFF -> state c' <> state c ->
   speed_right c' = 0 /\ speed_left c' = 0) /\
  (targeting (state c) = false -> target c' = target c) /\
  (state c = HOME -> target c' = Some (home cfg)) /\
  (pid_frwd_base_apple_multiplier c' = pid_frwd_base_apple_multiplier c \/
   pid_frwd_base_apple_multiplier c' = 1 \/
   pid_frwd_base_apple_multiplier c' = 1 / 10) /\
  (0 <= target_dist c -> 0 <= target_dist c') /\
  (turn_state (state c) = true -> speed_left c' = - speed_right c').
Proof.
  open_ctx c. destruct st; crunch;
    repeat split; intros; cbn in *;
    try reflexivity; try congruence; try discriminate;
    try apply get_distance_nonneg; try assumption; try lra; auto.
Qed.

(** As [crunch], remembering what each [update] returned. *)
Ltac crunch_eq :=
  repeat first
    [ progress unfold_code
    | match goal with
      | |- Raise _ = Ok _ -> _ => discriminate
      | |- Ok _ = Ok _ -> _ => intros [= <- <-]
      | |- context [PID.update ?p ?t ?m] =>
          destruct (PID.update p t m) as [[? ?]|] eqn:?
      | |- context [match ?v with _ => _ end] =>
          lazymatch v with
          | context [match _ with _ => _ end] => fail
          | _ => destruct v eqn:?
          end
      end ].

Ltac gains :=
  repeat match goal with
    | H : PID.update _ _ _ = Ok _ |- _ =>
        apply update_same_gains in H
    end;
  repeat split;
  first [ apply same_gains_refl
        | assumption
        | apply reset0_same_gains
        | eapply same_gains_trans; [apply reset0_same_gains|eassumption] ].

(** No state changes the setpoint, a gain or the integral limit of a
    regulator. *)
Lemma eval_state_gains cfg game_state robot_pos robot_dir now lt changed
    now1 now2 c c' acts :
  eval_state cfg game_state robot_pos robot_dir now lt changed now1 now2 c
  = Ok (c', acts) ->
  same_regulators c c'.
Proof.
  open_ctx c. unfold same_regulators.
  destruct st; crunch_eq; cbn; gains.
Qed.

(** The claws move only on arrival: closing on the way out of
    [GET_STRAIGHT] to [HOME], opening on the way out of [HOME_STRAIGHT] to
    [BACK_OFF]. *)
Lemma eval_state_claws cfg game_state robot_pos robot_dir now lt changed
    now1 now2 c c' acts v :
  eval_state cfg game_state robot_pos robot_dir now lt changed now1 now2 c
  = Ok (c', acts) ->
  In (run_forever motor_grab v) acts ->
  (state c = GET_STRAIGHT /\ state c' = HOME /\ v = (-500)%Z) \/
  (state c = HOME_STRAIGHT /\ state c' = BACK_OFF /\ v = 500%Z).
Proof.
  open_ctx c. destruct st; crunch; cbn;
    intros Hin;
    repeat match goal with
      | H : _ \/ _ |- _ => destruct H
      | H : False |- _ => destruct H
      | H : run_forever _ _ = run_forever _ _ |- _ =>
          first [discriminate H | injection H as <-]
      | H : _ = run_forever _ _ |- _ => discriminate H
      end;
    auto.
Qed.

(** On arrival the branch stops the wheels and moves the claws: it asks
    for speed [0] on both wheels, runs [claws_close] or [claws_open], and
    leaves both stored speeds at [0]. *)
Lemma eval_state_arrival cfg game_state robot_pos robot_dir now lt changed
    now1 now2 c c' acts :
  eval_state cfg game_state robot_pos robot_dir now lt changed now1 now2 c
  = Ok (c', acts) ->
  (state c = GET_STRAIGHT -> state c' = HOME ->
   acts = [run_forever motor_right 0; run_forever motor_left 0]
          ++ claws_close /\
   speed_right c' = 0 /\ speed_left c' = 0) /\
  (state c = HOME_STRAIGHT -> state c' = BACK_OFF ->
   acts = [run_forever motor_right 0; run_forever motor_left 0]
          ++ claws_open /\
   speed_right c' = 0 /\ speed_left c' = 0).
Proof.
  open_ctx c. destruct st; crunch; cbn;
    split; intros; try discriminate; repeat split.
Qed.

(** In a drive state that keeps driving, the two wheel speeds asked for
    have a mean within [SPEED_BASE_MAX]. *)
Lemma eval_state_base_cap cfg game_state robot_pos robot_dir now lt changed
    now1 now2 c c' acts :
  eval_state cfg game_state robot_pos robot_dir now lt changed now1 now2 c
  = Ok (c', acts) ->
  drive_state (state c) = true -> state c' = state c ->
  Rabs ((speed_right c' + speed_left c') / 2) <= SPEED_BASE_MAX.
Proof.
  open_ctx c. destruct st; try discriminate; crunch; cbn;
    intros _ Hsame; try discriminate Hsame;
    match goal with
    | |- context [Rmin (Rmax ?u ?lo) ?hi] =>
        pose proof (Rmax_r u lo); pose proof (Rmin_r (Rmax u lo) hi);
        pose proof (Rmin_glb (Rmax u lo) hi lo);
        let base := fresh "base" in
        set (base := Rmin (Rmax u lo) hi) in *
    end;
    unfold SPEED_BASE_MAX in *; apply Rabs_le; lra.
Qed.

(** ** Properties of every iteration *)

Lemma tick_skipped cfg c inp :
  evaluated inp = None ->
  exists acts,
    tick cfg c inp = Ok (start_tick inp c, acts) /\
    (acts = [] \/ acts = [stop_brake motor_left; stop_brake motor_right]).
Proof.
  intros Hev. destruct (request inp) as [gs|] eqn:Hreq.
  - rewrite (tick_not_evaluated _ _ _ _ Hreq Hev). eauto.
  - exists []. split; [|left; reflexivity].
    unfold tick. rewrite Hreq. destruct c; reflexivity.
Qed.

Lemma tick_skipped_ctx cfg c c' inp acts :
  evaluated inp = None -> tick cfg c inp = Ok (c', acts) ->
  c' = start_tick inp c.
Proof.
  intros Hev Htick. destruct (tick_skipped cfg c inp Hev) as (a & Ht & _).
  rewrite Ht in Htick. injection Htick as <- _. reflexivity.
Qed.

Lemma push_spec {A : Type} (q q' : list A) (v : A) :
  push q v = Ok q' -> q' = tl q ++ [v] /\ List.length q' = List.length q.
Proof.
  destruct q as [|a q]; [discriminate|]. intros [= <-].
  split; [reflexivity|]. rewrite length_app. cbn. lia.
Qed.

(** X11.  The state changes only along the arrows of the machine:
    [GET_APPLE] to [GET_TURN] or [HOME]; [HOME] to [HOME_TURN] or
    [GET_APPLE]; a turn state to itself or its drive state;
    [GET_STRAIGHT] to itself, [HOME] or [GET_TURN]; [HOME_STRAIGHT] to
    itself, [BACK_OFF] or [HOME_TURN]; [BACK_OFF] to [GET_APPLE].  An
    iteration that does not evaluate the state machine keeps the
    state. *)
Theorem tick_follows_arrows (cfg : Config) (c c' : Ctx) (inp : TickInput)
    (acts : list action) :
  tick cfg c inp = Ok (c', acts) ->
  (evaluated inp = None -> state c' = state c) /\
  (evaluated inp <> None -> successor (state c) (state c') = true).
Proof.
  intros Htick. split.
  - intros Hev. rewrite (tick_skipped_ctx _ _ _ _ _ Hev Htick).
    destruct c; reflexivity.
  - intros Hev.
    destruct (evaluated inp) as [[[gs pos] dir]|] eqn:E; [|congruence].
    destruct (tick_evaluated_inv _ _ _ _ _ _ _ _ E Htick)
      as (dh & xh & c1 & a1 & _ & _ & Hes & -> & _).
    apply eval_state_frame in Hes. destruct Hes as (_ & Hsucc & _).
    destruct c, c1; exact Hsucc.
Qed.

Lemma tick_follows_arrows_witness :
  exists c1 c2,
    successor (state (init_ctx 0)) (state c1) = true /\
    successor (state c1) (state c2) = true.
Proof.
  destruct seek_home_seek
    as (c1 & acts1 & c2 & acts2 & H1 & H2 & _).
  exists c1, c2. split.
  - apply (tick_follows_arrows cfg0 (init_ctx 0) c1 (input_home 1) acts1 H1).
    discriminate.
  - apply (tick_follows_arrows cfg0 c1 c2 (input_home 2) acts2 H2).
    discriminate.
Defined.

(** X12.  Whenever an iteration leaves a state other than [BACK_OFF] for
    another state, it ends by commanding speed [0] to both wheels and
    stores [0] as both speeds. *)
Theorem state_change_stops (cfg : Config) (c c' : Ctx) (inp : TickInput)
    (acts : list action) :
  tick cfg c inp = Ok (c', acts) ->
  state c <> BACK_OFF -> state c' <> state c ->
  speed_right c' = 0 /\ speed_left c' = 0 /\
  exists pre,
    acts = pre ++ [run_forever motor_right 0; run_forever motor_left 0].
Proof.
  intros Htick Hback Hchange.
  destruct (evaluated inp) as [[[gs pos] dir]|] eqn:E.
  - destruct (tick_evaluated_inv _ _ _ _ _ _ _ _ E Htick)
      as (dh & xh & c1 & a1 & _ & _ & Hes & -> & ->).
    apply eval_state_frame in Hes. destruct Hes as (_ & _ & Hstop & _).
    destruct Hstop as [Hr Hl].
    + destruct c; exact Hback.
    + destruct c, c1; exact Hchange.
    + rewrite Hr, Hl, limit_speed_0. destruct c1; cbn.
      split; [reflexivity|]. split; [reflexivity|]. exists a1. reflexivity.
  - rewrite (tick_skipped_ctx _ _ _ _ _ E Htick) in Hchange.
    destruct c; destruct (Hchange eq_refl).
Qed.

Lemma state_change_stops_witness :
  exists c' acts,
    tick cfg0 (init_ctx 0) (input_home 1) = Ok (c', acts) /\
    speed_right c' = 0 /\ speed_left c' = 0 /\
    exists pre,
      acts = pre ++ [run_forever motor_right 0; run_forever motor_left 0].
Proof.
  destruct seek_home_seek
    as (c1 & acts1 & c2 & acts2 & H1 & H2 & Hst1 & _).
  exists c1, acts1. split; [exact H1|].
  apply (state_change_stops cfg0 (init_ctx 0) c1 (input_home 1) acts1 H1).
  - discriminate.
  - rewrite Hst1. discriminate.
Defined.

(** X13.  Only [GET_APPLE] and [HOME] set the target: every other
    iteration, evaluated or not, keeps the stored target, whatever apples
    the snapshot shows; [HOME], when evaluated, sets it to the configured
    home point. *)
Theorem target_kept (cfg : Config) (c c' : Ctx) (inp : TickInput)
    (acts : list action) :
  tick cfg c inp = Ok (c', acts) ->
  (targeting (state c) = false -> target c' = target c) /\
  (state c = HOME -> evaluated inp <> None -> target c' = Some (home cfg)).
Proof.
  intros Htick.
  destruct (evaluated inp) as [[[gs pos] dir]|] eqn:E.
  - destruct (tick_evaluated_inv _ _ _ _ _ _ _ _ E Htick)
      as (dh & xh & c1 & a1 & _ & _ & Hes & -> & _).
    apply eval_state_frame in Hes.
    destruct Hes as (_ & _ & _ & Hkeep & Hhome & _).
    split.
    + intros Hs. destruct c, c1; cbn in *. apply Hkeep. exact Hs.
    + intros Hs _. destruct c, c1; cbn in *. apply Hhome. exact Hs.
  - rewrite (tick_skipped_ctx _ _ _ _ _ E Htick).
    split; [intros _; destruct c; reflexivity|congruence].
Qed.

Lemma target_kept_witness :
  exists c',
    tick cfg0 ctx_turning input_north =
      Ok (c', [file_write (0 - 90) 1;
               run_forever motor_right 800; run_forever motor_left (-800)])
    /\ target c' = Some (mkPoint 1500 1000).
Proof.
  destruct turning_tick as (c' & Htick & _).
  exists c'. split; [exact Htick|].
  apply (target_kept cfg0 ctx_turning c' input_north _ Htick). reflexivity.
Defined.

(** ** Turning on the spot *)

Lemma Zfloor_opp_frac (v : R) :
  IZR (Zfloor v) < v -> Zfloor (- v) = (- Zfloor v - 1)%Z.
Proof.
  intros Hlt. pose proof (Zfloor_bound v) as [H1 H2].
  apply Zfloor_eq. rewrite minus_IZR, opp_IZR. lra.
Qed.

(** [round] is odd: ties go to the even neighbour on both sides of
    zero. *)
Lemma py_round_opp (v : R) : py_round (- v) = (- py_round v)%Z.
Proof.
  pose proof (Zfloor_bound v) as [H1 H2].
  destruct (Req_dec_T (IZR (Zfloor v)) v) as [Heq|Hne].
  - rewrite <- Heq, <- opp_IZR, !py_round_IZR. reflexivity.
  - assert (Hlt : IZR (Zfloor v) < v) by lra.
    unfold py_round. cbv zeta. rewrite (Zfloor_opp_frac v Hlt).
    rewrite minus_IZR, opp_IZR.
    set (f := Zfloor v) in *.
    replace (- v - (- IZR f - 1)) with (1 - (v - IZR f)) by ring.
    set (d := v - IZR f) in *.
    destruct (Rltb d (1 / 2)) eqn:Ed.
    + apply Rltb_true in Ed. decide_R. lia.
    + apply Rltb_false in Ed.
      destruct (Rltb (1 / 2) d) eqn:Ed'.
      * apply Rltb_true in Ed'. decide_R. lia.
      * apply Rltb_false in Ed'. decide_R.
        replace (- f - 1)%Z with (- (f + 1))%Z by lia.
        rewrite Z.even_opp, Z.even_add. cbn.
        destruct (Z.even f); cbn; lia.
Qed.

Lemma limit_speed_opp (speed : R) :
  limit_speed (- speed) = (- limit_speed speed)%Z.
Proof.
  destruct (Rle_dec speed (- 800)) as [Hlow|Hlow].
  - rewrite (limit_speed_low speed) by exact Hlow.
    rewrite limit_speed_high by lra. reflexivity.
  - destruct (Rle_dec 800 speed) as [Hhigh|Hhigh].
    + rewrite (limit_speed_high speed) by exact Hhigh.
      rewrite limit_speed_low by lra. reflexivity.
    + unfold limit_speed, SPEED_MAX.
      rewrite !Rmax_left by lra. rewrite !Rmin_left by lra.
      apply py_round_opp.
Qed.

(** X14.  In the turn states the wheels are commanded to exactly opposite
    speeds, also after clamping and rounding: the robot turns on the
    spot. *)
Theorem turn_commands_opposite (cfg : Config) (c c' : Ctx)
    (inp : TickInput) (acts : list action) :
  tick cfg c inp = Ok (c', acts) ->
  evaluated inp <> None ->
  turn_state (state c) = true ->
  speed_left c' = - speed_right c' /\
  exists pre speed_sp,
    acts = pre ++ [run_forever motor_right speed_sp;
                   run_forever motor_left (- speed_sp)].
Proof.
  intros Htick Hev Hturn.
  destruct (evaluated inp) as [[[gs pos] dir]|] eqn:E; [|congruence].
  destruct (tick_evaluated_inv _ _ _ _ _ _ _ _ E Htick)
    as (dh & xh & c1 & a1 & _ & _ & Hes & -> & ->).
  apply eval_state_frame in Hes.
  destruct Hes as (_ & _ & _ & _ & _ & _ & _ & Hopp).
  assert (Hl : speed_left c1 = - speed_right c1).
  { apply Hopp. destruct c; exact Hturn. }
  rewrite Hl, limit_speed_opp. split.
  - destruct c1; cbn. rewrite opp_IZR. reflexivity.
  - exists a1, (- limit_speed (speed_right c1))%Z. reflexivity.
Qed.

Lemma turn_commands_opposite_witness :
  exists c' pre speed_sp,
    speed_left c' = - speed_right c' /\
    [file_write (0 - 90) 1;
     run_forever motor_right 800; run_forever motor_left (-800)] =
    pre ++ [run_forever motor_right speed_sp;
            run_forever motor_left (- speed_sp)].
Proof.
  destruct turning_tick as (c' & Htick & _).
  destruct (turn_commands_opposite cfg0 ctx_turning c' input_north _ Htick)
    as (Hopp & pre & v & Hacts); [discriminate|reflexivity|].
  exists c', pre, v. split; [exact Hopp|exact Hacts].
Defined.

(** ** Driving *)

(** X15.  While a drive state keeps driving, the two wheel speeds it
    asks for average to a base speed within [SPEED_BASE_MAX] = 700, which
    leaves the turn correction at least 100 of the 800 the final clamp
    allows. *)
Theorem drive_base_speed_capped (cfg : Config) (c c' : Ctx)
    (inp : TickInput) (acts : list action) :
  tick cfg c inp = Ok (c', acts) ->
  evaluated inp <> None ->
  drive_state (state c) = true -> state c' = state c ->
  exists wanted_right wanted_left,
    speed_right c' = IZR (limit_speed wanted_right) /\
    speed_left c' = IZR (limit_speed wanted_left) /\
    Rabs ((wanted_right + wanted_left) / 2) <= SPEED_BASE_MAX.
Proof.
  intros Htick Hev Hdrive Hsame.
  destruct (evaluated inp) as [[[gs pos] dir]|] eqn:E; [|congruence].
  destruct (tick_evaluated_inv _ _ _ _ _ _ _ _ E Htick)
    as (dh & xh & c1 & a1 & _ & _ & Hes & -> & ->).
  exists (speed_right c1), (speed_left c1).
  split; [destruct c1; reflexivity|]. split; [destruct c1; reflexivity|].
  apply (eval_state_base_cap _ _ _ _ _ _ _ _ _ _ _ _ Hes).
  - destruct c; exact Hdrive.
  - destruct c, c1; exact Hsame.
Qed.

(** X16.  The grabber motor runs exactly on arrival.  The iteration that
    takes [GET_STRAIGHT] to [HOME] commands speed 0 to both wheels, closes
    the claws (grabber at speed -500 for half a second, then braked) and
    commands speed 0 again; the one that takes [HOME_STRAIGHT] to
    [BACK_OFF] does the same with the claws opening (speed 500).  No
    other iteration commands the grabber. *)
Theorem claws_exactly_on_arrival (cfg : Config) (c c' : Ctx)
    (inp : TickInput) (acts : list action) :
  tick cfg c inp = Ok (c', acts) ->
  (forall speed_sp : Z,
      In (run_forever motor_grab speed_sp) acts ->
      (state c = GET_STRAIGHT /\ state c' = HOME /\ speed_sp = (-500)%Z) \/
      (state c = HOME_STRAIGHT /\ state c' = BACK_OFF /\ speed_sp = 500%Z)) /\
  (state c = GET_STRAIGHT -> state c' = HOME ->
   acts = [run_forever motor_right 0; run_forever motor_left 0;
           run_forever motor_grab (-500); sleep (5 / 10);
           stop_brake motor_grab;
           run_forever motor_right 0; run_forever motor_left 0]) /\
  (state c = HOME_STRAIGHT -> state c' = BACK_OFF ->
   acts = [run_forever motor_right 0; run_forever motor_left 0;
           run_forever motor_grab 500; sleep (5 / 10);
           stop_brake motor_grab;
           run_forever motor_right 0; run_forever motor_left 0]).
Proof.
  intros Htick.
  destruct (evaluated inp) as [[[gs pos] dir]|] eqn:E.
  - destruct (tick_evaluated_inv _ _ _ _ _ _ _ _ E Htick)
      as (dh & xh & c1 & a1 & _ & _ & Hes & -> & ->).
    split; [|split].
    + intros speed_sp Hin.
      apply in_app_or in Hin. destruct Hin as [Hin|[H|[H|[]]]];
        try discriminate H.
      destruct (eval_state_claws _ _ _ _ _ _ _ _ _ _ _ _ _ Hes Hin)
        as [(H1 & H2 & H3)|(H1 & H2 & H3)]; [left|right];
        destruct c, c1; cbn in *; auto.
    + intros Hc Hc'.
      destruct (proj1 (eval_state_arrival _ _ _ _ _ _ _ _ _ _ _ _ Hes))
        as (-> & -> & ->).
      * destruct c; exact Hc.
      * destruct c1; exact Hc'.
      * rewrite limit_speed_0. reflexivity.
    + intros Hc Hc'.
      destruct (proj2 (eval_state_arrival _ _ _ _ _ _ _ _ _ _ _ _ Hes))
        as (-> & -> & ->).
      * destruct c; exact Hc.
      * destruct c1; exact Hc'.
      * rewrite limit_speed_0. reflexivity.
  - pose proof (tick_skipped_ctx cfg c c' inp acts E Htick) as Hc'.
    assert (Hst : state c' = state c) by (subst c'; destruct c; reflexivity).
    destruct (tick_skipped cfg c inp E) as (a & Ht & Ha).
    rewrite Ht in Htick. injection Htick as _ <-.
    split; [|split].
    + intros speed_sp Hin.
      destruct Ha as [->| ->]; [destruct Hin|].
      destruct Hin as [H|[H|[]]]; discriminate H.
    + intros Hc Hh. rewrite Hst, Hc in Hh. discriminate Hh.
    + intros Hc Hh. rewrite Hst, Hc in Hh. discriminate Hh.
Qed.

Lemma driving_keeps_driving :
  exists c1 acts,
    tick cfg0 ctx_driving (input_near 12) = Ok (c1, acts) /\
    state c1 = GET_STRAIGHT.
Proof.
  do 2 eexists. split; [run_east; reflexivity|reflexivity].
Qed.

Lemma drive_base_speed_capped_witness :
  exists c1 wanted_right wanted_left,
    speed_right c1 = IZR (limit_speed wanted_right) /\
    speed_left c1 = IZR (limit_speed wanted_left) /\
    Rabs ((wanted_right + wanted_left) / 2) <= SPEED_BASE_MAX.
Proof.
  destruct driving_keeps_driving as (c1 & acts & Htick & Hst).
  exists c1.
  apply (drive_base_speed_capped cfg0 ctx_driving c1 (input_near 12) acts
           Htick).
  - discriminate.
  - reflexivity.
  - exact Hst.
Defined.

Lemma arriving_state :
  exists c' acts,
    tick cfg0 ctx_arriving (input_near 12) = Ok (c', acts) /\
    state c' = HOME.
Proof.
  do 2 eexists. split; [run_east; reflexivity|reflexivity].
Qed.

Lemma claws_exactly_on_arrival_witness :
  exists c' acts,
    tick cfg0 ctx_arriving (input_near 12) = Ok (c', acts) /\
    acts = [run_forever motor_right 0; run_forever motor_left 0;
            run_forever motor_grab (-500); sleep (5 / 10);
            stop_brake motor_grab;
            run_forever motor_right 0; run_forever motor_left 0].
Proof.
  destruct arriving_state as (c' & acts & Htick & Hst).
  exists c', acts. split; [exact Htick|].
  apply (claws_exactly_on_arrival cfg0 ctx_arriving c' (input_near 12) acts
           Htick).
  - reflexivity.
  - exact Hst.
Defined.

(** ** The history windows *)

(** X17.  An evaluated iteration drops the oldest sample of each window
    and appends the bearing and the distance measured by the previous
    iteration (the values stored before this one measures), so both
    windows keep their length; an iteration that is not evaluated leaves
    the windows as they are. *)
Theorem history_windows_shift (cfg : Config) (c c' : Ctx) (inp : TickInput)
    (acts : list action) :
  tick cfg c inp = Ok (c', acts) ->
  (evaluated inp = None ->
   robot_dir_hist c' = robot_dir_hist c /\
   robot_dist_hist c' = robot_dist_hist c) /\
  (evaluated inp <> None ->
   robot_dir_hist c' = tl (robot_dir_hist c) ++ [target_angle c] /\
   robot_dist_hist c' = tl (robot_dist_hist c) ++ [Fin (target_dist c)] /\
   List.length (robot_dir_hist c') = List.length (robot_dir_hist c) /\
   List.length (robot_dist_hist c') = List.length (robot_dist_hist c)).
Proof.
  intros Htick. split; intros Hev.
  - rewrite (tick_skipped_ctx _ _ _ _ _ Hev Htick).
    destruct c; split; reflexivity.
  - destruct (evaluated inp) as [[[gs pos] dir]|] eqn:E; [|congruence].
    destruct (tick_evaluated_inv _ _ _ _ _ _ _ _ E Htick)
      as (dh & xh & c1 & a1 & Hdh & Hxh & Hes & -> & _).
    apply eval_state_frame in Hes.
    destruct Hes as ((Hd & Hx & _) & _).
    apply push_spec in Hdh, Hxh.
    destruct Hdh as [Hdh Hdl], Hxh as [Hxh Hxl].
    assert (Hd' : robot_dir_hist c1 = dh) by (destruct c; exact Hd).
    assert (Hx' : robot_dist_hist c1 = xh) by (destruct c; exact Hx).
    destruct c1; cbn in *. subst.
    destruct c; cbn in *. repeat split; assumption.
Qed.

Lemma history_windows_shift_witness :
  exists c',
    robot_dir_hist c' = [180; 180; 0] /\
    robot_dist_hist c' = [Fin 500; Fin 500; Fin 500] /\
    List.length (robot_dir_hist c') = 3%nat /\
    List.length (robot_dist_hist c') = 3%nat.
Proof.
  destruct driving_keeps_driving as (c1 & acts & Htick & _).
  exists c1.
  apply (history_windows_shift cfg0 ctx_driving c1 (input_near 12) acts
           Htick).
  discriminate.
Defined.

(** ** What the loop keeps true *)

Lemma same_regulators_refl (c : Ctx) : same_regulators c c.
Proof. repeat split. Qed.

Lemma same_regulators_trans (c1 c2 c3 : Ctx) :
  same_regulators c1 c2 -> same_regulators c2 c3 -> same_regulators c1 c3.
Proof.
  unfold same_regulators.
  intros (A1 & A2 & A3 & A4 & A5 & A6) (B1 & B2 & B3 & B4 & B5 & B6).
  repeat split; eapply same_gains_trans; eassumption.
Qed.

Lemma init_ctx_inv (t0 : R) : loop_inv (init_ctx t0).
Proof.
  unfold loop_inv. cbn.
  split; [reflexivity|]. split; [reflexivity|]. split; [lra|].
  split; [left; reflexivity|]. split.
  - exists 0%Z, 0%Z. repeat split; lia.
  - repeat split.
Qed.

Lemma tick_keeps_inv cfg c c' inp acts :
  loop_inv c -> tick cfg c inp = Ok (c', acts) -> loop_inv c'.
Proof.
  intros (Hdl & Hxl & Hdist & Hmult & Hspeed & Hgains) Htick.
  destruct (evaluated inp) as [[[gs pos] dir]|] eqn:E.
  - destruct (tick_evaluated_inv _ _ _ _ _ _ _ _ E Htick)
      as (dh & xh & c1 & a1 & Hdh & Hxh & Hes & -> & _).
    pose proof (eval_state_gains _ _ _ _ _ _ _ _ _ _ _ _ Hes) as Hg.
    apply eval_state_frame in Hes.
    destruct Hes as ((Hd & Hx & _) & _ & _ & _ & _ & Hm & Hnn & _).
    apply push_spec in Hdh, Hxh.
    destruct Hdh as [_ Hdh], Hxh as [_ Hxh].
    pose proof (limit_speed_bounds (speed_right c1)) as Hr.
    pose proof (limit_speed_bounds (speed_left c1)) as Hl.
    assert (Hg' : same_regulators c c1) by (destruct c; exact Hg).
    pose proof (same_regulators_trans _ _ _ Hgains Hg') as Hg''.
    destruct c, c1; cbn in *. unfold loop_inv; cbn.
    split; [congruence|]. split; [congruence|].
    split; [apply Hnn; exact Hdist|].
    split; [destruct Hm as [->|Hm]; tauto|].
    split; [|exact Hg''].
    eexists _, _. split; [reflexivity|]. split; [reflexivity|].
    split; assumption.
  - rewrite (tick_skipped_ctx _ _ _ _ _ E Htick).
    destruct c; cbn in *. unfold loop_inv; cbn. tauto.
Qed.

Lemma run_keeps_inv cfg inps : forall c c' acts,
  loop_inv c -> run cfg c inps = Ok (c', acts) -> loop_inv c'.
Proof.
  induction inps as [|inp inps IH]; intros c c' acts Hinv.
  - intros [= <- _]. exact Hinv.
  - cbn [run].
    destruct (tick cfg c inp) as [[c1 a1]|] eqn:Htick;
      cbn [bind]; [|discriminate].
    destruct (run cfg c1 inps) as [[c2 a2]|] eqn:Hrun;
      cbn [bind]; [|discriminate].
    intros [= <- _]. apply (IH c1 c2 a2); [|exact Hrun].
    apply (tick_keeps_inv cfg c c1 inp a1 Hinv Htick).
Qed.

(** X18.  After any number of iterations from the start of the program,
    both history windows hold [HIST_QUEUE_LENGTH] samples, the stored
    distance is not negative, the drive-home multiplier is [1] or [0.1],
    the stored wheel speeds are integers within 800, and every regulator
    has the setpoint, gains and integral limit it was built with. *)
Theorem loop_invariant (cfg : Config) (t0 : R) (inps : list TickInput)
    (c : Ctx) (acts : list action) :
  run cfg (init_ctx t0) inps = Ok (c, acts) ->
  List.length (robot_dir_hist c) = HIST_QUEUE_LENGTH /\
  List.length (robot_dist_hist c) = HIST_QUEUE_LENGTH /\
  0 <= target_dist c /\
  (pid_frwd_base_apple_multiplier c = 1 \/
   pid_frwd_base_apple_multiplier c = 1 / 10) /\
  (exists right left : Z,
      speed_right c = IZR right /\ speed_left c = IZR left /\
      (- 800 <= right <= 800)%Z /\ (- 800 <= left <= 800)%Z) /\
  same_regulators (init_ctx 0) c.
Proof.
  intros Hrun.
  exact (run_keeps_inv cfg inps (init_ctx t0) c acts (init_ctx_inv t0) Hrun).
Qed.

Lemma loop_invariant_witness :
  exists c,
    List.length (robot_dir_hist c) = HIST_QUEUE_LENGTH /\
    List.length (robot_dist_hist c) = HIST_QUEUE_LENGTH /\
    0 <= target_dist c /\
    (pid_frwd_base_apple_multiplier c = 1 \/
     pid_frwd_base_apple_multiplier c = 1 / 10) /\
    (exists right left : Z,
        speed_right c = IZR right /\ speed_left c = IZR left /\
        (- 800 <= right <= 800)%Z /\ (- 800 <= left <= 800)%Z) /\
    same_regulators (init_ctx 0) c.
Proof.
  destruct seek_home_seek as (c1 & acts1 & c2 & acts2 & H1 & H2 & _).
  exists c2.
  apply (loop_invariant cfg0 0 [input_home 1; input_home 2] c2
           (acts1 ++ acts2 ++ [])).
  cbn [run]. rewrite H1. cbn [bind]. rewrite H2. reflexivity.
Defined.

(** ** Arriving home *)

Ltac zone_finish :=
  cbn [tl option_map negb andb orb];
  let Hzone := fresh "Hzone" in
  intros Hzone;
  first
    [ congruence
    | match goal with
      | H : _ || ?z = false, Hz : ?z = true |- _ =>
          rewrite Hz, orb_true_r in H; discriminate H
      end
    | rewrite ?limit_speed_0; eexists; split; [reflexivity|];
      repeat split ].

(** X19.  In [HOME_STRAIGHT] a robot inside the home zone of its team has
    arrived, whatever the distance window says: the iteration stops the
    wheels, opens the claws and goes to [BACK_OFF]. *)
Theorem home_zone_arrival (cfg : Config) (c : Ctx) (inp : TickInput)
    (game_state : GameState) (robot_pos : Point) (robot_dir : R)
    (goal : Point) (was_near : bool) (t : R) :
  state c = HOME_STRAIGHT ->
  evaluated inp = Some (game_state, robot_pos, robot_dir) ->
  target c = Some goal ->
  robot_near_target_old c = Some was_near ->
  timer_near_target c = Some t ->
  robot_dir_hist c <> [] -> robot_dist_hist c <> [] ->
  (if (team_my_tag cfg =? "team1")%string
   then in_team_one robot_pos else in_team_two robot_pos) = true ->
  exists c',
    tick cfg c inp =
      Ok (c', [run_forever motor_right 0; run_forever motor_left 0;
               run_forever motor_grab 500; sleep (5 / 10);
               stop_brake motor_grab;
               run_forever motor_right 0; run_forever motor_left 0]) /\
    state c' = BACK_OFF /\ speed_right c' = 0 /\ speed_left c' = 0.
Proof.
  intros Hst Hev Htgt Hnear Htimer Hdir Hdist.
  rewrite (tick_evaluated _ _ _ _ _ _ Hev).
  open_ctx c. subst st tgt near_old timer.
  destruct dir_hist as [|a0 dir_hist]; [congruence|].
  destruct dist_hist as [|x0 dist_hist]; [congruence|].
  clear Hdir Hdist.
  crunch; zone_finish.
Qed.

Lemma home_zone_arrival_witness :
  exists c',
    tick cfg0 ctx_homing (input_home 1) =
      Ok (c', [run_forever motor_right 0; run_forever motor_left 0;
               run_forever motor_grab 500; sleep (5 / 10);
               stop_brake motor_grab;
               run_forever motor_right 0; run_forever motor_left 0]) /\
    state c' = BACK_OFF /\ speed_right c' = 0 /\ speed_left c' = 0.
Proof.
  apply (home_zone_arrival cfg0 ctx_homing (input_home 1) gs_home
           (mkPoint 270 1010) 0 (mkPoint 270 1010) false 3);
    try reflexivity; try discriminate.
  cbn. unfold in_team_one, Rgtb. cbn. decide_R. reflexivity.
Defined.

(** ** Losing the first iteration of a state *)

(** X20.  The state-change flag is taken at the top of every iteration,
    evaluated or not.  So when the iteration right after the entry into
    [GET_STRAIGHT] is not evaluated (bad packet, game off, robot hidden)
    the reset of the regulators and the arming of the watchdog are
    skipped for good; if the watchdog was never armed before and the
    robot is neither near nor arrived, the next evaluated iteration reads
    the unassigned [timer_near_target] and raises [NameError], where the
    same iteration without the lost one completes and arms the
    watchdog. *)
Theorem lost_entry_raises (cfg : Config) (c : Ctx) (inp1 inp2 : TickInput)
    (game_state : GameState) (robot_pos : Point) (robot_dir : R)
    (goal : Point) (was_near : bool) :
  state c = GET_STRAIGHT ->
  state_differs GET_STRAIGHT (state_old c) = true ->
  timer_near_target c = None ->
  target c = Some goal ->
  robot_near_target_old c = Some was_near ->
  robot_dir_hist c <> [] -> robot_dist_hist c <> [] ->
  evaluated inp1 = None ->
  evaluated inp2 = Some (game_state, robot_pos, robot_dir) ->
  DIST_NEAR <= get_distance robot_pos goal ->
  arrival_met cfg GET_STRAIGHT c robot_pos = false ->
  (exists c1 acts1,
      tick cfg c inp1 = Ok (c1, acts1) /\
      tick cfg c1 inp2 = Raise NameError) /\
  (exists c' acts,
      tick cfg c inp2 = Ok (c', acts) /\
      state c' = GET_STRAIGHT /\
      timer_near_target c' = Some TIMER_NEAR_TARGET).
Proof.
  intros Hst Hnew Htimer Htgt Hflag Hdir Hdist Hev1 Hev2 Hfar Harr.
  apply Rltb_false in Hfar.
  destruct (tick_skipped cfg c inp1 Hev1) as (acts1 & Hskip & _).
  split.
  - exists (start_tick inp1 c), acts1. split; [exact Hskip|].
    rewrite (tick_evaluated _ _ _ _ _ _ Hev2).
    open_ctx c. subst st tgt near_old timer.
    destruct dir_hist as [|a0 dir_hist]; [congruence|].
    destruct dist_hist as [|x0 dist_hist]; [congruence|].
    unfold arrival_met in Harr. cbn in Harr.
    unfold_code.
    cbv beta iota delta [state_differs negb State_eqb].
    unfold_code. rewrite Hfar. unfold_code.
    rewrite andb_false_r. unfold_code. rewrite Harr. reflexivity.
  - rewrite (tick_evaluated _ _ _ _ _ _ Hev2).
    open_ctx c. subst st tgt near_old timer.
    destruct dir_hist as [|a0 dir_hist]; [congruence|].
    destruct dist_hist as [|x0 dist_hist]; [congruence|].
    unfold arrival_met in Harr. cbn in Harr.
    unfold_code. rewrite Hnew. unfold_code. rewrite Hfar. unfold_code.
    rewrite andb_false_r. unfold_code. rewrite Harr. unfold_code.
    unfold TIMER_NEAR_TARGET at 1. decide_R. unfold_code.
    do 2 eexists. split; [reflexivity|]. split; reflexivity.
Qed.

Lemma lost_entry_raises_witness :
  (exists c1 acts1,
      tick cfg0 ctx_entered input_hidden = Ok (c1, acts1) /\
      tick cfg0 c1 (input_near 12) = Raise NameError) /\
  (exists c' acts,
      tick cfg0 ctx_entered (input_near 12) = Ok (c', acts) /\
      state c' = GET_STRAIGHT /\
      timer_near_target c' = Some TIMER_NEAR_TARGET).
Proof.
  apply (lost_entry_raises cfg0 ctx_entered input_hidden (input_near 12)
           gs_apples (mkPoint 1000 1000) 0 (mkPoint 1500 1000) false);
    try reflexivity; try discriminate.
  - rewrite get_distance_east by (cbn; lra). cbn. unfold DIST_NEAR. lra.
  - run_east. reflexivity.
Defined.

(** ** Settling *)

Lemma sum_zero_iff {A : Type} (f : A -> bool) (l : list A) :
  (sum (map f l) =? 0)%nat = true <-> Forall (fun a => f a = false) l.
Proof.
  rewrite Nat.eqb_eq. induction l as [|a l IH]; cbn [map sum].
  - split; [constructor|reflexivity].
  - destruct (f a) eqn:E; split.
    + cbn. discriminate.
    + intros H. inversion H; congruence.
    + cbn. intros H. constructor; [exact E|]. apply IH. exact H.
    + cbn. intros H. inversion H. apply IH. assumption.
Qed.

(** The branch of a turn state leaves the state exactly when the bearing
    window is settled. *)
Lemma eval_state_turn cfg game_state robot_pos robot_dir now lt changed
    now1 now2 c c' acts :
  eval_state cfg game_state robot_pos robot_dir now lt changed now1 now2 c
  = Ok (c', acts) ->
  turn_state (state c) = true ->
  (state c' <> state c <-> dir_settled c = true).
Proof.
  open_ctx c. unfold dir_settled.
  destruct st; try discriminate; crunch; cbn; intros _;
    split; intros; congruence.
Qed.

(** X21.  A turn state hands over to its drive state exactly when every
    sample of the bearing window, as this iteration finds it after its
    push, is within [DIR_EPS] = 5 degrees in magnitude.  The window holds
    the bearings of earlier iterations: the bearing measured in this
    iteration does not count yet. *)
Theorem turn_settles (cfg : Config) (c c' : Ctx) (inp : TickInput)
    (acts : list action) :
  tick cfg c inp = Ok (c', acts) ->
  evaluated inp <> None ->
  turn_state (state c) = true ->
  (state c' <> state c <->
   Forall (fun a => Rabs a <= DIR_EPS)
     (tl (robot_dir_hist c) ++ [target_angle c])).
Proof.
  intros Htick Hev Hturn.
  destruct (evaluated inp) as [[[gs pos] dir]|] eqn:E; [|congruence].
  destruct (tick_evaluated_inv _ _ _ _ _ _ _ _ E Htick)
    as (dh & xh & c1 & a1 & Hdh & _ & Hes & -> & _).
  apply push_spec in Hdh. destruct Hdh as [Hdh _].
  apply eval_state_turn in Hes; [|destruct c; exact Hturn].
  assert (Hstate : state c1 <> state c <->
                   (sum (map (fun a => Rgtb (Rabs a) DIR_EPS) dh) =? 0)%nat
                   = true).
  { destruct c; exact Hes. }
  rewrite sum_zero_iff in Hstate. rewrite <- Hdh.
  assert (Hsame : Forall (fun a => Rgtb (Rabs a) DIR_EPS = false) dh <->
                  Forall (fun a => Rabs a <= DIR_EPS) dh).
  { split; apply Forall_impl; intros a; unfold Rgtb;
      rewrite Rltb_false; auto. }
  rewrite <- Hsame, <- Hstate. destruct c1; reflexivity.
Qed.

Lemma turn_settles_witness :
  exists c',
    (state c' <> state ctx_turning <->
     Forall (fun a => Rabs a <= DIR_EPS)
       (tl (robot_dir_hist ctx_turning) ++ [target_angle ctx_turning])).
Proof.
  destruct turning_tick as (c' & Htick & _).
  exists c'.
  apply (turn_settles cfg0 ctx_turning c' input_north _ Htick).
  - discriminate.
  - reflexivity.
Defined.
